(** * gen_builtin_symbols.py: built-in symbol table generator

    A shallow embedding of [src/compiler/translator/gen_builtin_symbols.py]
    (ANGLE shader translator) and the properties of its type model, variant
    expander, identity assignment, name mangling, hashing, unmangled-name
    shadowing, declaration parser and output emitter.

    Python values are modelled as follows:
    - [int] is [Z]; [str] is [string] (Python 2 byte strings);
    - a [set] of strings is a [gset string];
    - an [OrderedDict] is an association list kept in insertion order;
    - the plain dictionary from hashes to code is a [gmap];
    - the plain dictionary of the subgroups of a group is an association
      list with unique keys, iterated in the order of a [DictOrder];
    - a JSON object is a [Metadata] record, with the keys that [update]
      copies over those of a group or a declaration;
    - a raised exception is the [Err] branch of [result]. *)

From Stdlib Require Import ZArith String Ascii List Lia.
From Stdlib Require Import DecimalString HexadecimalString.
From stdpp Require Import base gmap strings list sorting.
Import ListNotations.

#[local] Open Scope string_scope.
#[local] Open Scope Z_scope.

(** ** Exceptions *)

(** The exceptions the script raises.  [ForeignValue] is none of them: it
    marks the point where a run leaves the types of this model (see
    [check_update]). *)
Inductive error : Type :=
| KeyError (key : string)
| IndexError
| UnexpectedLevel (level : string)
| UnexpectedSecondarySize
| TypeError
| UnrecognizedType (token : string)
| GroupEndMismatch (got expected : string)
| UnexpectedInputLine (line : string)
| JsonError (text : string)
| OpNotDefined
| UnexpectedGenType (value : string)
| MultipleGenTypes
| ForeignValue (key : string).

Inductive result (A : Type) : Type :=
| Ok (a : A)
| Err (e : error).
Arguments Ok {A} a.
Arguments Err {A} e.

#[global] Instance result_ret : MRet result := fun A a => Ok a.
#[global] Instance result_bind : MBind result := fun A B k r =>
  match r with
  | Ok a => k a
  | Err e => Err e
  end.

Definition is_ok {A : Type} (r : result A) : bool :=
  match r with Ok _ => true | Err _ => false end.

(** The value of a computation that did not raise ([d] otherwise). *)
Definition value_of {A : Type} (d : A) (r : result A) : A :=
  match r with Ok a => a | Err _ => d end.

(** [for x in xs: st = body st x], stopping at the first exception. *)
Fixpoint foldM {S A : Type} (body : S -> A -> result S) (xs : list A) (st : S)
  : result S :=
  match xs with
  | [] => Ok st
  | x :: rest => st' ← body st x; foldM body rest st'
  end.

(** [[f(x) for x in xs]], stopping at the first exception. *)
Fixpoint mapM {A B : Type} (f : A -> result B) (xs : list A) : result (list B) :=
  match xs with
  | [] => Ok []
  | x :: rest => y ← f x; ys ← mapM f rest; Ok (y :: ys)
  end.

(** ** Python builtins used by the script *)

(** [str(n)] for an [int]. *)
Definition str (z : Z) : string :=
  DecimalString.NilZero.string_of_int (Z.to_int z).

(** ['%x' % n] for a non-negative [int]. *)
Definition hex (z : Z) : string :=
  HexadecimalString.NilZero.string_of_uint (N.to_hex_uint (Z.to_N z)).

(** [ord(c)] of one character of a byte string. *)
Definition ord (c : ascii) : Z := Z.of_N (N_of_ascii c).

Definition dquote : string := String "034" EmptyString.

(** ** OrderedDict as an insertion-ordered association list *)

Module OrderedDict.
Section Dict.
Context {V : Type}.

Definition t := list (string * V).

Fixpoint get (d : t) (k : string) : option V :=
  match d with
  | [] => None
  | (k', v) :: rest => if String.eqb k' k then Some v else get rest k
  end.

Definition mem (d : t) (k : string) : bool :=
  match get d k with Some _ => true | None => false end.

(** [d[k] = v]: an existing key keeps its position, a new key goes last. *)
Fixpoint set (d : t) (k : string) (v : V) : t :=
  match d with
  | [] => [(k, v)]
  | (k', v') :: rest =>
      if String.eqb k' k then (k', v) :: rest else (k', v') :: set rest k v
  end.
End Dict.
Arguments t V : clear implicits.
End OrderedDict.

(** ** hash32 (lines 457-466) *)

Definition fnvOffsetBasis : Z := 0x811c9dc5.
Definition fnvPrime : Z := 16777619.

(** One iteration of [for c in str]; [*] binds tighter than [&] in Python. *)
Definition hash32_step (hash : Z) (c : ascii) : Z :=
  let hash := Z.lxor hash (ord c) in
  Z.land (hash * fnvPrime) 0xffffffff.

Definition hash32_value (s : string) : Z :=
  fold_left hash32_step (list_ascii_of_string s) fnvOffsetBasis.

Definition sanity_check (hash : Z) (s : string) : string :=
  "    ASSERT_EQ(0x" ++ hex hash ++ "u, ImmutableString(" ++ dquote ++ s
    ++ dquote ++ ").hash32());".

(** [hash32] returns the hash and records the assertion line in
    [script_generated_hash_tests] (an [OrderedDict] used as an ordered set). *)
Definition hash32 (script_generated_hash_tests : OrderedDict.t unit) (s : string)
  : Z * OrderedDict.t unit :=
  let hash := hash32_value s in
  (hash, OrderedDict.set script_generated_hash_tests (sanity_check hash s) tt).

(** FNV-1a as the specification words it: start from the offset basis and,
    for each byte, XOR it in and multiply by the prime modulo 2^32. *)
Fixpoint fnv1a_from (h : Z) (bytes : list Z) : Z :=
  match bytes with
  | [] => h
  | b :: rest => fnv1a_from ((Z.lxor h b * 16777619) mod 2 ^ 32) rest
  end.

Definition char_codes (s : string) : list Z :=
  map (fun c => Z.of_nat (nat_of_ascii c)) (list_ascii_of_string s).

Definition fnv1a (s : string) : Z := fnv1a_from 0x811c9dc5 (char_codes s).

(** ** String helpers: startswith, slicing, upper *)

Definition startswith (s p : string) : bool := String.prefix p s.

(** [s[n:]] *)
Fixpoint slice_from (n : nat) (s : string) : string :=
  match n, s with
  | O, _ => s
  | S n', String _ rest => slice_from n' rest
  | S _, EmptyString => EmptyString
  end.

(** [c.upper()] on an ASCII character. *)
Definition upper (c : ascii) : ascii :=
  let n := nat_of_ascii c in
  if (Nat.leb 97 n && Nat.leb n 122)%bool then ascii_of_nat (n - 32) else c.

(** [c.lower()] on an ASCII character. *)
Definition lower (c : ascii) : ascii :=
  let n := nat_of_ascii c in
  if (Nat.leb 65 n && Nat.leb n 90)%bool then ascii_of_nat (n + 32) else c.

(** [s[i].upper() + s[i+1:]] *)
Definition upper_at (i : nat) (s : string) : result string :=
  match slice_from i s with
  | String c rest => Ok (String (upper c) rest)
  | EmptyString => Err IndexError
  end.

(** The regular-expression anchor [$]: the end of the string, or just before
    a newline that ends the string. *)
Definition at_end (s : string) : bool :=
  match s with
  | EmptyString => true
  | String "010" EmptyString => true
  | _ => false
  end.

(** [table.get(key)]: the value stored under [key], if any. *)
Fixpoint lookup_table (table : list (string * string)) (key : string)
  : option string :=
  match table with
  | [] => None
  | (k, v) :: rest => if String.eqb k key then Some v else lookup_table rest key
  end.

(** ** The type model: class TType (lines 207-350) *)

(** The dictionary built by [parse_type] and by the specialisation methods,
    before [normalize] fills in the defaults. *)
Record TypeDict : Type := mkTypeDict {
  d_basic : option string;
  d_primarySize : option Z;
  d_secondarySize : option Z;
  d_precision : option string;
  d_qualifier : option string;
  d_genType : option string
}.

(** [self.data] of a [TType] once [normalize] has run: the four defaulted
    keys are always present, ['basic'] and ['genType'] may be absent. *)
Record TType : Type := mkTType {
  basic : option string;
  primarySize : Z;
  secondarySize : Z;
  precision : string;
  qualifier : string;
  genType : option string
}.

Definition basic_type_map : list (string * string) :=
  [("float", "Float"); ("int", "Int"); ("uint", "UInt"); ("bool", "Bool");
   ("void", "Void"); ("atomic_uint", "AtomicCounter");
   ("yuvCscStandardEXT", "YuvCscStandardEXT")].

Definition basic_type_prefix_map : list (string * string) :=
  [("", "Float"); ("i", "Int"); ("u", "UInt"); ("b", "Bool"); ("v", "Void")].

(** [int(d)] for a digit matched by [[234]]. *)
Definition digit234 (c : ascii) : option Z :=
  match c with
  | "2"%char => Some 2
  | "3"%char => Some 3
  | "4"%char => Some 4
  | _ => None
  end.

(** An optional leading character from a class: [([iub]?)] and [([IUB]?)]. *)
Definition optional_char (cls : list ascii) (s : string) : string * string :=
  match s with
  | String c rest =>
      if existsb (Ascii.eqb c) cls then (String c EmptyString, rest)
      else (EmptyString, s)
  | EmptyString => (EmptyString, s)
  end.

Definition strip_prefix (p s : string) : option string :=
  if startswith s p then Some (slice_from (String.length p) s) else None.

(** [re.match(r'^([iub]?)vec([234]?)$', s)]: groups 1 and 2. *)
Definition vec_match (s : string) : option (string * option Z) :=
  let '(g1, rest) := optional_char ["i"; "u"; "b"]%char s in
  match strip_prefix "vec" rest with
  | None => None
  | Some rest =>
      match rest with
      | String c rest' =>
          match digit234 c with
          | Some n => if at_end rest' then Some (g1, Some n) else None
          | None => if at_end rest then Some (g1, None) else None
          end
      | EmptyString => Some (g1, None)
      end
  end.

(** [re.match(r'^mat([234])(x([234]))?$', s)]: groups 1 and 3. *)
Definition mat_match (s : string) : option (Z * option Z) :=
  match strip_prefix "mat" s with
  | Some (String c1 rest) =>
      match digit234 c1 with
      | None => None
      | Some n1 =>
          match rest with
          | String "x" (String c3 rest') =>
              match digit234 c3 with
              | Some n3 => if at_end rest' then Some (n1, Some n3) else None
              | None => None
              end
          | _ => if at_end rest then Some (n1, None) else None
          end
      end
  | _ => None
  end.

(** [re.match(r'^gen([IUB]?)Type$', s)]: group 1. *)
Definition gen_match (s : string) : option string :=
  match strip_prefix "gen" s with
  | None => None
  | Some rest =>
      let '(g1, rest) := optional_char ["I"; "U"; "B"]%char rest in
      match strip_prefix "Type" rest with
      | Some rest => if at_end rest then Some g1 else None
      | None => None
      end
  end.

Definition string_lower (s : string) : string :=
  string_of_list_ascii (map lower (list_ascii_of_string s)).

Definition key_lookup (table : list (string * string)) (key : string)
  : result string :=
  match lookup_table table key with
  | Some v => Ok v
  | None => Err (KeyError key)
  end.

(** [parse_type] once the [out]/[inout] prefixes are gone (lines 287-350). *)
Definition parse_unqualified (glsl_header_type : string) : result TypeDict :=
  match lookup_table basic_type_map glsl_header_type with
  | Some b => Ok (mkTypeDict (Some b) None None None None None)
  | None =>
  match vec_match glsl_header_type with
  | Some (g1, g2) =>
      b ← key_lookup basic_type_prefix_map g1;
      match g2 with
      | None => Ok (mkTypeDict (Some b) None None None None (Some "vec"))
      | Some n => Ok (mkTypeDict (Some b) (Some n) None None None None)
      end
  | None =>
  match mat_match glsl_header_type with
  | Some (n1, g3) =>
      if Nat.eqb (String.length glsl_header_type) 4 then
        Ok (mkTypeDict (Some "Float") (Some n1) (Some n1) None None None)
      else
        match g3 with
        | Some n3 =>
            Ok (mkTypeDict (Some "Float") (Some n1) (Some n3) None None None)
        | None => Err TypeError
        end
  | None =>
  match gen_match glsl_header_type with
  | Some g1 =>
      b ← key_lookup basic_type_prefix_map (string_lower g1);
      Ok (mkTypeDict (Some b) None None None None (Some "yes"))
  | None =>
  if startswith glsl_header_type "sampler" then
    b ← upper_at 0 glsl_header_type;
    Ok (mkTypeDict (Some b) None None None None None)
  else if (startswith glsl_header_type "gsampler"
           || startswith glsl_header_type "gimage")%bool then
    b ← upper_at 1 glsl_header_type;
    Ok (mkTypeDict (Some b) None None None None (Some "sampler_or_image"))
  else if String.eqb glsl_header_type "gvec4" then
    Ok (mkTypeDict None (Some 4) None None None (Some "sampler_or_image"))
  else if String.eqb glsl_header_type "gvec3" then
    Ok (mkTypeDict None (Some 3) None None None (Some "sampler_or_image"))
  else Err (UnrecognizedType glsl_header_type)
  end end end end.

Definition set_qualifier (d : TypeDict) (q : string) : TypeDict :=
  mkTypeDict (d_basic d) (d_primarySize d) (d_secondarySize d) (d_precision d)
             (Some q) (d_genType d).

(** [TType.parse_type]: the recursion peels [out ] and [inout ] prefixes. *)
Fixpoint parse_type (glsl_header_type : string) : result TypeDict :=
  match glsl_header_type with
  | String "o" (String "u" (String "t" (String " " rest))) =>
      type_obj ← parse_type rest;
      Ok (set_qualifier type_obj "Out")
  | String "i" (String "n" (String "o" (String "u" (String "t"
      (String " " rest))))) =>
      type_obj ← parse_type rest;
      Ok (set_qualifier type_obj "InOut")
  | _ => parse_unqualified glsl_header_type
  end.

(** [TType.normalize] (lines 215-227). *)
Definition normalize (d : TypeDict) : result TType :=
  primary ←
    match d_primarySize d, d_secondarySize d with
    | None, Some _ => Err UnexpectedSecondarySize
    | None, None => Ok 1
    | Some p, _ => Ok p
    end;
  Ok (mkTType (d_basic d)
              primary
              (default 1 (d_secondarySize d))
              (default "Undefined" (d_precision d))
              (default "Global" (d_qualifier d))
              (d_genType d)).

(** [TType(data)] for a dictionary, and [TType(token)] for a string. *)
Definition TType_of_dict (d : TypeDict) : result TType := normalize d.

Definition TType_of_string (glsl_header_type : string) : result TType :=
  d ← parse_type glsl_header_type; normalize d.

Definition basic_mangled_names : list (string * string) :=
  [("Float", "f"); ("Int", "i"); ("UInt", "u"); ("Bool", "b");
   ("YuvCscStandardEXT", "y");
   ("Sampler2D", "s2"); ("Sampler3D", "s3"); ("SamplerCube", "sC");
   ("Sampler2DArray", "sA"); ("SamplerExternalOES", "sX");
   ("SamplerExternal2DY2YEXT", "sY"); ("Sampler2DRect", "sR");
   ("Sampler2DMS", "sM");
   ("ISampler2D", "is2"); ("ISampler3D", "is3"); ("ISamplerCube", "isC");
   ("ISampler2DArray", "isA"); ("ISampler2DMS", "isM");
   ("USampler2D", "us2"); ("USampler3D", "us3"); ("USamplerCube", "usC");
   ("USampler2DArray", "usA"); ("USampler2DMS", "usM");
   ("Sampler2DShadow", "s2s"); ("SamplerCubeShadow", "sCs");
   ("Sampler2DArrayShadow", "sAs");
   ("Image2D", "I2"); ("IImage2D", "iI2"); ("UImage2D", "uI2");
   ("Image3D", "I3"); ("IImage3D", "iI3"); ("UImage3D", "uI3");
   ("Image2DArray", "IA"); ("IImage2DArray", "iIA"); ("UImage2DArray", "uIA");
   ("ImageCube", "Ic"); ("IImageCube", "iIc"); ("UImageCube", "uIc");
   ("AtomicCounter", "a")].

Definition levels : list string :=
  ["ESSL3_1_BUILTINS"; "ESSL3_BUILTINS"; "ESSL1_BUILTINS"; "COMMON_BUILTINS"].

(** [self.data['basic']] *)
Definition get_basic (t : TType) : result string :=
  match basic t with
  | Some b => Ok b
  | None => Err (KeyError "basic")
  end.

Definition is_vector (t : TType) : bool :=
  (1 <? primarySize t) && (secondarySize t =? 1).

Definition is_matrix (t : TType) : bool := 1 <? secondarySize t.

(** The size digits that open a mangled token (lines 236-240). *)
Definition size_prefix (t : TType) : string :=
  if is_matrix t then str (primarySize t) ++ str (secondarySize t)
  else if 1 <? primarySize t then str (primarySize t)
  else "".

(** [TType.get_mangled_name(separator)] (lines 233-245). *)
Definition get_mangled_name (t : TType) (separator : string) : result string :=
  let mangled_name := "" in
  let mangled_name := mangled_name ++ size_prefix t in
  b ← get_basic t;
  code ← key_lookup basic_mangled_names b;
  let mangled_name := mangled_name ++ code in
  let mangled_name := mangled_name ++ separator in
  Ok mangled_name.

(** [TType.get_statictype_string] (lines 229-231). *)
Definition get_statictype_string (t : TType) : result string :=
  b ← get_basic t;
  Ok ("StaticType::Get<Ebt" ++ b ++ ", Ebp" ++ precision t ++ ", Evq"
        ++ qualifier t ++ ", " ++ str (primarySize t) ++ ", "
        ++ str (secondarySize t) ++ ">()").

(** [TType.specific_sampler_or_image_type] (lines 253-264). *)
Definition specific_sampler_or_image_type (t : TType) (basic_type_prefix : string)
  : result TType :=
  match genType t with
  | Some _ =>
      type ←
        match basic t with
        | None =>
            b ← key_lookup [("", "Float"); ("I", "Int"); ("U", "UInt")]
                  basic_type_prefix;
            Ok (mkTypeDict (Some b) (Some (primarySize t)) None None None None)
        | Some b =>
            Ok (mkTypeDict (Some (basic_type_prefix ++ b)) (Some 1)
                           None None None None)
        end;
      TType_of_dict
        (mkTypeDict (d_basic type) (d_primarySize type) (d_secondarySize type)
                    (Some "Undefined") (d_qualifier type) (d_genType type))
  | None => Ok t
  end.

(** [TType.specific_type] (lines 266-275). *)
Definition specific_type (t : TType) (vec_size : Z) : result TType :=
  match genType t with
  | Some _ =>
      b ← get_basic t;
      TType_of_dict
        (mkTypeDict (Some b) (Some vec_size) (Some 1) (Some (precision t))
                    (Some (qualifier t)) None)
  | None => Ok t
  end.

(** ** Function declarations and their metadata *)

(** One entry of a group's ['functions'] list: the three keys set by the
    parser and the metadata keys the generator reads.  The return type and
    the parameters are [TType] objects and the other values strings;
    ['hasSideEffects'] is only tested for presence. *)
Record FunctionProps : Type := mkFunctionProps {
  name : string;
  returnType : TType;
  parameters : list TType;
  level : option string;
  extension : option string;
  op : option string;
  hasSideEffects : bool;
  suffix : option string
}.

Definition get_suffix (props : FunctionProps) : string :=
  default "" (suffix props).

Definition get_extension (props : FunctionProps) : string :=
  default "UNDEFINED" (extension props).

Definition get_op (name : string) (function_props : FunctionProps)
  : result string :=
  match op function_props with
  | None => Err OpNotDefined
  | Some o =>
      if String.eqb o "auto" then upper_at 0 name else Ok o
  end.

Definition get_parameters (function_props : FunctionProps) : list TType :=
  parameters function_props.

Definition get_known_to_not_have_side_effects (function_props : FunctionProps)
  : string :=
  match op function_props with
  | Some o =>
      if negb (String.eqb o "CallBuiltInFunction") then
        if hasSideEffects function_props then "false"
        else if existsb (fun param =>
                    String.eqb (qualifier param) "Out"
                    || String.eqb (qualifier param) "InOut")
                  (get_parameters function_props)
        then "false" else "true"
      else "false"
  | None => "false"
  end.

(** ** Name mangling (lines 501-524) *)

(** [for param in parameters: name += param.get_mangled_name(sep)] *)
Definition append_mangled (separator : string) (acc : string) (param : TType)
  : result string :=
  m ← get_mangled_name param separator; Ok (acc ++ m).

Definition get_function_mangled_name (function_name : string)
    (parameters : list TType) : result string :=
  let mangled_name := function_name ++ "(" in
  foldM (append_mangled ";") parameters mangled_name.

Definition get_unique_identifier_name (function_name : string)
    (parameters : list TType) : result string :=
  let unique_name := function_name ++ "_" in
  foldM (append_mangled "_") parameters unique_name.

Definition qualifier_marker (param : TType) : string :=
  (if String.eqb (qualifier param) "Out" then "o_" else "")
    ++ (if String.eqb (qualifier param) "InOut" then "io_" else "").

Definition get_variable_name_to_store_parameters (parameters : list TType)
  : result string :=
  if Nat.eqb (length parameters) 0 then Ok "empty"
  else
    let unique_name := "p_" in
    foldM (fun unique_name param =>
             let unique_name := unique_name ++ qualifier_marker param in
             append_mangled "_" unique_name param)
          parameters unique_name.

(** ** The variant expander: gen_function_variants (lines 526-568) *)

Definition known_genTypes : list string := ["sampler_or_image"; "vec"; "yes"].

(** One iteration of the scan over the parameters (lines 531-537). *)
Definition scan_param (gen_type : gset string) (param : TType)
  : result (gset string) :=
  match genType param with
  | Some g =>
      if negb (existsb (String.eqb g) known_genTypes)
      then Err (UnexpectedGenType g)
      else
        let gen_type := gen_type ∪ {[ g ]} in
        if Nat.ltb 1 (size gen_type) then Err MultipleGenTypes
        else Ok gen_type
  | None => Ok gen_type
  end.

(** [function_props.copy()] with ['parameters'] and ['returnType'] replaced. *)
Definition with_types (function_props : FunctionProps)
    (variant_parameters : list TType) (variant_return : TType) : FunctionProps :=
  mkFunctionProps (name function_props) variant_return variant_parameters
                  (level function_props) (extension function_props)
                  (op function_props) (hasSideEffects function_props)
                  (suffix function_props).

Definition sampler_variant (function_props : FunctionProps) (type : string)
  : result FunctionProps :=
  variant_parameters ←
    mapM (fun param => specific_sampler_or_image_type param type)
         (get_parameters function_props);
  variant_return ←
    specific_sampler_or_image_type (returnType function_props) type;
  Ok (with_types function_props variant_parameters variant_return).

Definition size_variant (function_props : FunctionProps) (size : Z)
  : result FunctionProps :=
  variant_parameters ←
    mapM (fun param => specific_type param size)
         (get_parameters function_props);
  variant_return ← specific_type (returnType function_props) size;
  Ok (with_types function_props variant_parameters variant_return).

Definition gen_function_variants (function_name : string)
    (function_props : FunctionProps) : result (list FunctionProps) :=
  let parameters := get_parameters function_props in
  gen_type ← foldM scan_param parameters (∅ : gset string);
  if Nat.eqb (size gen_type) 0 then Ok [function_props]
  else if bool_decide ("sampler_or_image" ∈ gen_type) then
    mapM (sampler_variant function_props) [""; "I"; "U"]
  else
    let sizes := if bool_decide ("vec" ∈ gen_type) then [2; 3; 4]
                 else [1; 2; 3; 4] in
    mapM (size_variant function_props) sizes.

(** ** GroupedList (lines 176-204) *)

Definition nl : string := String "010" EmptyString.

(** [sep.join(xs)] *)
Fixpoint join (sep : string) (xs : list string) : string :=
  match xs with
  | [] => ""
  | [x] => x
  | x :: rest => x ++ sep ++ join sep rest
  end.

(** The object stored per name: [{'code': ..., 'extension': ...}]. *)
Record UnmangledCase : Type := mkUnmangledCase {
  case_code : string;
  case_extension : string
}.

Module GroupedList.
(** level -> condition -> name -> object, each an [OrderedDict]. *)
Definition t : Type :=
  OrderedDict.t (OrderedDict.t (OrderedDict.t UnmangledCase)).

Definition init : t := map (fun l => (l, [])) levels.

Definition check_level (level : string) : result unit :=
  if existsb (String.eqb level) levels then Ok tt
  else Err (UnexpectedLevel level).

(** [self.objs[level]] *)
Definition at_level (self : t) (level : string)
  : result (OrderedDict.t (OrderedDict.t UnmangledCase)) :=
  match OrderedDict.get self level with
  | Some by_condition => Ok by_condition
  | None => Err (KeyError level)
  end.

Definition add_obj (self : t) (level condition name : string)
    (obj : UnmangledCase) : result t :=
  _ ← check_level level;
  by_condition ← at_level self level;
  let by_condition :=
    if negb (OrderedDict.mem by_condition condition)
    then OrderedDict.set by_condition condition []
    else by_condition in
  let by_name := default [] (OrderedDict.get by_condition condition) in
  Ok (OrderedDict.set self level
        (OrderedDict.set by_condition condition
           (OrderedDict.set by_name name obj))).

Definition has_key (self : t) (level condition name : string) : result bool :=
  _ ← check_level level;
  by_condition ← at_level self level;
  match OrderedDict.get by_condition condition with
  | None => Ok false
  | Some by_name => Ok (OrderedDict.mem by_name name)
  end.

Definition get (self : t) (level condition name : string)
  : result (option UnmangledCase) :=
  present ← has_key self level condition name;
  if present : bool then
    by_condition ← at_level self level;
    Ok (OrderedDict.get by_condition condition
          ≫= fun by_name => OrderedDict.get by_name name)
  else Ok None.
End GroupedList.

(** ** The generator's module-level state (lines 431-455, 570) *)

Record Globals : Type := mkGlobals {
  (** each entry is the pair (unique_name, id) that line 626 formats *)
  builtin_id_declarations : list (string * Z);
  name_declarations : gset string;
  parameter_declarations : gset string;
  function_declarations : list string;
  insert_functions_by_condition : OrderedDict.t (list string);
  unmangled_builtin_declarations : gset string;
  unmangled_function_if_statements : GroupedList.t;
  id_counter : Z;
  defined_function_variants : gset string
}.

Definition initial_globals : Globals :=
  mkGlobals [] ∅ ∅ [] [] ∅ GroupedList.init 0 ∅.

(** The text of one [builtin_id_declarations] entry (line 626). *)
Definition builtin_id_declaration (entry : string * Z) : string :=
  "    static constexpr const TSymbolUniqueId " ++ fst entry
    ++ " = TSymbolUniqueId(" ++ str (snd entry) ++ ");".

(** The values of [template_args] fixed per declaration (lines 581-588). *)
Record TemplateArgs : Type := mkTemplateArgs {
  ta_name : string;
  ta_name_with_suffix : string;
  ta_level : string;
  ta_extension : string;
  ta_op : string;
  ta_known_to_not_have_side_effects : string
}.

(** ** Unmangled lookup records and shadowing (lines 597-609) *)

Definition unmangled_if (ta : TemplateArgs) : string :=
  "if (name == BuiltInName::" ++ ta_name_with_suffix ta ++ ")" ++ nl
    ++ "{" ++ nl
    ++ "    return &UnmangledBuiltIns::" ++ ta_extension ta ++ ";" ++ nl
    ++ "}".

Definition unmangled_builtin_declaration (ta : TemplateArgs) : string :=
  "constexpr const UnmangledBuiltIn " ++ ta_extension ta ++ "(TExtension::"
    ++ ta_extension ta ++ ");".

Definition record_unmangled (condition : string) (ta : TemplateArgs)
    (g : Globals) : result Globals :=
  let function_name := ta_name ta in
  let level := ta_level ta in
  let extension := ta_extension ta in
  let statements := unmangled_function_if_statements g in
  unmangled_builtin_no_condition ←
    GroupedList.get statements level "NO_CONDITION" function_name;
  let shadowed :=
    match unmangled_builtin_no_condition with
    | Some obj => String.eqb (case_extension obj) "UNDEFINED"
    | None => false
    end in
  if shadowed then Ok g
  else
    present ← GroupedList.has_key statements level condition function_name;
    if (negb present || String.eqb extension "UNDEFINED")%bool then
      statements ←
        GroupedList.add_obj statements level condition function_name
          (mkUnmangledCase (unmangled_if ta) extension);
      Ok (mkGlobals (builtin_id_declarations g) (name_declarations g)
            (parameter_declarations g) (function_declarations g)
            (insert_functions_by_condition g)
            (unmangled_builtin_declarations g
               ∪ {[ unmangled_builtin_declaration ta ]})
            statements (id_counter g) (defined_function_variants g))
    else Ok g.

(** ** Materialising variants: process_single_function_group (lines 572-651) *)

Definition name_declaration (ident literal : string) : string :=
  "constexpr const ImmutableString " ++ ident ++ "(" ++ dquote ++ literal
    ++ dquote ++ ");".

Definition parameter_list_declaration (parameters_var_name : string)
    (param_count : nat) (parameters_list : list string) : string :=
  if Nat.ltb 0 param_count then
    "constexpr const TConstParameter " ++ parameters_var_name ++ "["
      ++ str (Z.of_nat param_count) ++ "] = { " ++ join ", " parameters_list
      ++ " };"
  else
    "constexpr const TConstParameter *" ++ parameters_var_name ++ " = nullptr;".

Definition function_declaration (ta : TemplateArgs)
    (unique_name parameters_var_name return_type : string) (param_count : nat)
  : string :=
  "constexpr const TFunction kFunction_" ++ unique_name ++ "(BuiltInId::"
    ++ unique_name ++ ", BuiltInName::" ++ ta_name_with_suffix ta
    ++ ", TExtension::" ++ ta_extension ta ++ ", BuiltInParameters::"
    ++ parameters_var_name ++ ", " ++ str (Z.of_nat param_count) ++ ", "
    ++ return_type ++ ", BuiltInName::" ++ unique_name ++ ", EOp" ++ ta_op ta
    ++ ", " ++ ta_known_to_not_have_side_effects ta ++ ");".

Definition insert_function (ta : TemplateArgs) (unique_name : string) : string :=
  "    insertBuiltIn(" ++ ta_level ta ++ ", &BuiltInFunction::kFunction_"
    ++ unique_name ++ ");".

(** The body of [for function_props in function_variants] (lines 611-651). *)
Definition materialize_variant (condition : string) (ta : TemplateArgs)
    (g : Globals) (function_props : FunctionProps) : result Globals :=
  let id := id_counter g in
  let parameters := get_parameters function_props in
  unique_name ← get_unique_identifier_name (ta_name_with_suffix ta) parameters;
  if bool_decide (unique_name ∈ defined_function_variants g) then Ok g
  else
    let defined := defined_function_variants g ∪ {[ unique_name ]} in
    let param_count := length parameters in
    return_type ← get_statictype_string (returnType function_props);
    mangled_name ← get_function_mangled_name (ta_name ta) parameters;
    let id_declarations :=
      (builtin_id_declarations g ++ [(unique_name, id)])%list in
    let names :=
      name_declarations g ∪ {[ name_declaration unique_name mangled_name ]} in
    parameters_list ←
      mapM (fun param =>
              param_type ← get_statictype_string param;
              Ok ("TConstParameter(" ++ param_type ++ ")"))
           parameters;
    parameters_var_name ← get_variable_name_to_store_parameters parameters;
    let parameter_decls :=
      parameter_declarations g
        ∪ {[ parameter_list_declaration parameters_var_name param_count
               parameters_list ]} in
    let function_decls :=
      (function_declarations g
         ++ [function_declaration ta unique_name parameters_var_name
               return_type param_count])%list in
    match OrderedDict.get (insert_functions_by_condition g) condition with
    | None => Err (KeyError condition)
    | Some inserts =>
        let inserts_by_condition :=
          OrderedDict.set (insert_functions_by_condition g) condition
            (inserts ++ [insert_function ta unique_name])%list in
        Ok (mkGlobals id_declarations names parameter_decls function_decls
              inserts_by_condition (unmangled_builtin_declarations g)
              (unmangled_function_if_statements g) (id + 1) defined)
    end.

Definition add_name_declaration (decl : string) (g : Globals) : Globals :=
  mkGlobals (builtin_id_declarations g) (name_declarations g ∪ {[ decl ]})
    (parameter_declarations g) (function_declarations g)
    (insert_functions_by_condition g) (unmangled_builtin_declarations g)
    (unmangled_function_if_statements g) (id_counter g)
    (defined_function_variants g).

(** The body of [for function_props in group['functions']] (lines 577-651). *)
Definition process_function (condition : string) (g : Globals)
    (function_props : FunctionProps) : result Globals :=
  let function_name := name function_props in
  level ← match level function_props with
          | Some l => Ok l
          | None => Err (KeyError "level")
          end;
  let extension := get_extension function_props in
  op ← get_op function_name function_props;
  let ta :=
    mkTemplateArgs function_name (function_name ++ get_suffix function_props)
      level extension op (get_known_to_not_have_side_effects function_props) in
  function_variants ← gen_function_variants function_name function_props;
  let g :=
    add_name_declaration
      (name_declaration (ta_name_with_suffix ta) (ta_name ta)) g in
  g ← record_unmangled condition ta g;
  foldM (materialize_variant condition ta) function_variants g.

(** ** Groups (lines 653-667) *)

(** A group dictionary: ['name'], ['functions'], ['subgroups'] and the
    optional ['condition'] metadata.  ['subgroups'] is a plain dictionary; it
    is kept as an association list with unique keys, in the order the keys
    were first set.  The order in which a plain dictionary is iterated is
    that of its hash table and not the order of insertion: see
    [DictOrder]. *)
#[local] Unset Elimination Schemes.
Inductive Group : Type :=
  mkGroup (group_name : string) (functions : list FunctionProps)
          (subgroups : list (string * Group)) (condition : option string).

#[local] Set Elimination Schemes.

Definition group_name (g : Group) : string :=
  match g with mkGroup n _ _ _ => n end.
Definition functions (g : Group) : list FunctionProps :=
  match g with mkGroup _ fs _ _ => fs end.
Definition subgroups (g : Group) : list (string * Group) :=
  match g with mkGroup _ _ subs _ => subs end.
Definition condition (g : Group) : option string :=
  match g with mkGroup _ _ _ c => c end.

Definition process_single_function_group (condition group_name : string)
    (group : Group) (g : Globals) : result Globals :=
  foldM (process_function condition) (functions group) g.

Definition ensure_condition (condition : string) (g : Globals) : Globals :=
  if negb (OrderedDict.mem (insert_functions_by_condition g) condition) then
    mkGlobals (builtin_id_declarations g) (name_declarations g)
      (parameter_declarations g) (function_declarations g)
      (OrderedDict.set (insert_functions_by_condition g) condition [])
      (unmangled_builtin_declarations g) (unmangled_function_if_statements g)
      (id_counter g) (defined_function_variants g)
  else g.

(** The order of [d.iteritems()] on a plain dictionary.  It is fixed by the
    hash table, that is by the keys and the order they were set in, and by
    nothing else: the items come out in some order that does not depend on
    the values. *)
Class DictOrder : Type := {
  dict_items : forall {V : Type}, list (string * V) -> list (string * V);
  dict_items_values :
    forall {V W : Type} (f : string -> V -> W) (d : list (string * V)),
      dict_items (map (fun entry => (entry.1, f entry.1 entry.2)) d)
      = map (fun entry => (entry.1, f entry.1 entry.2)) (dict_items d);
  dict_items_permutation :
    forall {V : Type} (d : list (string * V)), dict_items d ≡ₚ d
}.

(** [process_function_group] (lines 653-664).  The calls on the subgroups
    are made in the order of [group['subgroups'].iteritems()]; the recursion
    is written on the association list, whose items are then put in that
    order (see [process_function_group_unfold]). *)
Fixpoint process_function_group {order : DictOrder} (group_name : string)
    (group : Group) (g : Globals) {struct group} : result Globals :=
  match group with
  | mkGroup _ _ subs cond =>
      let condition := default "NO_CONDITION" cond in
      let g := ensure_condition condition g in
      g ← process_single_function_group condition group_name group g;
      foldM (fun g entry => entry.2 g)
            (dict_items
               (map (fun entry =>
                       (entry.1, process_function_group entry.1 entry.2))
                    subs))
            g
  end.

(** The top-level loop over [parsed_functions], an [OrderedDict]
    (lines 666-667). *)
Definition process_all {order : DictOrder} (parsed_functions : OrderedDict.t Group)
  : result Globals :=
  foldM (fun g entry => process_function_group (fst entry) (snd entry) g)
        parsed_functions initial_globals.

(** The identity-related entries of [output_strings] (lines 673-674). *)
Definition last_static_builtin_id (g : Globals) : Z := id_counter g - 1.

Definition output_builtin_id_declarations (g : Globals) : string :=
  join nl (map builtin_id_declaration (builtin_id_declarations g)).

(** The identities handed out, in the order they were assigned. *)
Definition assigned_ids (g : Globals) : list Z :=
  map snd (builtin_id_declarations g).

(** ** The declaration parser: get_parsed_functions (lines 352-418) *)

Definition is_space (c : ascii) : bool :=
  existsb (Ascii.eqb c) [" "; "009"; "010"; "011"; "012"; "013"]%char.

Fixpoint lstrip (s : string) : string :=
  match s with
  | String c rest => if is_space c then lstrip rest else s
  | EmptyString => EmptyString
  end.

Fixpoint rstrip (s : string) : string :=
  match s with
  | String c rest =>
      let rest := rstrip rest in
      if (is_space c && String.eqb rest "")%bool then EmptyString
      else String c rest
  | EmptyString => EmptyString
  end.

(** [s.strip()] *)
Definition strip (s : string) : string := rstrip (lstrip s).

(** [s.split(', ')] *)
Fixpoint split_comma_space (s : string) : list string :=
  match s with
  | EmptyString => [""]
  | String "," (String " " rest) => "" :: split_comma_space rest
  | String c rest =>
      match split_comma_space rest with
      | head :: tail => String c head :: tail
      | [] => [String c EmptyString]
      end
  end.

(** [s.split(' ', 1)]: the part before the first space and, when there is a
    space, the part after it. *)
Fixpoint split_first_space (s : string) : string * option string :=
  match s with
  | EmptyString => (EmptyString, None)
  | String " " rest => (EmptyString, Some rest)
  | String c rest =>
      let '(head, tail) := split_first_space rest in (String c head, tail)
  end.

(** The word-character class of a byte-string pattern. *)
Definition is_word (c : ascii) : bool :=
  let n := nat_of_ascii c in
  ((Nat.leb 48 n && Nat.leb n 57) || (Nat.leb 65 n && Nat.leb n 90)
   || (Nat.leb 97 n && Nat.leb n 122) || Nat.eqb n 95)%bool.

(** The longest prefix of word characters, and what follows it. *)
Fixpoint span_word (s : string) : string * string :=
  match s with
  | String c rest =>
      if is_word c then
        let '(w, rest') := span_word rest in (String c w, rest')
      else (EmptyString, s)
  | EmptyString => (EmptyString, EmptyString)
  end.

(** The tail of [fun_re] after the opening parenthesis (group 3, then a
    closing parenthesis, a semicolon and [$]): everything up to the final
    parenthesis-semicolon pair, which one closing newline may follow; group 3
    holds no newline. *)
Fixpoint match_args (s : string) : option string :=
  match s with
  | EmptyString => None
  | String c rest =>
      if (Ascii.eqb c ")" && (String.eqb rest ";"
                               || String.eqb rest (";" ++ nl)))%bool
      then Some EmptyString
      else if Ascii.eqb c "010" then None
      else match match_args rest with
           | Some args => Some (String c args)
           | None => None
           end
  end.

(** [fun_re.match(line)]: a word, a space, a word, an opening parenthesis
    and the tail above; groups 1, 2 and 3. *)
Definition fun_match (line : string) : option (string * string * string) :=
  let '(return_type, rest) := span_word line in
  match return_type, rest with
  | String _ _, String " " rest =>
      let '(name, rest) := span_word rest in
      match name, rest with
      | String _ _, String "(" rest =>
          match match_args rest with
          | Some parameters => Some (return_type, name, parameters)
          | None => None
          end
      | _, _ => None
      end
  | _, _ => None
  end.

(** A JSON metadata object, seen through the keys the program reads from a
    group or a declaration after [update] has copied the object into it.
    The values of ['condition'], ['level'], ['extension'], ['op'] and
    ['suffix'] are taken to be strings; ['hasSideEffects'] is only tested
    for presence.  [m_name], [m_parameters], [m_functions] and [m_subgroups]
    hold the values of the structural keys ['name'], ['parameters'],
    ['functions'] and ['subgroups'] when the object has the key and its
    value is of the type the key has in [FunctionProps] and [Group].
    [m_foreign] lists the structural keys whose value is of no such type;
    ['returnType'] is one of them whenever the object has it, since no JSON
    value is a [TType] object. *)
Record Metadata : Type := mkMetadata {
  m_condition : option string;
  m_level : option string;
  m_extension : option string;
  m_op : option string;
  m_hasSideEffects : bool;
  m_suffix : option string;
  m_name : option string;
  m_parameters : option (list TType);
  m_functions : option (list FunctionProps);
  m_subgroups : option (OrderedDict.t Group);
  m_foreign : list string
}.

Definition empty_metadata : Metadata :=
  mkMetadata None None None None false None None None None None [].

(** Whether the object has none of the structural keys. *)
Definition plain_metadata (metadata : Metadata) : Prop :=
  m_name metadata = None /\ m_parameters metadata = None
  /\ m_functions metadata = None /\ m_subgroups metadata = None
  /\ m_foreign metadata = [].

(** [d.update(metadata)] on the structural keys [keys] of [d].  The program
    stores whatever value the object has; a value of a foreign type takes
    [d] out of the types of this model, which the model reports as an error
    of its own at the place where the program stores the value. *)
Definition check_update (keys : list string) (metadata : Metadata)
  : result unit :=
  match
    List.filter (fun key => existsb (String.eqb key) (m_foreign metadata)) keys
  with
  | [] => Ok tt
  | key :: _ => Err (ForeignValue key)
  end.

Definition parse_function_parameters (parameters : string)
  : result (list TType) :=
  if String.eqb parameters "" then Ok []
  else mapM (fun parameter => TType_of_string (strip parameter))
            (split_comma_space parameters).

(** The loop state: [parsed_functions], [group_stack] (innermost group
    first) and [default_metadata]. *)
Record ParserState : Type := mkParserState {
  parsed_functions : OrderedDict.t Group;
  group_stack : list Group;
  default_metadata : Metadata
}.

Definition initial_parser_state : ParserState :=
  mkParserState [] [] empty_metadata.

Definition add_function (group : Group) (function_props : FunctionProps)
  : Group :=
  mkGroup (group_name group) (functions group ++ [function_props])%list
          (subgroups group) (condition group).

Definition add_subgroup (super_group sub : Group) : Group :=
  mkGroup (group_name super_group) (functions super_group)
          (OrderedDict.set (subgroups super_group) (group_name sub) sub)
          (condition super_group).

Section Parser.
(** [json.loads], with the object it returns read as a [Metadata]. *)
Variable json_loads : string -> result Metadata.

(** The body of [for line in lines] (lines 375-416). *)
Definition parse_line (st : ParserState) (line : string)
  : result ParserState :=
  if startswith line "GROUP BEGIN " then
    let group_rest := strip (slice_from 12 line) in
    let '(name, metadata_text) := split_first_space group_rest in
    current_group ←
      match metadata_text with
      | Some text =>
          group_metadata ← json_loads text;
          _ ← check_update ["functions"; "name"; "subgroups"] group_metadata;
          Ok (mkGroup (default name (m_name group_metadata))
                      (default [] (m_functions group_metadata))
                      (default [] (m_subgroups group_metadata))
                      (m_condition group_metadata))
      | None => Ok (mkGroup name [] [] None)
      end;
    Ok (mkParserState (parsed_functions st)
          (current_group :: group_stack st) (default_metadata st))
  else if startswith line "GROUP END " then
    let group_end_name := strip (slice_from 10 line) in
    match group_stack st with
    | [] => Err IndexError
    | current_group :: stack =>
        if negb (String.eqb (group_name current_group) group_end_name) then
          Err (GroupEndMismatch group_end_name (group_name current_group))
        else
          match stack with
          | [] =>
              Ok (mkParserState
                    (OrderedDict.set (parsed_functions st)
                       (group_name current_group) current_group)
                    [] empty_metadata)
          | super_group :: outer =>
              Ok (mkParserState (parsed_functions st)
                    (add_subgroup super_group current_group :: outer)
                    (default_metadata st))
          end
    end
  else if startswith line "DEFAULT METADATA" then
    let line_rest := strip (slice_from 16 line) in
    metadata ← json_loads line_rest;
    Ok (mkParserState (parsed_functions st) (group_stack st) metadata)
  else
    match fun_match line with
    | Some (return_type, name, parameters) =>
        return_type ← TType_of_string return_type;
        parameters ← parse_function_parameters parameters;
        let metadata := default_metadata st in
        _ ← check_update ["name"; "returnType"; "parameters"] metadata;
        let function_props :=
          mkFunctionProps (default name (m_name metadata)) return_type
            (default parameters (m_parameters metadata)) (m_level metadata)
            (m_extension metadata) (m_op metadata)
            (m_hasSideEffects metadata) (m_suffix metadata) in
        match group_stack st with
        | [] => Err IndexError
        | current_group :: stack =>
            Ok (mkParserState (parsed_functions st)
                  (add_function current_group function_props :: stack)
                  (default_metadata st))
        end
    | None => Err (UnexpectedInputLine line)
    end.

(** The filter of line 366. *)
Definition significant_lines (lines : list string) : list string :=
  map strip
    (filter (fun line =>
               negb (String.eqb (strip line) "")
               && negb (startswith (strip line) "//"))
            lines).

Definition parse_lines (lines : list string) (st : ParserState)
  : result ParserState :=
  foldM parse_line lines st.

(** [get_parsed_functions], given the result of [f.readlines()]. *)
Definition get_parsed_functions (lines : list string)
  : result (OrderedDict.t Group) :=
  st ← parse_lines (significant_lines lines) initial_parser_state;
  Ok (parsed_functions st).
End Parser.

(** The script from the declarations file to the identity-related output:
    parse, then process every top-level group (lines 420, 666-667). *)
Definition generate {order : DictOrder} (json_loads : string -> result Metadata)
    (lines : list string) : result Globals :=
  parsed_functions ← get_parsed_functions json_loads lines;
  process_all parsed_functions.

(** ** Specification-side definitions and closed forms *)

(** The mangled token of a type: its size digits and kind code, with no
    separator. *)
Definition mangled_token (t : TType) : result string := get_mangled_name t "".

(** Every token followed by the separator. *)
Fixpoint terminated (separator : string) (tokens : list string) : string :=
  match tokens with
  | [] => ""
  | token :: rest => token ++ separator ++ terminated separator rest
  end.

(** The qualifier markers put in front of the tokens, parameter by
    parameter. *)
Definition marked_tokens (parameters : list TType) (tokens : list string)
  : list string :=
  zip_with (fun param token => qualifier_marker param ++ token)
           parameters tokens.

(** The wire name as the specification words it: name plus suffix, then the
    tokens separated by [;] with nothing after the last one. *)
Definition spec_wire_name (function_name suffix : string)
    (parameters : list TType) : result string :=
  tokens ← mapM mangled_token parameters;
  Ok (function_name ++ suffix ++ join ";" tokens).

(** The unique-variant key as the specification words it: [empty] without
    parameters, else name plus suffix followed by the [_]-separated tokens,
    each carrying its qualifier marker. *)
Definition spec_unique_key (name_with_suffix : string)
    (parameters : list TType) : result string :=
  match parameters with
  | [] => Ok "empty"
  | _ =>
      tokens ← mapM (fun param =>
                       token ← mangled_token param;
                       Ok (qualifier_marker param ++ token))
                    parameters;
      Ok (name_with_suffix ++ join "_" tokens)
  end.

(** Two types that differ at most in their qualifier. *)
Definition same_but_qualifier (a b : TType) : Prop :=
  basic a = basic b /\ primarySize a = primarySize b
  /\ secondarySize a = secondarySize b /\ precision a = precision b
  /\ genType a = genType b.

(** The set of generic tags carried by a list of types. *)
Definition generic_tags (types : list TType) : gset string :=
  list_to_set (omap genType types).

(** The tags the specification says the expander collects: those of the
    return type and of all parameters. *)
Definition spec_scanned_tags (function_props : FunctionProps) : gset string :=
  generic_tags (returnType function_props :: parameters function_props).

Definition tag_known (t : TType) : Prop :=
  match genType t with
  | Some g => In g known_genTypes
  | None => True
  end.

(** A generic type that names its basic kind (all but [gvec3]/[gvec4]). *)
Definition has_kind (t : TType) : Prop :=
  genType t <> None -> basic t <> None.

Definition concrete (t : TType) : Prop := genType t = None.

(** A generic type specialised to dimension [n]; other types unchanged. *)
Definition to_dimension (n : Z) (t : TType) : TType :=
  match genType t with
  | Some _ => mkTType (basic t) n 1 (precision t) (qualifier t) None
  | None => t
  end.

Definition family_scalar (prefix : string) : string :=
  if String.eqb prefix "I" then "Int"
  else if String.eqb prefix "U" then "UInt" else "Float".

(** A generic type specialised to the sampler family of [prefix]; other
    types unchanged. *)
Definition to_family (prefix : string) (t : TType) : TType :=
  match genType t with
  | Some _ =>
      match basic t with
      | Some b => mkTType (Some (prefix ++ b)) 1 1 "Undefined" "Global" None
      | None => mkTType (Some (family_scalar prefix)) (primarySize t) 1
                        "Undefined" "Global" None
      end
  | None => t
  end.

Definition dimension_variant (function_props : FunctionProps) (n : Z)
  : FunctionProps :=
  with_types function_props
    (map (to_dimension n) (parameters function_props))
    (to_dimension n (returnType function_props)).

Definition family_variant (function_props : FunctionProps) (prefix : string)
  : FunctionProps :=
  with_types function_props
    (map (to_family prefix) (parameters function_props))
    (to_family prefix (returnType function_props)).

(** What [parse_type] guarantees about the dictionary it returns: a generic
    tag is one of the three known ones, only the sampler-or-image tag comes
    without a basic kind, and a secondary size never comes without a primary
    size. *)
Definition dict_shape (d : TypeDict) : Prop :=
  match d_genType d with
  | Some g => In g known_genTypes
              /\ (g <> "sampler_or_image" -> d_basic d <> None)
  | None => True
  end
  /\ (d_primarySize d = None -> d_secondarySize d = None).

(** The record stored for a name at a level and condition, read straight
    from the three nested dictionaries. *)
Definition stored_record (statements : GroupedList.t)
    (level condition name : string) : option UnmangledCase :=
  by_condition ← OrderedDict.get statements level;
  by_name ← OrderedDict.get by_condition condition;
  OrderedDict.get by_name name.

(** The identities handed out so far are 0, 1, ..., n-1 for the n
    materialised variants, the counter stands at n, and the set of defined
    keys is the set of the n distinct keys materialised. *)
Definition ids_dense (g : Globals) : Prop :=
  let n := length (builtin_id_declarations g) in
  assigned_ids g = map Z.of_nat (seq 0 n)
  /\ id_counter g = Z.of_nat n
  /\ NoDup (map fst (builtin_id_declarations g))
  /\ defined_function_variants g
     = list_to_set (map fst (builtin_id_declarations g)).

(** ** Sample types, declarations and inputs *)

Definition float_type : TType :=
  mkTType (Some "Float") 1 1 "Undefined" "Global" None.

Definition out_float_type : TType :=
  mkTType (Some "Float") 1 1 "Undefined" "Out" None.

Definition genType_type : TType :=
  mkTType (Some "Float") 1 1 "Undefined" "Global" (Some "yes").

Definition vec_type : TType :=
  mkTType (Some "Float") 1 1 "Undefined" "Global" (Some "vec").

Definition gsampler2D_type : TType :=
  mkTType (Some "Sampler2D") 1 1 "Undefined" "Global" (Some "sampler_or_image").

Definition gvec4_type : TType :=
  mkTType None 4 1 "Undefined" "Global" (Some "sampler_or_image").

Definition declare (function_name : string) (return_type : TType)
    (parameters : list TType) : FunctionProps :=
  mkFunctionProps function_name return_type parameters
                  (Some "COMMON_BUILTINS") None (Some "auto") false None.

Definition sin_float : FunctionProps := declare "sin" float_type [float_type].

Definition cos_void : FunctionProps := declare "cos" float_type [].

Definition modf_in : FunctionProps :=
  declare "modf" float_type [float_type; float_type].

Definition modf_out : FunctionProps :=
  declare "modf" float_type [float_type; out_float_type].

Definition genType_decl : FunctionProps :=
  declare "sin" genType_type [genType_type].

Definition vec_decl : FunctionProps :=
  declare "any" float_type [vec_type].

Definition sampler_decl : FunctionProps :=
  declare "texture" gvec4_type [gsampler2D_type; float_type].

Definition return_only_generic : FunctionProps :=
  declare "f" genType_type [float_type].

Definition mixed_generics : FunctionProps :=
  declare "f" float_type [genType_type; gsampler2D_type].

Definition sampler_return_dimension_params : FunctionProps :=
  declare "f" gvec4_type [genType_type].

Definition sample_args (function_name : string) : TemplateArgs :=
  mkTemplateArgs function_name function_name "COMMON_BUILTINS" "UNDEFINED"
                 "Sin" "true".

Definition suffixed_args : TemplateArgs :=
  mkTemplateArgs "sin" "sinExt" "COMMON_BUILTINS" "UNDEFINED" "Sin" "true".

Definition extension_args (function_name extension : string) : TemplateArgs :=
  mkTemplateArgs function_name function_name "COMMON_BUILTINS" extension
                 "Sin" "true".

Definition sample_globals : Globals :=
  ensure_condition "NO_CONDITION" initial_globals.

(** The state after materialising [sin(float)] from the sample state. *)
Definition sin_float_materialized : Globals :=
  value_of sample_globals
    (materialize_variant "NO_CONDITION" suffixed_args sample_globals sin_float).

(** The state after materialising [modf(float, float)] from the sample
    state. *)
Definition modf_in_materialized : Globals :=
  value_of sample_globals
    (materialize_variant "NO_CONDITION" (sample_args "modf") sample_globals
       modf_in).

(** An order for the sample runs, whose groups have one subgroup at most:
    the order of insertion. *)
Definition insertion_order : DictOrder :=
  {| dict_items := fun V d => d;
     dict_items_values := fun V W f d => eq_refl;
     dict_items_permutation := fun V d => Permutation_refl d |}.

(** A small registry: one top-level group with a conditioned subgroup. *)
Definition sample_registry : OrderedDict.t Group :=
  [("Math",
    mkGroup "Math"
      [genType_decl; sin_float; cos_void; modf_in; modf_out]
      [("Texture",
        mkGroup "Texture" [sampler_decl] []
                (Some "shaderType == GL_FRAGMENT_SHADER"))]
      None)].

Definition sample_run : Globals :=
  value_of initial_globals
    (process_all (order := insertion_order) sample_registry).

(** A stand-in for [json.loads] on the one metadata text of the sample
    input. *)
Definition sample_json_loads (text : string) : result Metadata :=
  if String.eqb text "{}" then
    Ok (mkMetadata None (Some "COMMON_BUILTINS") None (Some "auto") false None
          None None None None [])
  else Err (JsonError text).

(** An input whose last two groups are never closed. *)
Definition sample_lines : list string :=
  ["// built-ins";
   "GROUP BEGIN Math";
   "  DEFAULT METADATA {}";
   "    float sin(float);";
   "GROUP END Math";
   "";
   "GROUP BEGIN Open";
   "    float cos(float);";
   "  GROUP BEGIN Inner";
   "    genType tan(genType);"].

(** A complete input: every group is closed. *)
Definition sample_source : list string :=
  ["GROUP BEGIN Math";
   "  DEFAULT METADATA {}";
   "    genType sin(genType);";
   "    float sin(float);";
   "    float modf(float, out float);";
   "    float modf(float, float);";
   "  GROUP BEGIN Texture";
   "    DEFAULT METADATA {}";
   "      gvec4 texture(gsampler2D, vec2);";
   "  GROUP END Texture";
   "GROUP END Math"].

Definition sample_generated : Globals :=
  value_of initial_globals
    (generate (order := insertion_order) sample_json_loads sample_source).

Definition sample_parser_state : ParserState :=
  value_of initial_parser_state
    (parse_lines sample_json_loads (significant_lines sample_lines)
       initial_parser_state).

(** ** Definitions for the further properties *)

(** A type with its qualifier replaced. *)
Definition with_qualifier (q : string) (t : TType) : TType :=
  mkTType (basic t) (primarySize t) (secondarySize t) (precision t) q
          (genType t).

(** What [parse_type] guarantees about sizes, precision and qualifier. *)
Definition dict_bounds (d : TypeDict) : Prop :=
  match d_primarySize d with
  | Some p => 2 <= p <= 4
  | None => True
  end
  /\ match d_secondarySize d with
     | Some s => 2 <= s <= 4 /\ d_primarySize d <> None
                 /\ d_basic d = Some "Float" /\ d_genType d = None
     | None => True
     end
  /\ d_precision d = None
  /\ (d_qualifier d = None \/ d_qualifier d = Some "Out"
      \/ d_qualifier d = Some "InOut")
  /\ (d_genType d = Some "yes" \/ d_genType d = Some "vec" ->
      d_primarySize d = None).

(** Sizes within the range the declarations can express. *)
Definition sized (t : TType) : Prop :=
  1 <= primarySize t <= 4 /\ 1 <= secondarySize t <= 4.

(** The fields a mangled token depends on. *)
Definition same_kind (a b : TType) : Prop :=
  basic a = basic b /\ primarySize a = primarySize b
  /\ secondarySize a = secondarySize b.

Definition mat2x3_type : TType :=
  mkTType (Some "Float") 2 3 "Undefined" "Global" None.

(** Whether a character occurs in a string. *)
Fixpoint has_char (c : ascii) (s : string) : bool :=
  match s with
  | EmptyString => false
  | String a rest => Ascii.eqb a c || has_char c rest
  end.

Definition size_digit (c : ascii) : bool :=
  existsb (Ascii.eqb c) ["1"; "2"; "3"; "4"]%char.

(** Whether a string is made of size digits only. *)
Fixpoint size_digits (s : string) : bool :=
  match s with
  | EmptyString => true
  | String a rest => size_digit a && size_digits rest
  end.

(** Whether a string opens with a character that is no size digit. *)
Definition opens_with_letter (s : string) : bool :=
  match s with
  | EmptyString => false
  | String a _ => negb (size_digit a)
  end.

(** What makes a kind code decodable: it opens with a letter, holds neither
    separator, and names one kind only. *)
Definition code_decodable (entry : string * string) : bool :=
  opens_with_letter entry.2
  && negb (has_char ";" entry.2) && negb (has_char "_" entry.2)
  && bool_decide
       (lookup_table (map (fun e => (e.2, e.1)) basic_mangled_names) entry.2
        = Some entry.1).

Definition mat3_type : TType :=
  mkTType (Some "Float") 3 3 "Undefined" "Global" None.

(** The keys of an ordered dictionary, in iteration order. *)
Definition keys {V : Type} (d : OrderedDict.t V) : list string := map fst d.

(** [GroupedList.iter_conditions] (lines 203-204): the conditions of a level
    with their records, in insertion order. *)
Definition iter_conditions (self : GroupedList.t) (level : string)
  : result (OrderedDict.t (OrderedDict.t UnmangledCase)) :=
  GroupedList.at_level self level.

Definition sample_case : UnmangledCase :=
  mkUnmangledCase (unmangled_if (sample_args "sin")) "UNDEFINED".

(** All insert statements, condition by condition. *)
Definition all_insert_functions (g : Globals) : list string :=
  concat (map snd (insert_functions_by_condition g)).

(** The name string of a declaration is declared. *)
Definition name_declared (ta : TemplateArgs) (g : Globals) : Prop :=
  name_declaration (ta_name_with_suffix ta) (ta_name ta) ∈ name_declarations g.

(** A function declaration for the identity [entry] that refers to declared
    things only: its name string, the string of its mangled name and its
    parameter array. *)
Definition function_refers_declared (g : Globals) (entry : string * Z)
    (decl : string) : Prop :=
  exists ta parameters_var_name return_type param_count parameters_list
         mangled_name,
    decl = function_declaration ta entry.1 parameters_var_name return_type
             param_count
    /\ name_declared ta g
    /\ name_declaration entry.1 mangled_name ∈ name_declarations g
    /\ parameter_list_declaration parameters_var_name param_count
         parameters_list ∈ parameter_declarations g.

(** The function declarations go with the identities one by one, and every
    insert statement inserts a function that has an identity. *)
Definition functions_refer_declared (g : Globals) : Prop :=
  Forall2 (function_refers_declared g) (builtin_id_declarations g)
          (function_declarations g)
  /\ Forall (fun line =>
               exists ta key,
                 line = insert_function ta key
                 /\ In key (map fst (builtin_id_declarations g)))
            (all_insert_functions g)
  /\ length (all_insert_functions g) = length (builtin_id_declarations g).

(** Every stored lookup record is filed under its own name and level, and
    the extension object and name string its code refers to are declared. *)
Definition lookups_refer_declared (g : Globals) : Prop :=
  forall level condition name obj,
    stored_record (unmangled_function_if_statements g) level condition name
    = Some obj ->
    exists ta,
      obj = mkUnmangledCase (unmangled_if ta) (ta_extension ta)
      /\ ta_name ta = name /\ ta_level ta = level
      /\ unmangled_builtin_declaration ta ∈ unmangled_builtin_declarations g
      /\ name_declared ta g.

(** ** The emitter (lines 682-742) *)

(** What the emitter can raise: the exception of
    [get_shader_version_condition_for_level], or an exception of the
    generator's classes. *)
Inductive emitted (A : Type) : Type :=
| Emitted (a : A)
| UnsupportedLevel
| Raised (e : error).

Arguments Emitted {A} a.
Arguments UnsupportedLevel {A}.
Arguments Raised {A} e.

(** [get_shader_version_condition_for_level] (lines 685-695). *)
Definition get_shader_version_condition_for_level (level : string)
  : emitted string :=
  if String.eqb level "ESSL3_1_BUILTINS" then Emitted "shaderVersion >= 310"
  else if String.eqb level "ESSL3_BUILTINS" then Emitted "shaderVersion >= 300"
  else if String.eqb level "ESSL1_BUILTINS" then Emitted "shaderVersion == 100"
  else if String.eqb level "COMMON_BUILTINS" then Emitted ""
  else UnsupportedLevel.

(** ['  if ({condition})\n {{'.format(condition = condition)] *)
Definition condition_header (condition : string) : string :=
  "  if (" ++ condition ++ ")" ++ nl ++ " {".

(** ['if ({condition})\n {{'.format(condition = level_condition)] *)
Definition level_header (level_condition : string) : string :=
  "if (" ++ level_condition ++ ")" ++ nl ++ " {".

(** The body of [for condition in insert_functions_by_condition]
    (lines 697-704). *)
Definition emit_insert_block (insert_functions : list string)
    (entry : string * list string) : list string :=
  let condition := entry.1 in
  let insert_functions :=
    if negb (String.eqb condition "NO_CONDITION")
    then (insert_functions ++ [condition_header condition])%list
    else insert_functions in
  let insert_functions := (insert_functions ++ entry.2)%list in
  if negb (String.eqb condition "NO_CONDITION")
  then (insert_functions ++ ["}"])%list
  else insert_functions.

Definition emit_insert_functions (by_condition : OrderedDict.t (list string))
  : list string :=
  fold_left emit_insert_block by_condition [].

(** [s.replace('shaderType', 'mShaderType')] *)
Fixpoint replace_shaderType (s : string) : string :=
  match s with
  | String "s" (String "h" (String "a" (String "d" (String "e" (String "r"
      (String "T" (String "y" (String "p" (String "e" rest))))))))) =>
      "mShaderType" ++ replace_shaderType rest
  | String c rest => String c (replace_shaderType rest)
  | EmptyString => EmptyString
  end.

(** The body of [for function_name, get_unmangled_case in
    functions.iteritems()] (lines 718-722); the switch is a plain dictionary
    from hashes to lists of code. *)
Definition add_switch_case
    (st : OrderedDict.t unit * gmap Z (list string))
    (entry : string * UnmangledCase)
  : OrderedDict.t unit * gmap Z (list string) :=
  let function_name := entry.1 in
  let get_unmangled_case := entry.2 in
  let '(name_hash, script_generated_hash_tests) := hash32 st.1 function_name in
  let get_unmangled_builtin_switch := st.2 in
  let get_unmangled_builtin_switch :=
    if bool_decide (get_unmangled_builtin_switch !! name_hash = None)
    then <[name_hash := []]> get_unmangled_builtin_switch
    else get_unmangled_builtin_switch in
  let cases := default [] (get_unmangled_builtin_switch !! name_hash) in
  (script_generated_hash_tests,
   <[name_hash := (cases ++ [case_code get_unmangled_case])%list]>
     get_unmangled_builtin_switch).

Definition build_switch (script_generated_hash_tests : OrderedDict.t unit)
    (functions : OrderedDict.t UnmangledCase)
  : OrderedDict.t unit * gmap Z (list string) :=
  fold_left add_switch_case functions (script_generated_hash_tests, ∅).

(** The order of [sorted] on the items of the switch: by hash (the hashes
    are the keys of a dictionary, so no two items tie). *)
Definition by_hash (a b : Z * list string) : Prop := a.1 <= b.1.

#[local] Instance by_hash_dec (a b : Z * list string) : Decision (by_hash a b).
Proof. unfold by_hash. apply _. Defined.

(** [sorted(get_unmangled_builtin_switch.iteritems())] *)
Definition sorted_items (switch : gmap Z (list string))
  : list (Z * list string) :=
  merge_sort by_hash (map_to_list switch).

(** The lines of one case (lines 725-727). *)
Definition case_label (name_hash : Z) : string :=
  "case 0x" ++ hex name_hash ++ "u:" ++ nl ++ "{".

Definition case_break : string := "break;" ++ nl ++ "}".

Definition switch_case (item : Z * list string) : list string :=
  ([case_label item.1] ++ item.2 ++ [case_break])%list.

Definition emit_switch (switch : gmap Z (list string)) : list string :=
  (["switch(nameHash) {"] ++ concat (map switch_case (sorted_items switch))
     ++ ["}"])%list.

(** The body of [for condition, functions in
    unmangled_function_if_statements.iter_conditions(level)]
    (lines 712-731). *)
Definition emit_condition (st : OrderedDict.t unit * list string)
    (entry : string * OrderedDict.t UnmangledCase)
  : OrderedDict.t unit * list string :=
  let condition := entry.1 in
  let functions := entry.2 in
  let get_unmangled_builtin := st.2 in
  if Nat.ltb 0 (length functions) then
    let get_unmangled_builtin :=
      if negb (String.eqb condition "NO_CONDITION")
      then (get_unmangled_builtin
              ++ [replace_shaderType (condition_header condition)])%list
      else get_unmangled_builtin in
    let '(script_generated_hash_tests, get_unmangled_builtin_switch) :=
      build_switch st.1 functions in
    let get_unmangled_builtin :=
      (get_unmangled_builtin ++ emit_switch get_unmangled_builtin_switch)%list in
    let get_unmangled_builtin :=
      if negb (String.eqb condition "NO_CONDITION")
      then (get_unmangled_builtin ++ ["}"])%list
      else get_unmangled_builtin in
    (script_generated_hash_tests, get_unmangled_builtin)
  else st.

(** The body of [for level in levels] (lines 706-734). *)
Definition emit_level (statements : GroupedList.t)
    (st : OrderedDict.t unit * list string) (level : string)
  : emitted (OrderedDict.t unit * list string) :=
  match get_shader_version_condition_for_level level with
  | Emitted level_condition =>
      let get_unmangled_builtin :=
        if negb (String.eqb level_condition "")
        then (st.2 ++ [level_header level_condition])%list
        else st.2 in
      match iter_conditions statements level with
      | Ok conditions =>
          let '(script_generated_hash_tests, get_unmangled_builtin) :=
            fold_left emit_condition conditions (st.1, get_unmangled_builtin) in
          let get_unmangled_builtin :=
            if negb (String.eqb level_condition "")
            then (get_unmangled_builtin ++ ["}"])%list
            else get_unmangled_builtin in
          Emitted (script_generated_hash_tests, get_unmangled_builtin)
      | Err e => Raised e
      end
  | UnsupportedLevel => UnsupportedLevel
  | Raised e => Raised e
  end.

Fixpoint emit_levels (statements : GroupedList.t) (ls : list string)
    (st : OrderedDict.t unit * list string)
  : emitted (OrderedDict.t unit * list string) :=
  match ls with
  | [] => Emitted st
  | level :: rest =>
      match emit_level statements st level with
      | Emitted st' => emit_levels statements rest st'
      | UnsupportedLevel => UnsupportedLevel
      | Raised e => Raised e
      end
  end.

(** Lines 706-736: the hash tests recorded and the lines of
    [get_unmangled_builtin]. *)
Definition emit_get_unmangled_builtin (statements : GroupedList.t)
  : emitted (OrderedDict.t unit * list string) :=
  match emit_levels statements levels ([], []) with
  | Emitted st => Emitted (st.1, (st.2 ++ ["return nullptr;"])%list)
  | UnsupportedLevel => UnsupportedLevel
  | Raised e => Raised e
  end.

(** The entries of [output_strings] set from these lists (lines 738-742). *)
Definition output_insert_functions (g : Globals) : string :=
  join nl (emit_insert_functions (insert_functions_by_condition g)).

Definition output_get_unmangled_builtin (lines : list string) : string :=
  join nl lines.

Definition output_script_generated_hash_tests (tests : OrderedDict.t unit)
  : string :=
  join nl (keys tests).

(** The codes of the functions whose name hashes to [h], in the order of
    the dictionary. *)
Definition codes_with_hash (h : Z) (functions : list (string * UnmangledCase))
  : list string :=
  map (fun entry => case_code entry.2)
      (filter (fun entry : string * UnmangledCase => hash32_value entry.1 = h)
              functions).

Definition sample_functions : OrderedDict.t UnmangledCase :=
  [("sin", sample_case);
   ("cos", mkUnmangledCase (unmangled_if (sample_args "cos")) "UNDEFINED")].

(** The hash tests only grow, and stay free of repetitions. *)
Definition tests_extend (tests tests' : OrderedDict.t unit) : Prop :=
  (NoDup (keys tests) -> NoDup (keys tests'))
  /\ (forall line, In line (keys tests) -> In line (keys tests')).

(** The assertion recorded for a name. *)
Definition hash_test (function_name : string) : string :=
  sanity_check (hash32_value function_name) function_name.

(** The hash tests and lines emitted for the sample run. *)
Definition sample_emitted : OrderedDict.t unit * list string :=
  match
    emit_get_unmangled_builtin (unmangled_function_if_statements sample_run)
  with
  | Emitted st => st
  | _ => ([], [])
  end.

(** Whether a line of [insert_functions] is an insert statement. *)
Definition is_insert (line : string) : bool :=
  String.prefix "    insertBuiltIn(" line.

(** The statement that inserts the function of a unique name. *)
Definition insert_statement (entry : TemplateArgs * string) : string :=
  insert_function entry.1 entry.2.

(** The insert statements are those of the identities, one each. *)
Definition inserts_match_ids (g : Globals) : Prop :=
  exists inserted : list (TemplateArgs * string),
    all_insert_functions g = map insert_statement inserted
    /\ map snd inserted ≡ₚ map fst (builtin_id_declarations g).

(** All function declarations of a group, its own first, then those of its
    subgroups. *)
Fixpoint all_functions (group : Group) : list FunctionProps :=
  match group with
  | mkGroup _ fs subs _ =>
      (fs ++ concat (map (fun entry => all_functions entry.2) subs))%list
  end.

(** What the parser guarantees about a declaration: a name made of word
    characters, and types within the sizes and generic tags the generator
    knows. *)
Definition well_formed_function (function_props : FunctionProps) : Prop :=
  name function_props <> ""
  /\ has_char "(" (name function_props) = false
  /\ Forall sized (returnType function_props :: parameters function_props)
  /\ Forall tag_known
            (returnType function_props :: parameters function_props).

Definition well_formed_group (group : Group) : Prop :=
  Forall well_formed_function (all_functions group).

(** The kinds of lines that move the group stack. *)
Definition is_begin (line : string) : bool := startswith line "GROUP BEGIN ".

Definition is_end (line : string) : bool :=
  negb (is_begin line) && startswith line "GROUP END ".

Definition is_default_metadata (line : string) : bool :=
  negb (is_begin line) && negb (is_end line)
  && startswith line "DEFAULT METADATA".

Definition count_lines (kind : string -> bool) (lines : list string) : nat :=
  length (List.filter kind lines).

Definition sample_parsed : OrderedDict.t Group :=
  value_of [] (get_parsed_functions sample_json_loads sample_source).

Definition sample_parsed_group : string * Group :=
  hd ("", mkGroup "" [] [] None) sample_parsed.

Definition sample_parsed_function : FunctionProps :=
  hd sin_float (all_functions sample_parsed_group.2).

(** A type as the parser and the expander build it: sizes from 1 to 4, no
    precision, and one of the three qualifiers. *)
Definition plain (t : TType) : Prop :=
  sized t /\ precision t = "Undefined"
  /\ In (qualifier t) ["Global"; "Out"; "InOut"].

(** No kind code can be taken for a qualifier marker. *)
Definition code_is_no_marker (entry : string * string) : bool :=
  negb (String.eqb entry.2 "o") && negb (String.eqb entry.2 "io").

(** The text of one parameter in a parameter array (lines 632-634). *)
Definition parameter_text (param : TType) : result string :=
  param_type ← get_statictype_string param;
  Ok ("TConstParameter(" ++ param_type ++ ")").

(** A declaration the run has gone through: its level is one of the four,
    its operator is given, it expands, and the unique name of each of its
    variants is defined. *)
Definition covered (defined : gset string) (function_props : FunctionProps)
  : Prop :=
  (exists l, level function_props = Some l /\ In l levels)
  /\ op function_props <> None
  /\ exists variants,
       gen_function_variants (name function_props) function_props
       = Ok variants
       /\ Forall (fun v =>
                    exists key,
                      get_unique_identifier_name
                        (name function_props ++ get_suffix function_props)
                        (parameters v) = Ok key
                      /\ key ∈ defined)
                 variants.

(** Whether a parameter text opens with an [out] or [inout] qualifier. *)
Definition has_out_prefix (token : string) : bool :=
  startswith token "out " || startswith token "inout ".

(** What the parser loop keeps when no metadata object has a structural
    key. *)
Definition parser_well_formed (st : ParserState) : Prop :=
  Forall (fun entry => well_formed_group entry.2) (parsed_functions st)
  /\ Forall well_formed_group (group_stack st)
  /\ plain_metadata (default_metadata st).

(** ** The variants in encounter order *)

(** The unique names of the variants of a declaration, in the order of the
    loop of lines 611-616. *)
Definition function_keys (function_props : FunctionProps)
  : result (list string) :=
  function_variants ←
    gen_function_variants (name function_props) function_props;
  mapM (fun variant =>
          get_unique_identifier_name
            (name function_props ++ get_suffix function_props)
            (get_parameters variant))
       function_variants.

(** The unique names met while a group is processed: those of its own
    declarations, then those of its subgroups in the order of
    [iteritems]. *)
Fixpoint group_keys {order : DictOrder} (group : Group) {struct group}
  : result (list string) :=
  match group with
  | mkGroup _ fs subs _ =>
      own ← mapM function_keys fs;
      below ← mapM (fun entry : string * result (list string) => entry.2)
                   (dict_items
                      (map (fun entry => (entry.1, group_keys entry.2)) subs));
      Ok (concat own ++ concat below)%list
  end.

(** The unique names of all variants of a run, in the order the variant
    loop meets them. *)
Definition encountered_keys {order : DictOrder}
    (parsed_functions : OrderedDict.t Group) : result (list string) :=
  keys ← mapM (fun entry : string * Group => group_keys entry.2)
              parsed_functions;
  Ok (concat keys).

(** The names of a list that are not in [seen] and occur for the first
    time, in the order of the list. *)
Fixpoint first_occurrences (seen : gset string) (keys : list string)
  : list string :=
  match keys with
  | [] => []
  | key :: keys =>
      if bool_decide (key ∈ seen) then first_occurrences seen keys
      else key :: first_occurrences (seen ∪ {[ key ]}) keys
  end.

(** Consecutive identities from [start] on, one for each name in turn. *)
Fixpoint number_from (start : Z) (keys : list string) : list (string * Z) :=
  match keys with
  | [] => []
  | key :: keys => (key, start) :: number_from (start + 1) keys
  end.

(** From [g] to [g'] the variants named [keys] were met in this order: each
    name not yet defined got the next identity, the others none. *)
Definition assigned_in_order (g g' : Globals) (keys : list string) : Prop :=
  let fresh := first_occurrences (defined_function_variants g) keys in
  builtin_id_declarations g'
  = (builtin_id_declarations g ++ number_from (id_counter g) fresh)%list
  /\ id_counter g' = id_counter g + Z.of_nat (length fresh)
  /\ defined_function_variants g'
     = defined_function_variants g ∪ list_to_set keys.

(** The text left once its leading [out ] and [inout ] prefixes are
    removed. *)
Fixpoint unqualified (glsl_header_type : string) : string :=
  match glsl_header_type with
  | String "o" (String "u" (String "t" (String " " rest))) => unqualified rest
  | String "i" (String "n" (String "o" (String "u" (String "t"
      (String " " rest))))) => unqualified rest
  | _ => glsl_header_type
  end.

(** * Properties *)

(** ** Generic facts about the error monad and ordered dictionaries *)

Lemma ok_value_of {A : Type} (d : A) (r : result A) :
  is_ok r = true -> r = Ok (value_of d r).
Proof. destruct r; simpl; [reflexivity | discriminate]. Qed.

Lemma bind_Ok {A B : Type} (r : result A) (k : A -> result B) (b : B) :
  r ≫= k = Ok b -> exists a, r = Ok a /\ k a = Ok b.
Proof. destruct r as [a|e]; simpl; [eauto | discriminate]. Qed.

Lemma foldM_app {S A : Type} (body : S -> A -> result S) (xs ys : list A) (st : S) :
  foldM body (xs ++ ys)%list st = foldM body xs st ≫= foldM body ys.
Proof.
  revert st. induction xs as [|x xs IH]; intros st; simpl; [reflexivity|].
  destruct (body st x) as [st'|e]; simpl; [apply IH | reflexivity].
Qed.

Lemma foldM_cons {S A : Type} (body : S -> A -> result S) (x : A) (xs : list A) (st : S) :
  foldM body (x :: xs) st = body st x ≫= foldM body xs.
Proof. reflexivity. Qed.

Lemma mapM_cons {A B : Type} (f : A -> result B) (x : A) (xs : list A) :
  mapM f (x :: xs) = (y ← f x; ys ← mapM f xs; Ok (y :: ys)).
Proof. reflexivity. Qed.

Lemma mapM_pure {A B : Type} (f : A -> result B) (g : A -> B) (xs : list A) :
  Forall (fun x => f x = Ok (g x)) xs -> mapM f xs = Ok (map g xs).
Proof.
  induction 1 as [|x xs Hx _ IH]; [reflexivity|].
  rewrite mapM_cons, Hx, IH. reflexivity.
Qed.

Lemma mapM_Ok {A B : Type} (f : A -> result B) (xs : list A) (ys : list B) :
  mapM f xs = Ok ys -> Forall2 (fun x y => f x = Ok y) xs ys.
Proof.
  revert ys. induction xs as [|x xs IH]; intros ys H.
  - injection H as <-. constructor.
  - rewrite mapM_cons in H. apply bind_Ok in H as (y & Hy & H).
    apply bind_Ok in H as (ys' & Hys & H). injection H as <-.
    constructor; auto.
Qed.

Lemma Forall2_Forall_r {A B : Type} (R : A -> B -> Prop) (Q : B -> Prop) (xs : list A) (ys : list B) :
  (forall x y, R x y -> Q y) -> Forall2 R xs ys -> Forall Q ys.
Proof. intros HRQ. induction 1; constructor; eauto. Qed.

(** An invariant kept by every iteration is kept by the loop. *)
Lemma foldM_invariant {S A : Type} (P : S -> Prop) (body : S -> A -> result S) :
  (forall st x st', P st -> body st x = Ok st' -> P st') ->
  forall xs st st', P st -> foldM body xs st = Ok st' -> P st'.
Proof.
  intros Hbody xs. induction xs as [|x xs IH]; intros st st' HP Hrun; simpl in Hrun.
  - congruence.
  - apply bind_Ok in Hrun as (st1 & Hstep & Hrest). eauto.
Qed.

Module OrderedDictFacts.
Import OrderedDict.
Section Facts.
Context {V : Type}.
Implicit Types (d : OrderedDict.t V) (k : string) (v : V).

Lemma get_set_eq d k v : get (set d k v) k = Some v.
Proof.
  induction d as [|[k' v'] d IH]; simpl.
  - now rewrite String.eqb_refl.
  - destruct (String.eqb k' k) eqn:E; simpl; rewrite E; auto.
Qed.

Lemma get_set_ne d k k' v : k <> k' -> get (set d k v) k' = get d k'.
Proof.
  intros Hne. induction d as [|[k0 v0] d IH]; simpl.
  - destruct (String.eqb k k') eqn:E; [|reflexivity].
    apply String.eqb_eq in E. contradiction.
  - destruct (String.eqb k0 k) eqn:E; simpl.
    + apply String.eqb_eq in E. subst k0.
      destruct (String.eqb k k') eqn:E'; [|reflexivity].
      apply String.eqb_eq in E'. contradiction.
    + now rewrite IH.
Qed.

Lemma mem_true d k : mem d k = true -> exists v, get d k = Some v.
Proof. unfold mem. destruct (get d k); [eauto | discriminate]. Qed.

Lemma mem_false d k : mem d k = false -> get d k = None.
Proof. unfold mem. destruct (get d k); [discriminate | reflexivity]. Qed.

(** [if k not in d: d[k] = e], read back at [k] and elsewhere. *)
Lemma get_setdefault_eq d k e :
  get (if negb (mem d k) then set d k e else d) k
  = Some (default e (get d k)).
Proof.
  destruct (mem d k) eqn:Hmem; cbn [negb].
  - apply mem_true in Hmem as [v Hv]. now rewrite Hv.
  - apply mem_false in Hmem. now rewrite get_set_eq, Hmem.
Qed.

Lemma get_setdefault_ne d k k' e :
  k <> k' -> get (if negb (mem d k) then set d k e else d) k' = get d k'.
Proof.
  intros Hne. destruct (mem d k); cbn [negb]; [reflexivity|].
  now apply get_set_ne.
Qed.
End Facts.
End OrderedDictFacts.

(** ** hash32 is FNV-1a *)

Lemma ord_char_code (c : ascii) : ord c = Z.of_nat (nat_of_ascii c).
Proof. unfold ord, nat_of_ascii. now rewrite N_nat_Z. Qed.

Lemma hash32_step_fnv (h : Z) (c : ascii) :
  hash32_step h c
  = (Z.lxor h (Z.of_nat (nat_of_ascii c)) * 16777619) mod 2 ^ 32.
Proof.
  unfold hash32_step, fnvPrime. rewrite ord_char_code.
  change 0xffffffff with (Z.ones 32). now rewrite Z.land_ones by lia.
Qed.

Lemma hash32_fold_fnv (cs : list ascii) (h : Z) :
  fold_left hash32_step cs h
  = fnv1a_from h (map (fun c => Z.of_nat (nat_of_ascii c)) cs).
Proof.
  revert h. induction cs as [|c cs IH]; intros h; simpl; [reflexivity|].
  now rewrite IH, hash32_step_fnv.
Qed.

Lemma fnv1a_from_range (bytes : list Z) (h : Z) :
  0 <= h < 2 ^ 32 -> 0 <= fnv1a_from h bytes < 2 ^ 32.
Proof.
  revert h. induction bytes as [|b bytes IH]; intros h Hh; simpl; [exact Hh|].
  apply IH. apply Z.mod_pos_bound. lia.
Qed.

(** C5: the hash returned by [hash32] is FNV-1a (offset basis 0x811c9dc5,
    prime 16777619) over the character codes of the string, XORing in each
    byte and multiplying modulo 2^32 at each step; it is a 32-bit value, and
    the assertion recorded for the string carries that same value. *)
Theorem hash32_is_fnv1a (tests : OrderedDict.t unit) (s : string) :
  fst (hash32 tests s) = fnv1a s
  /\ 0 <= fst (hash32 tests s) < 2 ^ 32
  /\ OrderedDict.mem (snd (hash32 tests s)) (sanity_check (fnv1a s) s) = true.
Proof.
  assert (H : hash32_value s = fnv1a s).
  { unfold hash32_value, fnv1a, char_codes, fnvOffsetBasis.
    apply hash32_fold_fnv. }
  unfold hash32. cbn [fst snd]. rewrite H. split; [reflexivity|]. split.
  - unfold fnv1a. apply fnv1a_from_range. lia.
  - unfold OrderedDict.mem. now rewrite OrderedDictFacts.get_set_eq.
Qed.

Example hash32_sin :
  fst (hash32 [] "sin") = 0xe0302a4d /\ fnv1a "sin" = 0xe0302a4d.
Proof. split; vm_compute; reflexivity. Qed.

(** Closed goals are settled by evaluation; decidable ones through their
    decision procedure. *)
Ltac by_compute := vm_compute; reflexivity.
Ltac by_decide := apply (proj1 (bool_decide_eq_true _)); by_compute.
Ltac by_refute := apply (proj1 (bool_decide_eq_false _)); by_compute.

(** ** Name mangling *)

Lemma append_assoc (a b c : string) : (a ++ b) ++ c = a ++ (b ++ c).
Proof.
  induction a as [|ch a IH]; [reflexivity|].
  change (String ch ((a ++ b) ++ c) = String ch (a ++ (b ++ c))).
  now rewrite IH.
Qed.

Lemma append_empty_r (a : string) : a ++ "" = a.
Proof.
  induction a as [|ch a IH]; [reflexivity|].
  change (String ch (a ++ "") = String ch a). now rewrite IH.
Qed.

Example sample_types_parse :
  TType_of_string "float" = Ok float_type
  /\ TType_of_string "out float" = Ok out_float_type
  /\ TType_of_string "genType" = Ok genType_type
  /\ TType_of_string "vec" = Ok vec_type
  /\ TType_of_string "gsampler2D" = Ok gsampler2D_type
  /\ TType_of_string "gvec4" = Ok gvec4_type.
Proof. repeat split; vm_compute; reflexivity. Qed.

Lemma get_mangled_name_token (t : TType) (separator : string) :
  get_mangled_name t separator
  = (token ← mangled_token t; Ok (token ++ separator)).
Proof.
  unfold mangled_token, get_mangled_name.
  destruct (get_basic t) as [b|e]; simpl; [|reflexivity].
  destruct (key_lookup basic_mangled_names b) as [code|e]; simpl; [|reflexivity].
  now rewrite append_empty_r.
Qed.

Lemma append_mangled_token (separator acc : string) (p : TType) :
  append_mangled separator acc p
  = (token ← mangled_token p; Ok (acc ++ token ++ separator)).
Proof.
  unfold append_mangled. rewrite get_mangled_name_token.
  now destruct (mangled_token p).
Qed.

(** The accumulation loop shared by the three name builders. *)
Lemma append_mangled_loop (separator : string) (params : list TType) (acc : string) :
  foldM (append_mangled separator) params acc
  = (tokens ← mapM mangled_token params;
     Ok (acc ++ terminated separator tokens)).
Proof.
  revert acc. induction params as [|p params IH]; intros acc.
  - simpl. now rewrite append_empty_r.
  - rewrite foldM_cons, mapM_cons, append_mangled_token.
    destruct (mangled_token p) as [token|e]; [|reflexivity].
    cbn [mbind result_bind]. rewrite IH.
    destruct (mapM mangled_token params) as [tokens|e]; [|reflexivity].
    cbn [mbind result_bind terminated]. now rewrite !append_assoc.
Qed.

Lemma get_function_mangled_name_closed (function_name : string) (params : list TType) :
  get_function_mangled_name function_name params
  = (tokens ← mapM mangled_token params;
     Ok (function_name ++ "(" ++ terminated ";" tokens)).
Proof.
  unfold get_function_mangled_name. rewrite append_mangled_loop.
  destruct (mapM mangled_token params); simpl; [|reflexivity].
  now rewrite append_assoc.
Qed.

Lemma get_unique_identifier_name_closed (name_with_suffix : string) (params : list TType) :
  get_unique_identifier_name name_with_suffix params
  = (tokens ← mapM mangled_token params;
     Ok (name_with_suffix ++ "_" ++ terminated "_" tokens)).
Proof.
  unfold get_unique_identifier_name. rewrite append_mangled_loop.
  destruct (mapM mangled_token params); simpl; [|reflexivity].
  now rewrite append_assoc.
Qed.

Lemma marked_loop (params : list TType) (acc : string) :
  foldM (fun unique_name param =>
           let unique_name := unique_name ++ qualifier_marker param in
           append_mangled "_" unique_name param) params acc
  = (tokens ← mapM mangled_token params;
     Ok (acc ++ terminated "_" (marked_tokens params tokens))).
Proof.
  revert acc. induction params as [|p params IH]; intros acc.
  - simpl. now rewrite append_empty_r.
  - rewrite foldM_cons, mapM_cons. cbv zeta. rewrite append_mangled_token.
    destruct (mangled_token p) as [token|e]; [|reflexivity].
    cbn [mbind result_bind]. rewrite IH.
    destruct (mapM mangled_token params) as [tokens|e]; [|reflexivity].
    cbn [mbind result_bind terminated marked_tokens zip_with].
    now rewrite !append_assoc.
Qed.

Lemma get_variable_name_to_store_parameters_closed (params : list TType) :
  get_variable_name_to_store_parameters params
  = match params with
    | [] => Ok "empty"
    | _ => tokens ← mapM mangled_token params;
           Ok ("p_" ++ terminated "_" (marked_tokens params tokens))
    end.
Proof.
  unfold get_variable_name_to_store_parameters.
  destruct params as [|p params]; [reflexivity|].
  cbn [length Nat.eqb]. cbv zeta. apply marked_loop.
Qed.

(** What one pass through the body of the variant loop does: either the key
    is already defined and nothing changes, or the variant is materialised
    under the current counter value. *)
Lemma materialize_variant_inv cond ta g v g' :
  materialize_variant cond ta g v = Ok g' ->
  exists key,
    get_unique_identifier_name (ta_name_with_suffix ta) (parameters v) = Ok key
    /\ (((key ∈ defined_function_variants g) /\ g' = g)
        \/ ((key ∉ defined_function_variants g)
            /\ defined_function_variants g'
               = defined_function_variants g ∪ {[ key ]}
            /\ builtin_id_declarations g'
               = (builtin_id_declarations g ++ [(key, id_counter g)])%list
            /\ id_counter g' = id_counter g + 1
            /\ unmangled_function_if_statements g'
               = unmangled_function_if_statements g
            /\ exists mangled_name,
                 get_function_mangled_name (ta_name ta) (parameters v)
                 = Ok mangled_name
                 /\ name_declarations g'
                    = name_declarations g
                        ∪ {[ name_declaration key mangled_name ]})).
Proof.
  unfold materialize_variant, get_parameters. cbv zeta. intros H.
  apply bind_Ok in H as (key & Hkey & H). exists key. split; [exact Hkey|].
  destruct (bool_decide (key ∈ defined_function_variants g)) eqn:Hdef.
  - left. apply bool_decide_eq_true in Hdef. split; [exact Hdef | congruence].
  - right. apply bool_decide_eq_false in Hdef.
    apply bind_Ok in H as (return_type & _ & H).
    apply bind_Ok in H as (mangled_name & Hmangled & H).
    apply bind_Ok in H as (parameters_list & _ & H).
    apply bind_Ok in H as (parameters_var_name & _ & H).
    destruct (OrderedDict.get (insert_functions_by_condition g) cond);
      [|discriminate].
    injection H as <-. simpl. eauto 10.
Qed.

Lemma materialize_variant_known cond ta g v key :
  get_unique_identifier_name (ta_name_with_suffix ta) (parameters v) = Ok key ->
  key ∈ defined_function_variants g ->
  materialize_variant cond ta g v = Ok g.
Proof.
  intros Hkey Hdef. unfold materialize_variant, get_parameters. cbv zeta.
  rewrite Hkey. cbn [mbind result_bind].
  now rewrite bool_decide_eq_true_2.
Qed.




(** C8 (counterexample): the key under which a variant without parameters
    is deduplicated is the name followed by [_], not [empty], and the key of
    a variant with an [out] parameter carries no [o_] marker. *)
Lemma unique_key_counterexample :
  get_unique_identifier_name "cos" (parameters cos_void) = Ok "cos_"
  /\ spec_unique_key "cos" (parameters cos_void) = Ok "empty"
  /\ get_unique_identifier_name "modf" (parameters modf_out) = Ok "modf_f_f_"
  /\ spec_unique_key "modf" (parameters modf_out) = Ok "modff_o_f"
  /\ (g' ← materialize_variant "NO_CONDITION" (sample_args "cos")
             sample_globals cos_void;
      Ok (bool_decide (defined_function_variants g' = {[ "cos_" ]})))
     = Ok true.
Proof. repeat split; by_compute. Qed.

(** C8 (amended): the key used for deduplication is the name plus suffix,
    then [_], then each parameter's mangled token followed by [_], with no
    qualifier marker; without parameters it is the name plus suffix and [_].
    The markers [o_] and [io_] and the literal [empty] belong to the separate
    name of the parameter list: [empty] without parameters, otherwise [p_]
    followed by each parameter's marker and token, each followed by [_]. *)
Theorem unique_key_shape cond ta g v tokens :
  mapM mangled_token (parameters v) = Ok tokens ->
  let key := ta_name_with_suffix ta ++ "_" ++ terminated "_" tokens in
  get_unique_identifier_name (ta_name_with_suffix ta) (parameters v) = Ok key
  /\ ((key ∈ defined_function_variants g) ->
      materialize_variant cond ta g v = Ok g)
  /\ (forall g',
        (key ∉ defined_function_variants g) ->
        materialize_variant cond ta g v = Ok g' ->
        defined_function_variants g' = defined_function_variants g ∪ {[ key ]})
  /\ get_variable_name_to_store_parameters (parameters v)
     = Ok match parameters v with
          | [] => "empty"
          | _ => "p_" ++ terminated "_" (marked_tokens (parameters v) tokens)
          end.
Proof.
  intros Htokens key.
  assert (Hkey : get_unique_identifier_name (ta_name_with_suffix ta)
                   (parameters v) = Ok key).
  { rewrite get_unique_identifier_name_closed, Htokens. reflexivity. }
  split; [exact Hkey|]. split; [|split].
  - intros Hdef. eapply materialize_variant_known; eauto.
  - intros g' Hnew Hrun.
    apply materialize_variant_inv in Hrun as (key' & Hkey' & Hcase).
    assert (key' = key) as -> by congruence.
    destruct Hcase as [[Hdef _]|(_ & Hdefined & _)]; [contradiction | exact Hdefined].
  - rewrite get_variable_name_to_store_parameters_closed.
    destruct (parameters v); [reflexivity|].
    rewrite Htokens. reflexivity.
Qed.

Lemma unique_key_shape_witness :
  let key := "modf" ++ "_" ++ terminated "_" ["f"; "f"] in
  get_unique_identifier_name "modf" (parameters modf_out) = Ok key
  /\ ((key ∈ defined_function_variants sample_globals) ->
      materialize_variant "NO_CONDITION" (sample_args "modf") sample_globals
        modf_out = Ok sample_globals)
  /\ (forall g',
        (key ∉ defined_function_variants sample_globals) ->
        materialize_variant "NO_CONDITION" (sample_args "modf") sample_globals
          modf_out = Ok g' ->
        defined_function_variants g'
        = defined_function_variants sample_globals ∪ {[ key ]})
  /\ get_variable_name_to_store_parameters (parameters modf_out)
     = Ok ("p_" ++ terminated "_"
                     (marked_tokens (parameters modf_out) ["f"; "f"])).
Proof.
  apply (unique_key_shape "NO_CONDITION" (sample_args "modf") sample_globals
           modf_out ["f"; "f"]).
  by_compute.
Defined.

(** ** Deduplication ignores qualifiers *)

Lemma mangled_token_same_but_qualifier (a b : TType) :
  same_but_qualifier a b -> mangled_token a = mangled_token b.
Proof.
  intros (Hb & Hp & Hs & _ & _).
  unfold mangled_token, get_mangled_name, size_prefix, is_matrix, get_basic.
  now rewrite Hb, Hp, Hs.
Qed.

Lemma tokens_same_but_qualifier (ps1 ps2 : list TType) :
  Forall2 same_but_qualifier ps1 ps2 ->
  mapM mangled_token ps1 = mapM mangled_token ps2.
Proof.
  induction 1 as [|a b ps1 ps2 Hab _ IH]; [reflexivity|].
  rewrite !mapM_cons, IH. now rewrite (mangled_token_same_but_qualifier a b).
Qed.

Lemma statictype_strings_succeed (params : list TType) (tokens : list string) :
  mapM mangled_token params = Ok tokens ->
  exists parameters_list,
    mapM (fun param =>
            param_type ← get_statictype_string param;
            Ok ("TConstParameter(" ++ param_type ++ ")"))
         params = Ok parameters_list.
Proof.
  revert tokens. induction params as [|p params IH]; intros tokens H.
  - exists []. reflexivity.
  - rewrite mapM_cons in H. apply bind_Ok in H as (token & Htoken & H).
    apply bind_Ok in H as (tokens' & Htokens & _).
    destruct (IH _ Htokens) as (parameters_list & Hlist).
    unfold mangled_token in Htoken.
    apply bind_Ok in Htoken as (b & Hb & _).
    rewrite mapM_cons, Hlist. unfold get_statictype_string. rewrite Hb.
    cbn [mbind result_bind]. eauto.
Qed.

(** A variant whose key is new, whose return type has its basic type and
    whose condition has its list of inserts is materialised. *)
Lemma materialize_variant_succeeds cond ta g v key inserts :
  get_unique_identifier_name (ta_name_with_suffix ta) (parameters v) = Ok key ->
  key ∉ defined_function_variants g ->
  basic (returnType v) <> None ->
  OrderedDict.get (insert_functions_by_condition g) cond = Some inserts ->
  exists g', materialize_variant cond ta g v = Ok g'.
Proof.
  intros Hkey Hnew Hreturn Hcond.
  unfold materialize_variant, get_parameters. cbv zeta.
  rewrite Hkey. cbn [mbind result_bind].
  rewrite bool_decide_eq_false_2 by exact Hnew.
  rewrite get_unique_identifier_name_closed in Hkey.
  destruct (mapM mangled_token (parameters v)) as [tokens|e] eqn:Htokens;
    [|discriminate].
  assert (Hstatic : exists return_type,
             get_statictype_string (returnType v) = Ok return_type).
  { unfold get_statictype_string, get_basic.
    destruct (basic (returnType v)) as [b|]; [|now contradiction Hreturn].
    cbn [mbind result_bind]. eauto. }
  destruct Hstatic as (return_type & ->). cbn [mbind result_bind].
  rewrite get_function_mangled_name_closed, Htokens. cbn [mbind result_bind].
  destruct (statictype_strings_succeed _ _ Htokens) as (parameters_list & ->).
  cbn [mbind result_bind].
  rewrite get_variable_name_to_store_parameters_closed.
  destruct (parameters v) as [|p params] eqn:Hparams.
  - cbn [mbind result_bind]. rewrite Hcond. eauto.
  - rewrite Htokens. cbn [mbind result_bind]. rewrite Hcond. eauto.
Qed.

(** C9: two variants with the same name plus suffix whose parameter lists
    differ only in qualifiers have the same unique-variant key.  The one
    met first, while the key is not yet defined, is materialised: the key
    gets the current counter value as its identity and the counter moves
    on by one.  The other one, met in any later state, is dropped: the
    state is left as it is, so no identity is assigned and the counter does
    not move. *)
Theorem dedup_ignores_qualifiers cond1 ta1 ta2 g v1 v2 key inserts :
  ta_name_with_suffix ta1 = ta_name_with_suffix ta2 ->
  Forall2 same_but_qualifier (parameters v1) (parameters v2) ->
  get_unique_identifier_name (ta_name_with_suffix ta1) (parameters v1)
  = Ok key ->
  key ∉ defined_function_variants g ->
  basic (returnType v1) <> None ->
  OrderedDict.get (insert_functions_by_condition g) cond1 = Some inserts ->
  get_unique_identifier_name (ta_name_with_suffix ta2) (parameters v2)
  = Ok key
  /\ exists g1,
       materialize_variant cond1 ta1 g v1 = Ok g1
       /\ builtin_id_declarations g1
          = (builtin_id_declarations g ++ [(key, id_counter g)])%list
       /\ id_counter g1 = id_counter g + 1
       /\ forall cond2 g2,
            defined_function_variants g1 ⊆ defined_function_variants g2 ->
            materialize_variant cond2 ta2 g2 v2 = Ok g2.
Proof.
  intros Hname Hparams Hkey Hnew Hreturn Hcond.
  assert (Hkey2 : get_unique_identifier_name (ta_name_with_suffix ta2)
                    (parameters v2) = Ok key).
  { rewrite get_unique_identifier_name_closed in *.
    now rewrite <- Hname, <- (tokens_same_but_qualifier _ _ Hparams). }
  split; [exact Hkey2|].
  destruct (materialize_variant_succeeds cond1 ta1 g v1 key inserts)
    as (g1 & Hrun); try assumption.
  exists g1. split; [exact Hrun|].
  apply materialize_variant_inv in Hrun as (key' & Hkey' & Hcase).
  assert (key' = key) as -> by congruence.
  destruct Hcase as [[Hdef _]|(_ & Hdefined & Hids & Hcounter & _)];
    [contradiction|].
  split; [exact Hids|]. split; [exact Hcounter|].
  intros cond2 g2 Hsub.
  apply (materialize_variant_known _ _ _ _ key); [exact Hkey2|].
  apply Hsub. rewrite Hdefined.
  apply elem_of_union_r, elem_of_singleton. reflexivity.
Qed.

Lemma dedup_ignores_qualifiers_witness :
  get_unique_identifier_name "modf" (parameters modf_out) = Ok "modf_f_f_"
  /\ exists g1,
       materialize_variant "NO_CONDITION" (sample_args "modf") sample_globals
         modf_in = Ok g1
       /\ builtin_id_declarations g1
          = (builtin_id_declarations sample_globals
               ++ [("modf_f_f_", id_counter sample_globals)])%list
       /\ id_counter g1 = id_counter sample_globals + 1
       /\ forall cond2 g2,
            defined_function_variants g1 ⊆ defined_function_variants g2 ->
            materialize_variant cond2 (sample_args "modf") g2 modf_out
            = Ok g2.
Proof.
  apply (dedup_ignores_qualifiers "NO_CONDITION" (sample_args "modf")
           (sample_args "modf") sample_globals modf_in modf_out "modf_f_f_"
           []).
  - reflexivity.
  - repeat constructor.
  - by_compute.
  - by_refute.
  - discriminate.
  - by_compute.
Defined.

(** The two declarations of [modf], the first with an [in] and the second
    with an [out] parameter: only the first gets an identity. *)
Example modf_declared_twice :
  (g1 ← materialize_variant "NO_CONDITION" (sample_args "modf")
          sample_globals modf_in;
   g2 ← materialize_variant "NO_CONDITION" (sample_args "modf") g1 modf_out;
   Ok (builtin_id_declarations g1, builtin_id_declarations g2))
  = Ok ([("modf_f_f_", 0)], [("modf_f_f_", 0)]).
Proof. by_compute. Qed.

(** ** What the type parser guarantees *)

Ltac next_char s :=
  destruct s as [|[[|] [|] [|] [|] [|] [|] [|] [|]] s]; try reflexivity.

(** [parse_type] written with [startswith] and slices, as in the source. *)
Lemma parse_type_unfold (s : string) :
  parse_type s
  = match strip_prefix "out " s with
    | Some rest => type_obj ← parse_type rest; Ok (set_qualifier type_obj "Out")
    | None =>
        match strip_prefix "inout " s with
        | Some rest =>
            type_obj ← parse_type rest; Ok (set_qualifier type_obj "InOut")
        | None => parse_unqualified s
        end
    end.
Proof.
  do 4 next_char s.
  - destruct s; reflexivity.
  - do 2 next_char s. destruct s; reflexivity.
Qed.

Lemma parse_unqualified_shape (s : string) (d : TypeDict) :
  parse_unqualified s = Ok d -> dict_shape d.
Proof.
  unfold parse_unqualified, key_lookup, upper_at. intros H.
  cbn [mbind result_bind] in H.
  repeat case_match; simplify_eq; cbn [mbind result_bind] in *; simplify_eq.
  all: unfold dict_shape, known_genTypes; cbn.
  all: intuition (auto; congruence).
Qed.

Lemma dict_shape_set_qualifier (d : TypeDict) (q : string) :
  dict_shape d -> dict_shape (set_qualifier d q).
Proof. intros H. exact H. Qed.

Lemma slice_from_length (n : nat) (s : string) :
  String.length (slice_from n s) = (String.length s - n)%nat.
Proof.
  revert s. induction n as [|n IH]; intros [|c s]; cbn; auto.
Qed.

Lemma prefix_length (p s : string) :
  String.prefix p s = true -> (String.length p <= String.length s)%nat.
Proof.
  revert s. induction p as [|a p IH]; intros [|b s] H; cbn in *;
    try lia; try discriminate.
  destruct (ascii_dec a b); [|discriminate]. apply IH in H. lia.
Qed.

Lemma strip_prefix_shorter (p s rest : string) :
  strip_prefix p s = Some rest ->
  (String.length rest + String.length p = String.length s)%nat.
Proof.
  unfold strip_prefix, startswith. intros H.
  destruct (String.prefix p s) eqn:Hp; [|discriminate]. injection H as <-.
  apply prefix_length in Hp. rewrite slice_from_length. lia.
Qed.

Lemma parse_type_shape (s : string) (d : TypeDict) :
  parse_type s = Ok d -> dict_shape d.
Proof.
  remember (String.length s) as n eqn:Hn. revert s d Hn.
  induction n as [n IH] using lt_wf_ind. intros s d -> H.
  rewrite parse_type_unfold in H.
  destruct (strip_prefix "out " s) as [rest|] eqn:Hout.
  { apply bind_Ok in H as (type_obj & Hrest & H). injection H as <-.
    apply strip_prefix_shorter in Hout. cbn in Hout.
    apply dict_shape_set_qualifier. eapply IH; [|reflexivity|exact Hrest]. lia. }
  destruct (strip_prefix "inout " s) as [rest|] eqn:Hinout.
  { apply bind_Ok in H as (type_obj & Hrest & H). injection H as <-.
    apply strip_prefix_shorter in Hinout. cbn in Hinout.
    apply dict_shape_set_qualifier. eapply IH; [|reflexivity|exact Hrest]. lia. }
  now apply parse_unqualified_shape in H.
Qed.

(** A parsed type carries a known tag or none, and names its basic kind
    unless it is sampler-or-image generic. *)
Lemma TType_of_string_shape (s : string) (t : TType) :
  TType_of_string s = Ok t ->
  tag_known t /\ (genType t <> Some "sampler_or_image" -> has_kind t).
Proof.
  unfold TType_of_string, normalize. intros H.
  apply bind_Ok in H as (d & Hd & H). apply parse_type_shape in Hd.
  apply bind_Ok in H as (primary & _ & H). injection H as <-.
  destruct Hd as [Htag _]. unfold tag_known, has_kind. cbn.
  destruct (d_genType d) as [g|]; [|split; [exact I | congruence]].
  destruct Htag as [Hknown Hbasic]. split; [exact Hknown|].
  intros Hne _. apply Hbasic. congruence.
Qed.

(** The parser never trips over [normalize]. *)
Lemma TType_of_string_normalizes (s : string) (d : TypeDict) :
  parse_type s = Ok d -> is_ok (normalize d) = true.
Proof.
  intros H. apply parse_type_shape in H as [_ Hsizes]. unfold normalize.
  destruct (d_primarySize d); [reflexivity|].
  now rewrite Hsizes.
Qed.

(** ** The variant expander *)

Lemma generic_tags_cons (t : TType) (types : list TType) :
  generic_tags (t :: types)
  = match genType t with
    | Some g => {[ g ]} ∪ generic_tags types
    | None => generic_tags types
    end.
Proof. unfold generic_tags. simpl. now destruct (genType t). Qed.

Lemma known_genTypes_check (g : string) :
  In g known_genTypes -> existsb (String.eqb g) known_genTypes = true.
Proof.
  intros Hin. apply existsb_exists. exists g. split; [exact Hin|].
  apply String.eqb_refl.
Qed.

Lemma scan_param_generic (acc : gset string) (p : TType) (g : string) :
  genType p = Some g -> In g known_genTypes ->
  scan_param acc p
  = if Nat.ltb 1 (size (acc ∪ {[ g ]})) then Err MultipleGenTypes
    else Ok (acc ∪ {[ g ]}).
Proof.
  intros Hg Hin. unfold scan_param. rewrite Hg.
  now rewrite (known_genTypes_check g Hin).
Qed.

Lemma scan_param_concrete (acc : gset string) (p : TType) :
  genType p = None -> scan_param acc p = Ok acc.
Proof. intros Hg. unfold scan_param. now rewrite Hg. Qed.

(** The scan of lines 531-537, characterised: it returns the set of tags
    when there is at most one, and raises otherwise. *)
Lemma scan_params_spec (params : list TType) (acc : gset string) :
  (size acc <= 1)%nat ->
  Forall tag_known params ->
  foldM scan_param params acc
  = if Nat.leb (size (acc ∪ generic_tags params)) 1
    then Ok (acc ∪ generic_tags params)
    else Err MultipleGenTypes.
Proof.
  revert acc. induction params as [|p params IH]; intros acc Hacc Hknown.
  - simpl. unfold generic_tags. simpl. rewrite (right_id_L ∅ (∪)).
    now apply Nat.leb_le in Hacc as ->.
  - apply Forall_cons in Hknown as [Hp Hknown].
    rewrite foldM_cons, generic_tags_cons. unfold tag_known in Hp.
    destruct (genType p) as [g|] eqn:Hg.
    + rewrite (scan_param_generic acc p g Hg Hp), (assoc_L (∪)).
      destruct (Nat.ltb 1 (size (acc ∪ {[ g ]}))) eqn:Hsize.
      * apply Nat.ltb_lt in Hsize.
        assert (Hle : (size (acc ∪ {[ g ]})
                       <= size (acc ∪ {[ g ]} ∪ generic_tags params))%nat)
          by (apply subseteq_size, union_subseteq_l).
        destruct (Nat.leb_spec
                    (size (acc ∪ {[ g ]} ∪ generic_tags params)) 1); [lia|].
        reflexivity.
      * apply Nat.ltb_ge in Hsize. cbn [mbind result_bind].
        now apply IH.
    + rewrite (scan_param_concrete acc p Hg). cbn [mbind result_bind].
      now apply IH.
Qed.

Lemma generic_tags_empty (params : list TType) :
  generic_tags params = ∅ <-> Forall concrete params.
Proof.
  induction params as [|p params IH].
  - split; [constructor | reflexivity].
  - rewrite generic_tags_cons, Forall_cons. unfold concrete at 1.
    destruct (genType p) as [g|].
    + split; [|intros [? _]; discriminate].
      intros Hempty. exfalso.
      apply (not_elem_of_empty (C := gset string) g). rewrite <- Hempty.
      apply elem_of_union_l, elem_of_singleton. reflexivity.
    + rewrite IH. tauto.
Qed.

Lemma concrete_known (params : list TType) :
  Forall concrete params -> Forall tag_known params.
Proof.
  intros H. eapply Forall_impl; [exact H|].
  intros p Hp. unfold tag_known. now rewrite Hp.
Qed.

Lemma generic_tags_elem (params : list TType) (g : string) :
  g ∈ generic_tags params <-> Exists (fun p => genType p = Some g) params.
Proof.
  induction params as [|p params IH].
  - unfold generic_tags. simpl. rewrite Exists_nil. apply elem_of_empty.
  - rewrite generic_tags_cons, Exists_cons.
    destruct (genType p) as [g'|].
    + rewrite elem_of_union, elem_of_singleton, IH.
      split; intros [H|H]; auto; left; congruence.
    + rewrite IH. split; [auto | intros [H|H]; [discriminate | exact H]].
Qed.

(** With a single known tag [t] the scan returns [{t}]. *)
Lemma scan_params_single (params : list TType) (t : string) :
  In t known_genTypes ->
  generic_tags params = {[ t ]} ->
  foldM scan_param params ∅ = Ok {[ t ]}.
Proof.
  intros Hin Htags. rewrite scan_params_spec.
  - rewrite Htags, (left_id_L ∅ (∪)), size_singleton. reflexivity.
  - rewrite size_empty. lia.
  - apply Forall_forall. intros p Hp. unfold tag_known.
    destruct (genType p) as [g|] eqn:Hg; [|exact I].
    assert (Hel : g ∈ generic_tags params).
    { apply generic_tags_elem, Exists_exists. eauto. }
    rewrite Htags in Hel. apply elem_of_singleton in Hel. now subst g.
Qed.

Lemma scan_params_none (params : list TType) :
  generic_tags params = ∅ -> foldM scan_param params ∅ = Ok ∅.
Proof.
  intros Htags. rewrite scan_params_spec.
  - rewrite Htags, (left_id_L ∅ (∪)). reflexivity.
  - rewrite size_empty. lia.
  - now apply concrete_known, generic_tags_empty.
Qed.

Lemma specific_type_dimension (t : TType) (n : Z) :
  has_kind t -> specific_type t n = Ok (to_dimension n t).
Proof.
  unfold has_kind, specific_type, to_dimension, get_basic. intros Hkind.
  destruct (genType t) as [g|]; [|reflexivity].
  destruct (basic t) as [b|]; [reflexivity|].
  exfalso. now apply Hkind.
Qed.

Lemma specific_type_concrete (t r : TType) (n : Z) :
  specific_type t n = Ok r -> concrete r.
Proof.
  unfold specific_type, concrete, get_basic. intros H.
  destruct (genType t) as [g|] eqn:Hg; [|congruence].
  destruct (basic t) as [b|]; [|discriminate].
  injection H as <-. reflexivity.
Qed.

Lemma specific_sampler_family (t : TType) (prefix : string) :
  In prefix [""; "I"; "U"] ->
  specific_sampler_or_image_type t prefix = Ok (to_family prefix t).
Proof.
  unfold specific_sampler_or_image_type, to_family. intros Hprefix.
  destruct (genType t) as [g|]; [|reflexivity].
  destruct (basic t) as [b|]; [reflexivity|].
  destruct Hprefix as [<-|[<-|[<-|[]]]]; reflexivity.
Qed.

Lemma specific_sampler_concrete (t r : TType) (prefix : string) :
  specific_sampler_or_image_type t prefix = Ok r -> concrete r.
Proof.
  unfold specific_sampler_or_image_type, concrete. intros H.
  destruct (genType t) as [g|] eqn:Hg; [|congruence].
  apply bind_Ok in H as (d & Hd & H).
  destruct (basic t) as [b|].
  - injection Hd as <-. injection H as <-. reflexivity.
  - apply bind_Ok in Hd as (b & _ & Hd). injection Hd as <-.
    injection H as <-. reflexivity.
Qed.

Lemma size_variant_dimension (decl : FunctionProps) (n : Z) :
  Forall has_kind (returnType decl :: parameters decl) ->
  size_variant decl n = Ok (dimension_variant decl n).
Proof.
  intros Hkind. apply Forall_cons in Hkind as [Hret Hparams].
  unfold size_variant, dimension_variant, get_parameters.
  rewrite (mapM_pure _ (to_dimension n)).
  - cbn [mbind result_bind]. now rewrite specific_type_dimension.
  - eapply Forall_impl; [exact Hparams|].
    intros p Hp. now apply specific_type_dimension.
Qed.

Lemma sampler_variant_family (decl : FunctionProps) (prefix : string) :
  In prefix [""; "I"; "U"] ->
  sampler_variant decl prefix = Ok (family_variant decl prefix).
Proof.
  intros Hprefix. unfold sampler_variant, family_variant, get_parameters.
  rewrite (mapM_pure _ (to_family prefix)).
  - cbn [mbind result_bind]. now rewrite specific_sampler_family.
  - apply Forall_forall. intros p _. now apply specific_sampler_family.
Qed.

Lemma gen_function_variants_concrete (function_name : string) (decl : FunctionProps) :
  generic_tags (parameters decl) = ∅ ->
  gen_function_variants function_name decl = Ok [decl].
Proof.
  intros Htags. unfold gen_function_variants, get_parameters. cbv zeta.
  rewrite (scan_params_none _ Htags). reflexivity.
Qed.

Lemma gen_function_variants_single (function_name : string) (decl : FunctionProps) (t : string) :
  In t known_genTypes ->
  generic_tags (parameters decl) = {[ t ]} ->
  gen_function_variants function_name decl
  = if String.eqb t "sampler_or_image"
    then mapM (sampler_variant decl) [""; "I"; "U"]
    else mapM (size_variant decl)
              (if String.eqb t "vec" then [2; 3; 4] else [1; 2; 3; 4]).
Proof.
  intros Hin Htags. unfold gen_function_variants, get_parameters. cbv zeta.
  rewrite (scan_params_single _ t Hin Htags). cbn [mbind result_bind].
  rewrite size_singleton. cbn [Nat.eqb].
  destruct Hin as [<-|[<-|[<-|[]]]]; reflexivity.
Qed.

(** Parsed types carry a known tag or none. *)
Lemma parsed_parameters_known (tokens : list string) (params : list TType) :
  mapM TType_of_string tokens = Ok params -> Forall tag_known params.
Proof.
  intros Hparse. apply mapM_Ok in Hparse.
  eapply Forall2_Forall_r; [|exact Hparse].
  intros token p Hp. simpl in Hp. now apply TType_of_string_shape in Hp.
Qed.

(** Parsed parameters whose only tag is a dimension tag all name their
    basic kind. *)
Lemma parsed_parameters_have_kind (tokens : list string) (params : list TType) (t : string) :
  mapM TType_of_string tokens = Ok params ->
  generic_tags params = {[ t ]} ->
  t <> "sampler_or_image" ->
  Forall has_kind params.
Proof.
  intros Hparse Htags Ht. apply mapM_Ok in Hparse.
  apply Forall_forall. intros p Hp.
  assert (Hshape : tag_known p
                   /\ (genType p <> Some "sampler_or_image" -> has_kind p)).
  { clear Htags. induction Hparse as [|tok q toks qs Hq _ IH].
    - now apply elem_of_nil in Hp.
    - apply elem_of_cons in Hp as [->|Hp]; [|now apply IH].
      now apply TType_of_string_shape in Hq. }
  apply Hshape. intros Hg. apply Ht.
  assert (Hel : "sampler_or_image" ∈ generic_tags params).
  { apply generic_tags_elem, Exists_exists. eauto. }
  rewrite Htags in Hel. apply elem_of_singleton in Hel. congruence.
Qed.

(** A parsed return type whose only possible tag is a dimension tag names
    its basic kind. *)
Lemma parsed_return_has_kind (return_token : string) (return_type : TType)
    (t : string) :
  TType_of_string return_token = Ok return_type ->
  generic_tags [return_type] ⊆ {[ t ]} ->
  t <> "sampler_or_image" ->
  has_kind return_type.
Proof.
  intros Hparse Htags Ht. apply TType_of_string_shape in Hparse as [_ Hkind].
  apply Hkind. intros Hg. apply Ht.
  assert (Hel : "sampler_or_image" ∈ generic_tags [return_type]).
  { apply generic_tags_elem, Exists_cons_hd. exact Hg. }
  apply Htags, elem_of_singleton in Hel. congruence.
Qed.

(** Outside the declarations with one generic tag: [gvec4 f(genType)] has
    the tag [yes] on its parameter and the tag [sampler_or_image] on its
    return type, and its expansion raises. *)
Example two_tags_with_return_type :
  TType_of_string "gvec4" = Ok (returnType sampler_return_dimension_params)
  /\ mapM TType_of_string ["genType"]
     = Ok (parameters sampler_return_dimension_params)
  /\ bool_decide
       (spec_scanned_tags sampler_return_dimension_params
        = {[ "sampler_or_image"; "yes" ]}) = true
  /\ gen_function_variants "f" sampler_return_dimension_params
     = Err (KeyError "basic").
Proof. repeat split; by_compute. Qed.



Example genType_dimensions :
  map (fun v => map primarySize (returnType v :: parameters v))
      (map (dimension_variant genType_decl) [1; 2; 3; 4])
  = [[1; 1]; [2; 2]; [3; 3]; [4; 4]].
Proof. reflexivity. Qed.

Example sampler_families :
  map (fun v => map basic (returnType v :: parameters v))
      (map (family_variant sampler_decl) [""; "I"; "U"])
  = [[Some "Float"; Some "Sampler2D"; Some "Float"];
     [Some "Int"; Some "ISampler2D"; Some "Float"];
     [Some "UInt"; Some "USampler2D"; Some "Float"]].
Proof. reflexivity. Qed.

(** The scan only succeeds on known tags. *)
Lemma scan_params_known (params : list TType) (acc gen_type : gset string) :
  foldM scan_param params acc = Ok gen_type -> Forall tag_known params.
Proof.
  revert acc. induction params as [|p params IH]; intros acc H; [constructor|].
  rewrite foldM_cons in H. apply bind_Ok in H as (acc' & Hstep & H).
  constructor; [|eauto].
  unfold scan_param in Hstep. unfold tag_known.
  destruct (genType p) as [g|]; [|exact I].
  destruct (existsb (String.eqb g) known_genTypes) eqn:Hknown; [|discriminate].
  apply existsb_exists in Hknown as (g' & Hin & Heq).
  apply String.eqb_eq in Heq. now subst g'.
Qed.

Lemma scan_params_Ok (params : list TType) (gen_type : gset string) :
  foldM scan_param params ∅ = Ok gen_type ->
  gen_type = generic_tags params /\ (size gen_type <= 1)%nat.
Proof.
  intros H. pose proof (scan_params_known _ _ _ H) as Hknown.
  rewrite scan_params_spec in H; [|rewrite size_empty; lia|exact Hknown].
  rewrite (left_id_L ∅ (∪)) in H.
  destruct (Nat.leb_spec (size (generic_tags params)) 1); [|discriminate].
  injection H as <-. auto.
Qed.

Lemma size_variant_concrete (decl v : FunctionProps) (n : Z) :
  size_variant decl n = Ok v ->
  concrete (returnType v) /\ Forall concrete (parameters v).
Proof.
  unfold size_variant. intros H.
  apply bind_Ok in H as (ps & Hps & H). apply bind_Ok in H as (r & Hr & H).
  injection H as <-. simpl. split.
  - eapply specific_type_concrete; eauto.
  - apply mapM_Ok in Hps. eapply Forall2_Forall_r; [|exact Hps].
    intros p q Hq. simpl in Hq. eapply specific_type_concrete; eauto.
Qed.

Lemma sampler_variant_concrete (decl v : FunctionProps) (prefix : string) :
  sampler_variant decl prefix = Ok v ->
  concrete (returnType v) /\ Forall concrete (parameters v).
Proof.
  unfold sampler_variant. intros H.
  apply bind_Ok in H as (ps & Hps & H). apply bind_Ok in H as (r & Hr & H).
  injection H as <-. simpl. split.
  - eapply specific_sampler_concrete; eauto.
  - apply mapM_Ok in Hps. eapply Forall2_Forall_r; [|exact Hps].
    intros p q Hq. simpl in Hq. eapply specific_sampler_concrete; eauto.
Qed.

(** C3 (counterexample): in [genType f(float)] only the return type is
    generic.  The specified scan finds the tag [yes]; the expander scans the
    parameters alone, finds no tag and returns the declaration as its single
    variant, the return type still generic. *)
Lemma return_type_scan_counterexample :
  TType_of_string "genType" = Ok (returnType return_only_generic)
  /\ mapM TType_of_string ["float"] = Ok (parameters return_only_generic)
  /\ bool_decide (spec_scanned_tags return_only_generic = {[ "yes" ]}) = true
  /\ foldM scan_param (get_parameters return_only_generic) ∅ = Ok ∅
  /\ gen_function_variants "f" return_only_generic = Ok [return_only_generic]
  /\ genType (returnType return_only_generic) = Some "yes".
Proof. repeat split; by_compute. Qed.

(** C3 (amended): the expander collects the generic tags of the parameters
    only.  A declaration none of whose parameters is generic is its own
    single variant, whatever its return type; a declaration with a generic
    parameter that expands at all expands into several variants, and in each
    of them the return type is specialised along with the parameters. *)
Theorem expansion_scans_parameters (function_name : string) (decl : FunctionProps) :
  (Forall concrete (parameters decl) ->
   gen_function_variants function_name decl = Ok [decl])
  /\ (forall variants,
        ~ Forall concrete (parameters decl) ->
        gen_function_variants function_name decl = Ok variants ->
        (1 < length variants)%nat
        /\ Forall (fun v => concrete (returnType v)
                            /\ Forall concrete (parameters v)) variants).
Proof.
  split.
  - intros Hconcrete. now apply gen_function_variants_concrete, generic_tags_empty.
  - intros variants Hgeneric Hrun.
    unfold gen_function_variants, get_parameters in Hrun. cbv zeta in Hrun.
    apply bind_Ok in Hrun as (gen_type & Hscan & Hrun).
    apply scan_params_Ok in Hscan as [-> Hsize].
    destruct (Nat.eqb_spec (size (generic_tags (parameters decl))) 0) as [Hz|_].
    { apply size_empty_inv, leibniz_equiv in Hz.
      now apply generic_tags_empty in Hz. }
    destruct (bool_decide ("sampler_or_image" ∈ generic_tags (parameters decl))).
    + apply mapM_Ok in Hrun. split.
      * apply Forall2_length in Hrun. rewrite <- Hrun. simpl. lia.
      * eapply Forall2_Forall_r; [|exact Hrun].
        intros prefix v Hv. simpl in Hv. eapply sampler_variant_concrete; eauto.
    + apply mapM_Ok in Hrun. split.
      * apply Forall2_length in Hrun. rewrite <- Hrun.
        destruct (bool_decide ("vec" ∈ generic_tags (parameters decl)));
          simpl; lia.
      * eapply Forall2_Forall_r; [|exact Hrun].
        intros n v Hv. simpl in Hv. eapply size_variant_concrete; eauto.
Qed.

Lemma expansion_scans_parameters_witness :
  gen_function_variants "f" return_only_generic = Ok [return_only_generic]
  /\ Nat.lt 1 (length (map (dimension_variant genType_decl) [1; 2; 3; 4]))
  /\ Forall (fun v => concrete (returnType v)
                      /\ Forall concrete (parameters v))
            (map (dimension_variant genType_decl) [1; 2; 3; 4]).
Proof.
  split.
  - apply (proj1 (expansion_scans_parameters "f" return_only_generic)).
    repeat constructor.
  - apply (proj2 (expansion_scans_parameters "sin" genType_decl)).
    + intros H. apply Forall_cons in H as [H _]. discriminate H.
    + by_compute.
Defined.

(** ** Mixed generics are rejected *)

(** Two distinct known tags among the parameters make the scan raise. *)
Lemma conflicting_tags_raise (function_name : string) (decl : FunctionProps) (g1 g2 : string) :
  Forall tag_known (parameters decl) ->
  Exists (fun p => genType p = Some g1) (parameters decl) ->
  Exists (fun p => genType p = Some g2) (parameters decl) ->
  g1 <> g2 ->
  gen_function_variants function_name decl = Err MultipleGenTypes.
Proof.
  intros Hknown H1 H2 Hne.
  apply generic_tags_elem in H1. apply generic_tags_elem in H2.
  unfold gen_function_variants, get_parameters. cbv zeta.
  rewrite scan_params_spec; [|rewrite size_empty; lia|exact Hknown].
  rewrite (left_id_L ∅ (∪)).
  destruct (Nat.leb_spec (size (generic_tags (parameters decl))) 1) as [Hle|_];
    [|reflexivity].
  exfalso. apply Hne.
  apply (size_singleton_inv (generic_tags (parameters decl))); [|exact H1|exact H2].
  assert (size (generic_tags (parameters decl)) <> 0%nat); [|lia].
  intros Hz. apply size_empty_inv in Hz. set_solver.
Qed.

(** C7: when the parsed parameters of a declaration carry two distinct
    generic tags (such as full-generic and sampler-or-image-generic), the
    expansion raises the multiple-values exception and returns no
    variants. *)
Theorem mixed_generics_rejected (function_name : string) (decl : FunctionProps) (tokens : list string) (g1 g2 : string) :
  mapM TType_of_string tokens = Ok (parameters decl) ->
  Exists (fun p => genType p = Some g1) (parameters decl) ->
  Exists (fun p => genType p = Some g2) (parameters decl) ->
  g1 <> g2 ->
  gen_function_variants function_name decl = Err MultipleGenTypes.
Proof.
  intros Hparse H1 H2 Hne.
  apply (conflicting_tags_raise function_name decl g1 g2); auto.
  now apply (parsed_parameters_known tokens).
Qed.

Lemma mixed_generics_rejected_witness :
  gen_function_variants "f" mixed_generics = Err MultipleGenTypes.
Proof.
  apply (mixed_generics_rejected "f" mixed_generics ["genType"; "gsampler2D"]
           "yes" "sampler_or_image").
  - by_compute.
  - apply Exists_cons_hd. reflexivity.
  - apply Exists_cons_tl, Exists_cons_hd. reflexivity.
  - discriminate.
Defined.

Example mixed_generics_parse :
  mapM TType_of_string ["genType"; "gsampler2D"] = Ok (parameters mixed_generics).
Proof. by_compute. Qed.

(** ** Loop invariants of the generator *)

Lemma Group_induction (P : Group -> Prop) :
  (forall group_name functions subgroups condition,
     Forall (fun entry => P (snd entry)) subgroups ->
     P (mkGroup group_name functions subgroups condition)) ->
  forall group, P group.
Proof.
  intros Hstep. fix IH 1. intros [n fs subs c]. apply Hstep.
  induction subs as [|[k sub] subs IHsubs]; constructor.
  - apply IH.
  - exact IHsubs.
Qed.

Lemma foldM_map {S A B : Type} (body : S -> B -> result S) (h : A -> B)
    (xs : list A) (st : S) :
  foldM body (map h xs) st = foldM (fun st x => body st (h x)) xs st.
Proof.
  revert st. induction xs as [|x xs IH]; intros st; [reflexivity|].
  cbn [map]. rewrite !foldM_cons. destruct (body st (h x)); cbn; auto.
Qed.

(** The subgroups are processed one after the other, in the order of
    [iteritems]. *)
Lemma process_function_group_unfold {order : DictOrder} (group_name name : string)
    (fs : list FunctionProps) (subs : list (string * Group))
    (cond : option string) (g : Globals) :
  process_function_group group_name (mkGroup name fs subs cond) g
  = (let condition := default "NO_CONDITION" cond in
     g ← process_single_function_group condition group_name
           (mkGroup name fs subs cond) (ensure_condition condition g);
     foldM (fun g entry => process_function_group entry.1 entry.2 g)
           (dict_items subs) g).
Proof.
  cbn [process_function_group]. cbv zeta.
  destruct (process_single_function_group _ _ _ _) as [g1|e]; [|reflexivity].
  cbn [mbind result_bind].
  rewrite (dict_items_values (fun k v => process_function_group k v)).
  apply foldM_map.
Qed.

Lemma Forall_dict_items {order : DictOrder} {V : Type} (P : string * V -> Prop)
    (d : list (string * V)) :
  Forall P d <-> Forall P (dict_items d).
Proof. now rewrite dict_items_permutation. Qed.

Section Invariant.
Context {order : DictOrder}.
Variable Inv : Globals -> Prop.
Hypothesis Inv_ensure_condition :
  forall cond g, Inv g -> Inv (ensure_condition cond g).
Hypothesis Inv_add_name_declaration :
  forall decl g, Inv g -> Inv (add_name_declaration decl g).
Hypothesis Inv_record_unmangled :
  forall cond ta g g', Inv g -> record_unmangled cond ta g = Ok g' -> Inv g'.
Hypothesis Inv_materialize_variant :
  forall cond ta g v g',
    Inv g -> materialize_variant cond ta g v = Ok g' -> Inv g'.

Lemma process_function_invariant cond g function_props g' :
  Inv g -> process_function cond g function_props = Ok g' -> Inv g'.
Proof.
  intros HI H. unfold process_function in H. cbv zeta in H.
  apply bind_Ok in H as (level & _ & H).
  apply bind_Ok in H as (op & _ & H).
  apply bind_Ok in H as (variants & _ & H).
  apply bind_Ok in H as (g1 & Hrec & H).
  eapply foldM_invariant; [| |exact H].
  - intros st v st'. apply Inv_materialize_variant.
  - eapply Inv_record_unmangled; [|exact Hrec].
    apply Inv_add_name_declaration, HI.
Qed.

Lemma process_function_group_invariant group_name group g g' :
  Inv g -> process_function_group group_name group g = Ok g' -> Inv g'.
Proof.
  revert group_name g g'.
  induction group as [n fs subs c IHsubs] using Group_induction.
  intros group_name g g' HI H. rewrite process_function_group_unfold in H.
  cbv zeta in H. apply bind_Ok in H as (g1 & Hfuns & H).
  assert (HI1 : Inv g1).
  { unfold process_single_function_group in Hfuns.
    eapply foldM_invariant; [| |exact Hfuns].
    - intros st x st'. apply process_function_invariant.
    - apply Inv_ensure_condition, HI. }
  clear Hfuns HI. revert g1 HI1 H. apply Forall_dict_items in IHsubs.
  induction IHsubs as [|[k sub] subs' Hsub _ IH]; intros g1 HI1 H.
  - injection H as <-. exact HI1.
  - rewrite foldM_cons in H. apply bind_Ok in H as (g2 & Hsubrun & H).
    eapply IH; [|exact H]. eapply Hsub; [exact HI1|exact Hsubrun].
Qed.

Lemma process_all_invariant parsed g :
  Inv initial_globals -> process_all parsed = Ok g -> Inv g.
Proof.
  unfold process_all. intros HI H.
  eapply foldM_invariant; [|exact HI|exact H].
  intros st entry st'. apply process_function_group_invariant.
Qed.
End Invariant.

(** ** Identity assignment *)

Lemma record_unmangled_frame cond ta g g' :
  record_unmangled cond ta g = Ok g' ->
  builtin_id_declarations g' = builtin_id_declarations g
  /\ id_counter g' = id_counter g
  /\ defined_function_variants g' = defined_function_variants g.
Proof.
  unfold record_unmangled. cbv zeta. intros H.
  apply bind_Ok in H as (r & _ & H).
  destruct (match r with
            | Some obj => String.eqb (case_extension obj) "UNDEFINED"
            | None => false
            end).
  { injection H as <-. auto. }
  apply bind_Ok in H as (present & _ & H).
  destruct (negb present || String.eqb (ta_extension ta) "UNDEFINED")%bool.
  - apply bind_Ok in H as (statements & _ & H). injection H as <-. auto.
  - injection H as <-. auto.
Qed.

Lemma ids_dense_initial : ids_dense initial_globals.
Proof. repeat split. constructor. Qed.

Lemma ids_dense_materialize_variant cond ta g v g' :
  ids_dense g -> materialize_variant cond ta g v = Ok g' -> ids_dense g'.
Proof.
  intros (Hids & Hcounter & Hnodup & Hdefined) Hrun.
  apply materialize_variant_inv in Hrun as (key & _ & Hcase).
  destruct Hcase as [[_ ->]|(Hnew & Hdef' & Hdecls & Hcounter' & _)].
  { repeat split; assumption. }
  unfold ids_dense, assigned_ids in *. cbv zeta in *.
  rewrite Hdecls, length_app, !map_app. cbn [length map fst snd].
  rewrite Nat.add_1_r, seq_S, map_app, <- Hids, Hcounter.
  repeat split.
  - rewrite Hcounter', Hcounter. lia.
  - apply NoDup_app. split; [exact Hnodup|]. split; [|apply NoDup_singleton].
    intros k Hk Hk'. apply list_elem_of_singleton in Hk'. subst k.
    apply Hnew. rewrite Hdefined. now apply elem_of_list_to_set.
  - rewrite Hdef', Hdefined, list_to_set_app_L. cbn [list_to_set].
    now rewrite (right_id_L ∅ (∪)).
Qed.

Lemma ids_dense_process_all {order : DictOrder} parsed g :
  process_all parsed = Ok g -> ids_dense g.
Proof.
  apply process_all_invariant; [| | | |exact ids_dense_initial].
  - intros cond g0 H. unfold ensure_condition.
    destruct (negb _); exact H.
  - intros decl g0 H. exact H.
  - intros cond ta g0 g1 H Hrec.
    apply record_unmangled_frame in Hrec as (Hd & Hc & Hv).
    unfold ids_dense, assigned_ids in *. now rewrite Hd, Hc, Hv.
  - apply ids_dense_materialize_variant.
Qed.

(** ** Identities follow the encounter order *)

Lemma first_occurrences_app (seen : gset string) (keys1 keys2 : list string) :
  first_occurrences seen (keys1 ++ keys2)%list
  = (first_occurrences seen keys1
       ++ first_occurrences (seen ∪ list_to_set keys1) keys2)%list.
Proof.
  revert seen. induction keys1 as [|key keys1 IH]; intros seen;
    cbn [app first_occurrences list_to_set].
  - now rewrite (right_id_L ∅ (∪)).
  - destruct (bool_decide (key ∈ seen)) eqn:Hkey.
    + apply bool_decide_eq_true in Hkey. rewrite IH. do 2 f_equal.
      apply set_eq. intros x. rewrite !elem_of_union, elem_of_singleton.
      split; [intros [?|?]; auto | intros [?|[ -> |?]]; auto].
    + rewrite IH. cbn [app]. do 3 f_equal. now rewrite (assoc_L (∪)).
Qed.

Lemma number_from_app (start : Z) (keys1 keys2 : list string) :
  number_from start (keys1 ++ keys2)%list
  = (number_from start keys1
       ++ number_from (start + Z.of_nat (length keys1)) keys2)%list.
Proof.
  revert start. induction keys1 as [|key keys1 IH]; intros start;
    cbn [app number_from length].
  - now rewrite Z.add_0_r.
  - rewrite IH. do 3 f_equal. lia.
Qed.

Lemma number_from_fst (start : Z) (keys : list string) :
  map fst (number_from start keys) = keys.
Proof.
  revert start. induction keys as [|key keys IH]; intros start;
    [reflexivity|]. cbn. now rewrite IH.
Qed.

Lemma assigned_in_order_frame (g g' : Globals) :
  builtin_id_declarations g' = builtin_id_declarations g ->
  id_counter g' = id_counter g ->
  defined_function_variants g' = defined_function_variants g ->
  assigned_in_order g g' [].
Proof.
  intros Hids Hcounter Hdefined. unfold assigned_in_order. cbn.
  rewrite Hids, Hcounter, Hdefined, app_nil_r, Z.add_0_r.
  now rewrite (right_id_L ∅ (∪)).
Qed.

Lemma assigned_in_order_trans (g g1 g2 : Globals) (keys1 keys2 : list string) :
  assigned_in_order g g1 keys1 -> assigned_in_order g1 g2 keys2 ->
  assigned_in_order g g2 (keys1 ++ keys2).
Proof.
  unfold assigned_in_order. cbv zeta.
  intros (Hids1 & Hcounter1 & Hdefined1) (Hids2 & Hcounter2 & Hdefined2).
  rewrite first_occurrences_app, number_from_app, length_app.
  rewrite Hids2, Hcounter2, Hdefined2, Hids1, Hcounter1, Hdefined1.
  rewrite <- app_assoc, list_to_set_app_L.
  split; [reflexivity|]. split; [lia|]. now rewrite (assoc_L (∪)).
Qed.

(** A loop whose every iteration meets the names its element stands for
    meets them all, one element after the other. *)
Lemma foldM_assigned_in_order {A : Type}
    (step : Globals -> A -> result Globals) (keys_of : A -> result (list string))
    (xs : list A) :
  Forall (fun a =>
            forall g g',
              step g a = Ok g' ->
              exists keys, keys_of a = Ok keys /\ assigned_in_order g g' keys)
         xs ->
  forall g g',
    foldM step xs g = Ok g' ->
    exists keys,
      mapM keys_of xs = Ok keys /\ assigned_in_order g g' (concat keys).
Proof.
  intros Hsteps. induction Hsteps as [|a xs Hstep _ IH]; intros g g' H.
  - injection H as <-. exists []. split; [reflexivity|].
    now apply assigned_in_order_frame.
  - rewrite foldM_cons in H. apply bind_Ok in H as (g1 & Ha & H).
    destruct (Hstep _ _ Ha) as (keys1 & Hkeys1 & Hmeets1).
    destruct (IH _ _ H) as (keys2 & Hkeys2 & Hmeets2).
    exists (keys1 :: keys2). rewrite mapM_cons, Hkeys1, Hkeys2.
    split; [reflexivity|]. cbn [concat].
    eapply assigned_in_order_trans; eauto.
Qed.

Lemma materialize_variant_in_order cond ta g v g' :
  materialize_variant cond ta g v = Ok g' ->
  exists key,
    get_unique_identifier_name (ta_name_with_suffix ta) (get_parameters v)
    = Ok key
    /\ assigned_in_order g g' [key].
Proof.
  intros H. apply materialize_variant_inv in H as (key & Hkey & Hcase).
  exists key. split; [exact Hkey|]. unfold assigned_in_order.
  cbn [first_occurrences list_to_set].
  destruct Hcase as [[Hin ->]|(Hnew & Hdefined & Hids & Hcounter & _)].
  - rewrite bool_decide_eq_true_2 by exact Hin. cbn.
    rewrite app_nil_r, Z.add_0_r. split; [reflexivity|].
    split; [reflexivity|]. rewrite (right_id_L ∅ (∪)).
    apply set_eq. intros x. rewrite elem_of_union, elem_of_singleton.
    split; [auto | intros [? | ->]; auto].
  - rewrite bool_decide_eq_false_2 by exact Hnew. cbn.
    rewrite Hids, Hcounter, Hdefined. split; [reflexivity|].
    split; [lia|]. now rewrite (right_id_L ∅ (∪)).
Qed.

Lemma variants_in_order cond ta variants g g' :
  foldM (materialize_variant cond ta) variants g = Ok g' ->
  exists keys,
    mapM (fun v =>
            get_unique_identifier_name (ta_name_with_suffix ta)
              (get_parameters v)) variants = Ok keys
    /\ assigned_in_order g g' keys.
Proof.
  revert g. induction variants as [|v variants IH]; intros g H.
  - injection H as <-. exists []. split; [reflexivity|].
    now apply assigned_in_order_frame.
  - rewrite foldM_cons in H. apply bind_Ok in H as (g1 & Hv & H).
    apply materialize_variant_in_order in Hv as (key & Hkey & Hmeets1).
    destruct (IH _ H) as (keys & Hkeys & Hmeets2).
    exists (key :: keys). rewrite mapM_cons, Hkey, Hkeys.
    split; [reflexivity|].
    exact (assigned_in_order_trans _ _ _ [key] keys Hmeets1 Hmeets2).
Qed.

Lemma assigned_in_order_from (g0 g g' : Globals) (keys : list string) :
  builtin_id_declarations g = builtin_id_declarations g0 ->
  id_counter g = id_counter g0 ->
  defined_function_variants g = defined_function_variants g0 ->
  assigned_in_order g g' keys -> assigned_in_order g0 g' keys.
Proof.
  unfold assigned_in_order. cbv zeta. now intros -> -> ->.
Qed.

Lemma process_function_in_order cond g function_props g' :
  process_function cond g function_props = Ok g' ->
  exists keys,
    function_keys function_props = Ok keys /\ assigned_in_order g g' keys.
Proof.
  intros H. unfold process_function in H. cbv zeta in H.
  apply bind_Ok in H as (l & _ & H).
  apply bind_Ok in H as (o & _ & H).
  apply bind_Ok in H as (variants & Hvariants & H).
  apply bind_Ok in H as (g1 & Hrec & H).
  apply record_unmangled_frame in Hrec as (Hids & Hcounter & Hdefined).
  apply variants_in_order in H as (keys & Hkeys & Hmeets).
  cbn [ta_name_with_suffix] in Hkeys.
  exists keys. unfold function_keys. rewrite Hvariants.
  split; [exact Hkeys|].
  eapply assigned_in_order_from; [| | |exact Hmeets]; assumption.
Qed.

Lemma mapM_map {A B C : Type} (f : B -> result C) (h : A -> B) (xs : list A) :
  mapM f (map h xs) = mapM (fun x => f (h x)) xs.
Proof.
  induction xs as [|x xs IH]; [reflexivity|].
  cbn [map]. rewrite !mapM_cons, IH. reflexivity.
Qed.

(** The names of the subgroups come one subgroup after the other, in the
    order of [iteritems]. *)
Lemma group_keys_unfold {order : DictOrder} (name : string)
    (fs : list FunctionProps) (subs : list (string * Group))
    (cond : option string) :
  group_keys (mkGroup name fs subs cond)
  = (own ← mapM function_keys fs;
     below ← mapM (fun entry : string * Group => group_keys entry.2)
                  (dict_items subs);
     Ok (concat own ++ concat below)%list).
Proof.
  cbn [group_keys].
  rewrite (dict_items_values (fun _ sub => group_keys sub)), mapM_map.
  reflexivity.
Qed.

Lemma process_function_group_in_order {order : DictOrder} group_name group g g' :
  process_function_group group_name group g = Ok g' ->
  exists keys, group_keys group = Ok keys /\ assigned_in_order g g' keys.
Proof.
  revert group_name g g'.
  induction group as [n fs subs c IHsubs] using Group_induction.
  intros group_name g g' H. rewrite process_function_group_unfold in H.
  cbv zeta in H. apply bind_Ok in H as (g1 & Hfuns & H).
  unfold process_single_function_group in Hfuns. cbn [functions] in Hfuns.
  apply (foldM_assigned_in_order _ function_keys) in Hfuns.
  2: { apply Forall_forall. intros f _ g0 g0'.
       apply process_function_in_order. }
  apply (foldM_assigned_in_order _
           (fun entry : string * Group => group_keys entry.2)) in H.
  2: { apply Forall_dict_items in IHsubs.
       eapply Forall_impl; [exact IHsubs|].
       intros [k sub] IH g0 g0'. cbn [fst snd]. apply IH. }
  destruct Hfuns as (own & Hown & Hmeets1).
  destruct H as (below & Hbelow & Hmeets2).
  exists (concat own ++ concat below)%list.
  rewrite group_keys_unfold, Hown, Hbelow. split; [reflexivity|].
  eapply assigned_in_order_trans; [|exact Hmeets2].
  eapply assigned_in_order_from; [| | |exact Hmeets1];
    unfold ensure_condition; now destruct (negb _).
Qed.

Lemma process_all_in_order {order : DictOrder} parsed g :
  process_all parsed = Ok g ->
  exists keys,
    encountered_keys parsed = Ok keys
    /\ builtin_id_declarations g = number_from 0 (first_occurrences ∅ keys)
    /\ id_counter g = Z.of_nat (length (first_occurrences ∅ keys)).
Proof.
  unfold process_all. intros H.
  apply (foldM_assigned_in_order _
           (fun entry : string * Group => group_keys entry.2)) in H.
  2: { apply Forall_forall. intros [k group] _ g0 g0'. cbn [fst snd].
       apply process_function_group_in_order. }
  destruct H as (keys & Hkeys & Hids & Hcounter & _).
  exists (concat keys). unfold encountered_keys. rewrite Hkeys.
  split; [reflexivity|]. split; [exact Hids | exact Hcounter].
Qed.

(** C1: after a successful run the variants that got an identity are the
    variants of the input in encounter order, each one at the first
    occurrence of its unique name, and the identities are 0, 1, 2, ... in
    that order: the counter starts at 0 and is incremented once per
    materialised variant, so that the identities are exactly 0 .. last
    without gap or repeat, and the recorded last identity is the final
    counter value minus one. *)
Theorem identities_dense {order : DictOrder} (json_loads : string -> result Metadata) (lines : list string) (g : Globals) :
  generate json_loads lines = Ok g ->
  exists parsed keys,
    get_parsed_functions json_loads lines = Ok parsed
    /\ encountered_keys parsed = Ok keys
    /\ id_counter initial_globals = 0
    /\ builtin_id_declarations g = number_from 0 (first_occurrences ∅ keys)
    /\ id_counter g = Z.of_nat (length (first_occurrences ∅ keys))
    /\ assigned_ids g
       = map Z.of_nat (seq 0 (length (builtin_id_declarations g)))
    /\ size (defined_function_variants g)
       = length (builtin_id_declarations g)
    /\ last_static_builtin_id g = id_counter g - 1
    /\ NoDup (assigned_ids g)
    /\ (forall id,
          In id (assigned_ids g) <-> 0 <= id <= last_static_builtin_id g).
Proof.
  intros Hrun. unfold generate in Hrun.
  apply bind_Ok in Hrun as (parsed & Hparsed & Hrun).
  destruct (ids_dense_process_all _ _ Hrun) as (Hids & Hcounter & Hnodup & Hdef).
  destruct (process_all_in_order _ _ Hrun) as (keys & Hkeys & Horder & Hlast).
  exists parsed, keys.
  split; [exact Hparsed|]. split; [exact Hkeys|]. split; [reflexivity|].
  split; [exact Horder|]. split; [exact Hlast|]. split; [exact Hids|].
  split; [|split; [reflexivity|split]].
  - rewrite Hdef, size_list_to_set by exact Hnodup. now rewrite length_map.
  - rewrite Hids.
    apply NoDup_fmap_2; [intros i j; apply Nat2Z.inj | apply NoDup_seq].
  - intros id. unfold last_static_builtin_id. rewrite Hids, Hcounter, in_map_iff.
    split.
    + intros (i & <- & Hi). apply in_seq in Hi. lia.
    + intros Hid. exists (Z.to_nat id). split; [lia|]. apply in_seq. lia.
Qed.

Lemma identities_dense_witness :
  exists parsed keys,
    get_parsed_functions sample_json_loads sample_source = Ok parsed
    /\ encountered_keys (order := insertion_order) parsed = Ok keys
    /\ id_counter initial_globals = 0
    /\ builtin_id_declarations sample_generated
       = number_from 0 (first_occurrences ∅ keys)
    /\ id_counter sample_generated
       = Z.of_nat (length (first_occurrences ∅ keys))
    /\ assigned_ids sample_generated
       = map Z.of_nat
           (seq 0 (length (builtin_id_declarations sample_generated)))
    /\ size (defined_function_variants sample_generated)
       = length (builtin_id_declarations sample_generated)
    /\ last_static_builtin_id sample_generated
       = id_counter sample_generated - 1
    /\ NoDup (assigned_ids sample_generated)
    /\ (forall id, In id (assigned_ids sample_generated)
                   <-> 0 <= id <= last_static_builtin_id sample_generated).
Proof.
  apply (identities_dense (order := insertion_order) sample_json_loads
           sample_source sample_generated).
  apply ok_value_of. by_compute.
Defined.

(** The variants of the sample input in encounter order: [sin(float)]
    comes again after the four variants of [sin(genType)], and [modf] twice
    under one name; each gets its identity where it is met first. *)
Example sample_encountered_keys :
  (parsed ← get_parsed_functions sample_json_loads sample_source;
   encountered_keys (order := insertion_order) parsed)
  = Ok ["sin_f_"; "sin_2f_"; "sin_3f_"; "sin_4f_"; "sin_f_"; "modf_f_f_";
        "modf_f_f_"; "texture_s2_2f_"; "texture_is2_2f_"; "texture_us2_2f_"]
  /\ number_from 0
       (first_occurrences ∅
          ["sin_f_"; "sin_2f_"; "sin_3f_"; "sin_4f_"; "sin_f_"; "modf_f_f_";
           "modf_f_f_"; "texture_s2_2f_"; "texture_is2_2f_";
           "texture_us2_2f_"])
     = [("sin_f_", 0); ("sin_2f_", 1); ("sin_3f_", 2); ("sin_4f_", 3);
        ("modf_f_f_", 4); ("texture_s2_2f_", 5); ("texture_is2_2f_", 6);
        ("texture_us2_2f_", 7)].
Proof. split; by_compute. Qed.

Example sample_generated_identities :
  builtin_id_declarations sample_generated
  = [("sin_f_", 0); ("sin_2f_", 1); ("sin_3f_", 2); ("sin_4f_", 3);
     ("modf_f_f_", 4); ("texture_s2_2f_", 5); ("texture_is2_2f_", 6);
     ("texture_us2_2f_", 7)]
  /\ last_static_builtin_id sample_generated = 7
  /\ output_builtin_id_declarations sample_generated
     = join nl
         ["    static constexpr const TSymbolUniqueId sin_f_ = TSymbolUniqueId(0);";
          "    static constexpr const TSymbolUniqueId sin_2f_ = TSymbolUniqueId(1);";
          "    static constexpr const TSymbolUniqueId sin_3f_ = TSymbolUniqueId(2);";
          "    static constexpr const TSymbolUniqueId sin_4f_ = TSymbolUniqueId(3);";
          "    static constexpr const TSymbolUniqueId modf_f_f_ = TSymbolUniqueId(4);";
          "    static constexpr const TSymbolUniqueId texture_s2_2f_ = TSymbolUniqueId(5);";
          "    static constexpr const TSymbolUniqueId texture_is2_2f_ = TSymbolUniqueId(6);";
          "    static constexpr const TSymbolUniqueId texture_us2_2f_ = TSymbolUniqueId(7);"].
Proof. repeat split; by_compute. Qed.

Example sample_run_identities :
  builtin_id_declarations sample_run
  = [("sin_f_", 0); ("sin_2f_", 1); ("sin_3f_", 2); ("sin_4f_", 3);
     ("cos_", 4); ("modf_f_f_", 5); ("texture_s2_f_", 6);
     ("texture_is2_f_", 7); ("texture_us2_f_", 8)]
  /\ last_static_builtin_id sample_run = 8.
Proof. split; by_compute. Qed.

(** ** Keys once defined stay defined *)

Lemma defined_variants_grow {order : DictOrder} (keys : gset string) (group_name : string) (group : Group) (g g' : Globals) :
  keys ⊆ defined_function_variants g ->
  process_function_group group_name group g = Ok g' ->
  keys ⊆ defined_function_variants g'.
Proof.
  apply (process_function_group_invariant
           (fun g => keys ⊆ defined_function_variants g)).
  - intros cond g0 H. unfold ensure_condition. destruct (negb _); exact H.
  - intros decl g0 H. exact H.
  - intros cond ta g0 g1 H Hrec.
    apply record_unmangled_frame in Hrec as (_ & _ & ->). exact H.
  - intros cond ta g0 v g1 H Hrun.
    apply materialize_variant_inv in Hrun as (key & _ & Hcase).
    destruct Hcase as [[_ ->]|(_ & -> & _)]; [exact H|].
    etransitivity; [exact H | apply union_subseteq_l].
Qed.

(** ** Shadowing of unmangled lookup records *)

Module GroupedListFacts.
Import OrderedDictFacts.

(** A successful [get] returns the record read from the nested
    dictionaries, at a valid level. *)
Lemma get_Some (self : GroupedList.t) (level cond name : string) (obj : UnmangledCase) :
  GroupedList.get self level cond name = Ok (Some obj) <->
  GroupedList.check_level level = Ok tt
  /\ stored_record self level cond name = Some obj.
Proof.
  unfold GroupedList.get, GroupedList.has_key, GroupedList.at_level,
    stored_record, OrderedDict.mem.
  destruct (GroupedList.check_level level) as [[]|e]; cbn [mbind result_bind].
  2: { split; [discriminate | intros [? _]; discriminate]. }
  destruct (OrderedDict.get self level) as [by_condition|];
    cbn [mbind result_bind option_bind].
  2: { split; [discriminate | intros [_ ?]; discriminate]. }
  destruct (OrderedDict.get by_condition cond) as [by_name|];
    cbn [mbind result_bind option_bind].
  2: { split; [discriminate | intros [_ ?]; discriminate]. }
  destruct (OrderedDict.get by_name name) as [o|]; cbn [mbind result_bind].
  - split; [intros H; injection H as <-; auto | intros [_ H]; now rewrite H].
  - split; [discriminate | intros [_ ?]; discriminate].
Qed.

(** [add_obj] writes one slot and leaves every other slot as it was. *)
Lemma stored_add_obj (self self' : GroupedList.t) (level cond name : string) (obj : UnmangledCase) :
  GroupedList.add_obj self level cond name obj = Ok self' ->
  forall level' cond' name',
    stored_record self' level' cond' name'
    = if bool_decide (level' = level /\ cond' = cond /\ name' = name)
      then Some obj
      else stored_record self level' cond' name'.
Proof.
  unfold GroupedList.add_obj, GroupedList.at_level. intros H.
  apply bind_Ok in H as ([] & _ & H).
  destruct (OrderedDict.get self level) as [by_condition|] eqn:Hlevel;
    [|discriminate].
  cbn [mbind result_bind] in H. injection H as <-.
  intros level' cond' name'. unfold stored_record.
  destruct (decide (level' = level)) as [->|Hl].
  2: { rewrite get_set_ne by congruence.
       rewrite bool_decide_eq_false_2 by tauto. reflexivity. }
  rewrite get_set_eq, Hlevel. cbn [mbind option_bind].
  destruct (decide (cond' = cond)) as [->|Hc].
  2: { rewrite get_set_ne by congruence.
       rewrite bool_decide_eq_false_2 by tauto.
       now rewrite get_setdefault_ne by congruence. }
  rewrite get_set_eq. cbn [mbind option_bind].
  destruct (decide (name' = name)) as [->|Hn].
  { rewrite get_set_eq. now rewrite bool_decide_eq_true_2. }
  rewrite get_set_ne by congruence.
  rewrite bool_decide_eq_false_2 by tauto.
  rewrite get_setdefault_eq. unfold OrderedDict.t in *.
  destruct (OrderedDict.get by_condition cond); reflexivity.
Qed.
End GroupedListFacts.

Lemma materialize_variant_statements cond ta g v g' :
  materialize_variant cond ta g v = Ok g' ->
  unmangled_function_if_statements g' = unmangled_function_if_statements g.
Proof.
  intros H. apply materialize_variant_inv in H as (key & _ & Hcase).
  destruct Hcase as [[_ ->]|(_ & _ & _ & _ & H & _)]; [reflexivity | exact H].
Qed.

(** A record shadowed by an unconditioned, extension-free one is not added. *)
Lemma record_unmangled_shadowed cond ta g obj :
  GroupedList.get (unmangled_function_if_statements g) (ta_level ta)
    "NO_CONDITION" (ta_name ta) = Ok (Some obj) ->
  case_extension obj = "UNDEFINED" ->
  record_unmangled cond ta g = Ok g.
Proof.
  intros Hget Hext. unfold record_unmangled. cbv zeta.
  rewrite Hget. cbn [mbind result_bind]. rewrite Hext. reflexivity.
Qed.

(** Whatever [record_unmangled] does, it leaves such a record in place. *)
Lemma record_unmangled_keeps cond ta g g' level name obj :
  GroupedList.get (unmangled_function_if_statements g) level
    "NO_CONDITION" name = Ok (Some obj) ->
  case_extension obj = "UNDEFINED" ->
  record_unmangled cond ta g = Ok g' ->
  GroupedList.get (unmangled_function_if_statements g') level
    "NO_CONDITION" name = Ok (Some obj).
Proof.
  intros Hget Hext Hrun.
  destruct (decide (ta_level ta = level /\ ta_name ta = name)) as [[<- <-]|Hother].
  { rewrite (record_unmangled_shadowed _ _ _ _ Hget Hext) in Hrun.
    now injection Hrun as <-. }
  unfold record_unmangled in Hrun. cbv zeta in Hrun.
  apply bind_Ok in Hrun as (r & _ & Hrun).
  destruct (match r with
            | Some o => String.eqb (case_extension o) "UNDEFINED"
            | None => false
            end).
  { now injection Hrun as <-. }
  apply bind_Ok in Hrun as (present & _ & Hrun).
  destruct (negb present || String.eqb (ta_extension ta) "UNDEFINED")%bool.
  2: { now injection Hrun as <-. }
  apply bind_Ok in Hrun as (statements & Hadd & Hrun).
  injection Hrun as <-. cbn [unmangled_function_if_statements].
  apply GroupedListFacts.get_Some in Hget as [Hlevel Hstored].
  apply GroupedListFacts.get_Some. split; [exact Hlevel|].
  rewrite (GroupedListFacts.stored_add_obj _ _ _ _ _ _ Hadd).
  rewrite bool_decide_eq_false_2; [exact Hstored|].
  intros (-> & _ & ->). now apply Hother.
Qed.

(** C6: once the unmangled record of a name at a level is unconditioned and
    extension-free, every attempt to add a record for that name and level
    (under any condition, with any extension) changes nothing, and the
    stored record is still the same after any further group has been
    processed. *)
Theorem shadowing_keeps_record {order : DictOrder} (g : Globals) (level name : string) (obj : UnmangledCase) :
  GroupedList.get (unmangled_function_if_statements g) level
    "NO_CONDITION" name = Ok (Some obj) ->
  case_extension obj = "UNDEFINED" ->
  (forall cond ta,
     ta_level ta = level -> ta_name ta = name ->
     record_unmangled cond ta g = Ok g)
  /\ (forall group_name group g',
        process_function_group group_name group g = Ok g' ->
        GroupedList.get (unmangled_function_if_statements g') level
          "NO_CONDITION" name = Ok (Some obj)).
Proof.
  intros Hget Hext. split.
  - intros cond ta <- <-. eapply record_unmangled_shadowed; eauto.
  - intros group_name group g'.
    apply (process_function_group_invariant
             (fun g => GroupedList.get (unmangled_function_if_statements g)
                         level "NO_CONDITION" name = Ok (Some obj)));
      [| | | |exact Hget].
    + intros cond g0 H. unfold ensure_condition.
      destruct (negb _); exact H.
    + intros decl g0 H. exact H.
    + intros cond ta g0 g1 H Hrec. eapply record_unmangled_keeps; eauto.
    + intros cond ta g0 v g1 H Hrun.
      now rewrite (materialize_variant_statements _ _ _ _ _ Hrun).
Qed.

Lemma shadowing_keeps_record_witness :
  (forall cond ta,
     ta_level ta = "COMMON_BUILTINS" -> ta_name ta = "sin" ->
     record_unmangled cond ta sample_run = Ok sample_run)
  /\ (forall group_name group g',
        process_function_group (order := insertion_order) group_name group
          sample_run = Ok g' ->
        GroupedList.get (unmangled_function_if_statements g')
          "COMMON_BUILTINS" "NO_CONDITION" "sin"
        = Ok (Some (mkUnmangledCase (unmangled_if (sample_args "sin"))
                                    "UNDEFINED"))).
Proof.
  apply (shadowing_keeps_record (order := insertion_order) sample_run
           "COMMON_BUILTINS" "sin"
           (mkUnmangledCase (unmangled_if (sample_args "sin")) "UNDEFINED"));
    by_compute.
Defined.

Example shadowed_attempt :
  record_unmangled "shaderType == GL_FRAGMENT_SHADER"
    (extension_args "sin" "OES_texture_3D") sample_run = Ok sample_run.
Proof.
  apply (record_unmangled_shadowed _ _ _
           (mkUnmangledCase (unmangled_if (sample_args "sin")) "UNDEFINED"));
    by_compute.
Qed.

(** ** The declaration parser and groups left open *)

Section ParserFacts.
Variable json_loads : string -> result Metadata.

(** A line that leaves a group open does not touch [parsed_functions]. *)
Lemma parse_line_open (st st' : ParserState) (line : string) :
  parse_line json_loads st line = Ok st' ->
  group_stack st' <> [] ->
  parsed_functions st' = parsed_functions st.
Proof.
  unfold parse_line. intros H Hopen.
  destruct (startswith line "GROUP BEGIN ").
  { destruct (split_first_space _) as [name metadata_text].
    apply bind_Ok in H as (current_group & _ & H). now injection H as <-. }
  destruct (startswith line "GROUP END ").
  { destruct (group_stack st) as [|current_group stack]; [discriminate|].
    destruct (negb _); [discriminate|].
    destruct stack as [|super_group outer]; injection H as <-;
      [now contradiction Hopen | reflexivity]. }
  destruct (startswith line "DEFAULT METADATA").
  { apply bind_Ok in H as (metadata & _ & H). now injection H as <-. }
  destruct (fun_match line) as [[[return_type name] parameters]|];
    [|discriminate].
  apply bind_Ok in H as (rt & _ & H). apply bind_Ok in H as (ps & _ & H).
  apply bind_Ok in H as (checked & _ & H).
  destruct (group_stack st); [discriminate|]. now injection H as <-.
Qed.

(** Only [GROUP BEGIN] opens a group when none is open. *)
Lemma parse_line_opens (st st' : ParserState) (line : string) :
  parse_line json_loads st line = Ok st' ->
  group_stack st = [] ->
  group_stack st' <> [] ->
  startswith line "GROUP BEGIN " = true.
Proof.
  unfold parse_line. intros H Hclosed Hopen.
  destruct (startswith line "GROUP BEGIN "); [reflexivity|].
  exfalso. rewrite Hclosed in H.
  destruct (startswith line "GROUP END "); [discriminate|].
  destruct (startswith line "DEFAULT METADATA").
  { apply bind_Ok in H as (metadata & _ & H). injection H as <-.
    now apply Hopen. }
  destruct (fun_match line) as [[[return_type name] parameters]|];
    [|discriminate].
  apply bind_Ok in H as (rt & _ & H). apply bind_Ok in H as (ps & _ & H).
  apply bind_Ok in H as (checked & _ & H).
  discriminate.
Qed.

(** When the input ends inside a group, the result is what the lines
    before the outermost open [GROUP BEGIN] produce. *)
Lemma parse_lines_open (lines : list string) (st0 st : ParserState) :
  group_stack st0 = [] ->
  parse_lines json_loads lines st0 = Ok st ->
  group_stack st <> [] ->
  exists closed begin rest st1,
    lines = (closed ++ begin :: rest)%list
    /\ startswith begin "GROUP BEGIN " = true
    /\ parse_lines json_loads closed st0 = Ok st1
    /\ group_stack st1 = []
    /\ parsed_functions st1 = parsed_functions st.
Proof.
  intros Hclosed. revert st.
  induction lines as [|line lines IH] using rev_ind; intros st Hrun Hopen.
  { injection Hrun as <-. contradiction. }
  unfold parse_lines in Hrun. rewrite foldM_app in Hrun.
  apply bind_Ok in Hrun as (st' & Hrun & Hline).
  rewrite foldM_cons in Hline. apply bind_Ok in Hline as (st'' & Hline & Hend).
  injection Hend as ->.
  pose proof (parse_line_open _ _ _ Hline Hopen) as Hsame.
  destruct (group_stack st') as [|top stack] eqn:Hstack.
  - exists lines, line, [], st'. repeat split; try assumption.
    + eapply parse_line_opens; eauto.
    + congruence.
  - destruct (IH st' Hrun) as (closed & begin & rest & st1 & -> & Hb & Hrun1 & Hs1 & Hp1).
    { rewrite Hstack. discriminate. }
    exists closed, begin, (rest ++ [line])%list, st1.
    repeat split; try assumption.
    + now rewrite <- app_assoc.
    + congruence.
Qed.
End ParserFacts.

(** A [GROUP BEGIN] line without metadata is always accepted, so an input
    that stops right after it still parses. *)
Lemma unclosed_group_accepted (json_loads : string -> result Metadata) (lines : list string) (st0 st : ParserState) (line : string) :
  parse_lines json_loads lines st0 = Ok st ->
  startswith line "GROUP BEGIN " = true ->
  snd (split_first_space (strip (slice_from 12 line))) = None ->
  exists st',
    parse_lines json_loads (lines ++ [line])%list st0 = Ok st'
    /\ group_stack st' <> []
    /\ parsed_functions st' = parsed_functions st.
Proof.
  intros Hrun Hbegin Hplain. unfold parse_lines in *.
  rewrite foldM_app, Hrun. cbn [mbind result_bind foldM].
  unfold parse_line. rewrite Hbegin.
  destruct (split_first_space (strip (slice_from 12 line))) as [name text].
  cbn [snd] in Hplain. subst text. cbn [mbind result_bind].
  eexists. split; [reflexivity|]. split; [discriminate | reflexivity].
Qed.

(** C10: when the input ends while groups are still open, parsing returns
    normally, and its result is the mapping built from the lines that come
    before the [GROUP BEGIN] of the outermost open group: the open groups
    and everything declared inside them are absent from it. *)
Theorem open_groups_dropped (json_loads : string -> result Metadata) (lines : list string) (st : ParserState) :
  parse_lines json_loads (significant_lines lines) initial_parser_state = Ok st ->
  group_stack st <> [] ->
  get_parsed_functions json_loads lines = Ok (parsed_functions st)
  /\ exists closed begin rest st1,
       significant_lines lines = (closed ++ begin :: rest)%list
       /\ startswith begin "GROUP BEGIN " = true
       /\ parse_lines json_loads closed initial_parser_state = Ok st1
       /\ group_stack st1 = []
       /\ parsed_functions st1 = parsed_functions st.
Proof.
  intros Hrun Hopen. split.
  - unfold get_parsed_functions. now rewrite Hrun.
  - eapply parse_lines_open; eauto.
Qed.

Lemma open_groups_dropped_witness :
  get_parsed_functions sample_json_loads sample_lines
  = Ok (parsed_functions sample_parser_state)
  /\ exists closed begin rest st1,
       significant_lines sample_lines = (closed ++ begin :: rest)%list
       /\ startswith begin "GROUP BEGIN " = true
       /\ parse_lines sample_json_loads closed initial_parser_state = Ok st1
       /\ group_stack st1 = []
       /\ parsed_functions st1 = parsed_functions sample_parser_state.
Proof.
  apply (open_groups_dropped sample_json_loads sample_lines sample_parser_state).
  - apply ok_value_of. by_compute.
  - vm_compute. discriminate.
Defined.

Example open_groups_absent :
  get_parsed_functions sample_json_loads sample_lines
  = Ok [("Math",
         mkGroup "Math"
           [mkFunctionProps "sin" float_type [float_type]
              (Some "COMMON_BUILTINS") None (Some "auto") false None]
           [] None)]
  /\ map group_name (group_stack sample_parser_state) = ["Inner"; "Open"].
Proof. split; by_compute. Qed.

(** * Further properties of the generator *)

(** ** The type parser: sizes, qualifiers and failures *)

(** Induction over the prefixes [parse_type] peels off. *)
Lemma parse_type_cases (P : TypeDict -> Prop) :
  (forall s d, parse_unqualified s = Ok d -> P d) ->
  (forall d q, q = "Out" \/ q = "InOut" -> P d -> P (set_qualifier d q)) ->
  forall s d, parse_type s = Ok d -> P d.
Proof.
  intros Hbase Hqual s. remember (String.length s) as n eqn:Hn. revert s Hn.
  induction n as [n IH] using lt_wf_ind. intros s -> d H.
  rewrite parse_type_unfold in H.
  destruct (strip_prefix "out " s) as [rest|] eqn:Hout.
  { apply bind_Ok in H as (type_obj & Hrest & H). injection H as <-.
    apply strip_prefix_shorter in Hout. cbn in Hout.
    apply Hqual; [now left|]. eapply IH; [|reflexivity|exact Hrest]. lia. }
  destruct (strip_prefix "inout " s) as [rest|] eqn:Hinout.
  { apply bind_Ok in H as (type_obj & Hrest & H). injection H as <-.
    apply strip_prefix_shorter in Hinout. cbn in Hinout.
    apply Hqual; [now right|]. eapply IH; [|reflexivity|exact Hrest]. lia. }
  eapply Hbase; eauto.
Qed.

Lemma digit234_range (c : ascii) (n : Z) : digit234 c = Some n -> 2 <= n <= 4.
Proof.
  unfold digit234. intros H. repeat case_match; simplify_eq; lia.
Qed.

Lemma vec_match_range (s g1 : string) (n : Z) :
  vec_match s = Some (g1, Some n) -> 2 <= n <= 4.
Proof.
  unfold vec_match. intros H.
  destruct (optional_char _ s) as [g rest].
  destruct (strip_prefix "vec" rest) as [[|c rest']|]; try discriminate.
  destruct (digit234 c) as [m|] eqn:Hc.
  - destruct (at_end rest'); [|discriminate]. injection H as _ <-.
    eapply digit234_range; eauto.
  - destruct (at_end _); discriminate.
Qed.

(** What [mat_match] leaves to the plain branch of the pattern. *)
Lemma mat_match_unfold (s : string) :
  mat_match s
  = match strip_prefix "mat" s with
    | Some (String c1 rest) =>
        match digit234 c1 with
        | None => None
        | Some n1 =>
            match strip_prefix "x" rest with
            | Some (String c3 rest') =>
                match digit234 c3 with
                | Some n3 => if at_end rest' then Some (n1, Some n3) else None
                | None => None
                end
            | _ => if at_end rest then Some (n1, None) else None
            end
        end
    | _ => None
    end.
Proof.
  unfold mat_match.
  destruct (strip_prefix "mat" s) as [[|c1 rest]|]; try reflexivity.
  destruct (digit234 c1); [|reflexivity].
  destruct rest as [|[[|] [|] [|] [|] [|] [|] [|] [|]] [|c3 rest']];
    try reflexivity.
  all: cbn; destruct rest'; reflexivity.
Qed.

Lemma mat_match_range (s : string) (n1 : Z) (g3 : option Z) :
  mat_match s = Some (n1, g3) ->
  2 <= n1 <= 4 /\ (forall n3, g3 = Some n3 -> 2 <= n3 <= 4).
Proof.
  rewrite mat_match_unfold. intros H.
  destruct (strip_prefix "mat" s) as [[|c1 rest]|]; try discriminate.
  destruct (digit234 c1) as [m1|] eqn:Hc1; [|discriminate].
  apply digit234_range in Hc1.
  assert (Hplain : (if at_end rest then Some (m1, None) else None)
                   = Some (n1, g3) ->
                   2 <= n1 <= 4 /\ (forall n3, g3 = Some n3 -> 2 <= n3 <= 4)).
  { destruct (at_end rest); [|discriminate]. intros [= <- <-].
    split; [exact Hc1 | discriminate]. }
  destruct (strip_prefix "x" rest) as [[|c3 rest']|]; try now apply Hplain.
  destruct (digit234 c3) as [m3|] eqn:Hc3; [|discriminate].
  destruct (at_end rest'); [|discriminate]. injection H as <- <-.
  split; [exact Hc1|]. intros n3 [= <-]. eapply digit234_range; eauto.
Qed.

Lemma parse_unqualified_bounds (s : string) (d : TypeDict) :
  parse_unqualified s = Ok d -> dict_bounds d.
Proof.
  unfold parse_unqualified, key_lookup, upper_at. intros H.
  destruct (lookup_table basic_type_map s).
  { injection H as <-. unfold dict_bounds; cbn. intuition congruence. }
  destruct (vec_match s) as [[g1 [n|]]|] eqn:Hvec.
  { apply vec_match_range in Hvec.
    destruct (lookup_table basic_type_prefix_map g1); [|discriminate].
    injection H as <-. unfold dict_bounds; cbn. intuition congruence. }
  { destruct (lookup_table basic_type_prefix_map g1); [|discriminate].
    injection H as <-. unfold dict_bounds; cbn. intuition congruence. }
  destruct (mat_match s) as [[n1 g3]|] eqn:Hmat.
  { apply mat_match_range in Hmat as [Hn1 Hn3].
    destruct (Nat.eqb _ 4).
    - injection H as <-. unfold dict_bounds; cbn. intuition congruence.
    - destruct g3 as [n3|]; [|discriminate]. injection H as <-.
      specialize (Hn3 n3 eq_refl).
      unfold dict_bounds; cbn. intuition congruence. }
  destruct (gen_match s) as [g1|].
  { destruct (lookup_table basic_type_prefix_map _); [|discriminate].
    injection H as <-. unfold dict_bounds; cbn. intuition congruence. }
  destruct (startswith s "sampler").
  { destruct (slice_from 0 s); [discriminate|]. injection H as <-.
    unfold dict_bounds; cbn. intuition congruence. }
  destruct (startswith s "gsampler" || startswith s "gimage")%bool.
  { destruct (slice_from 1 s); [discriminate|]. injection H as <-.
    unfold dict_bounds; cbn. intuition congruence. }
  destruct (String.eqb s "gvec4").
  { injection H as <-. unfold dict_bounds; cbn. intuition (congruence || lia). }
  destruct (String.eqb s "gvec3"); [|discriminate].
  injection H as <-. unfold dict_bounds; cbn. intuition (congruence || lia).
Qed.

Lemma parse_type_bounds (s : string) (d : TypeDict) :
  parse_type s = Ok d -> dict_bounds d.
Proof.
  apply parse_type_cases.
  - apply parse_unqualified_bounds.
  - intros d0 q Hq. unfold dict_bounds, set_qualifier. cbn.
    intros (Hp & Hs & Hprec & _ & Hgen).
    repeat split; try assumption; try apply Hs.
    destruct Hq as [->| ->]; auto.
Qed.

(** X1: every type the parser builds has sizes between 1 and 4, the
    precision [Undefined] and one of the qualifiers [Global], [Out] and
    [InOut]; a secondary size above 1 only comes with a primary size above 1
    on a non-generic float type, and dimension-generic types have size 1. *)
Theorem parsed_type_bounds (s : string) (t : TType) :
  TType_of_string s = Ok t ->
  1 <= primarySize t <= 4
  /\ 1 <= secondarySize t <= 4
  /\ (1 < secondarySize t ->
      1 < primarySize t /\ basic t = Some "Float" /\ genType t = None)
  /\ (genType t = Some "yes" \/ genType t = Some "vec" -> primarySize t = 1)
  /\ precision t = "Undefined"
  /\ In (qualifier t) ["Global"; "Out"; "InOut"].
Proof.
  unfold TType_of_string, normalize. intros H.
  apply bind_Ok in H as (d & Hd & H). apply parse_type_bounds in Hd.
  destruct Hd as (Hp & Hs & Hprec & Hq & Hgen).
  apply bind_Ok in H as (primary & Hprimary & H). injection H as <-. cbn.
  rewrite Hprec. cbn.
  destruct (d_primarySize d) as [p|] eqn:Ep;
    destruct (d_secondarySize d) as [s2|] eqn:Es; cbn in *;
    try discriminate; injection Hprimary as <-.
  - destruct Hs as (Hs & _ & Hb & Hg).
    repeat split; try lia; try assumption.
    + intros [Hy|Hv]; rewrite Hg in *; discriminate.
    + destruct Hq as [->|[->| ->]]; cbn; auto.
  - repeat split; try lia.
    + intros Hgt. specialize (Hgen Hgt). discriminate.
    + destruct Hq as [->|[->| ->]]; cbn; auto.
  - repeat split; try lia.
    destruct Hq as [->|[->| ->]]; cbn; auto.
Qed.

Lemma parsed_type_bounds_witness :
  1 <= primarySize mat2x3_type <= 4
  /\ 1 <= secondarySize mat2x3_type <= 4
  /\ (1 < secondarySize mat2x3_type ->
      1 < primarySize mat2x3_type /\ basic mat2x3_type = Some "Float"
      /\ genType mat2x3_type = None)
  /\ (genType mat2x3_type = Some "yes" \/ genType mat2x3_type = Some "vec" ->
      primarySize mat2x3_type = 1)
  /\ precision mat2x3_type = "Undefined"
  /\ In (qualifier mat2x3_type) ["Global"; "Out"; "InOut"].
Proof.
  apply (parsed_type_bounds "mat2x3" mat2x3_type). by_compute.
Defined.

Lemma normalize_set_qualifier (d : TypeDict) (q : string) :
  normalize (set_qualifier d q) = (t ← normalize d; Ok (with_qualifier q t)).
Proof.
  unfold normalize, set_qualifier, with_qualifier. cbn.
  destruct (d_primarySize d), (d_secondarySize d); reflexivity.
Qed.

(** X2: a qualifier prefix changes the qualifier and nothing else: the type
    of ["out " ++ s] is the type of [s] with qualifier [Out], that of
    ["inout " ++ s] the type of [s] with qualifier [InOut] (so the outermost
    prefix decides), and it fails exactly as [s] does. *)
Theorem qualifier_prefix (s : string) :
  TType_of_string ("out " ++ s)
  = (t ← TType_of_string s; Ok (with_qualifier "Out" t))
  /\ TType_of_string ("inout " ++ s)
     = (t ← TType_of_string s; Ok (with_qualifier "InOut" t)).
Proof.
  unfold TType_of_string. split.
  - change (parse_type ("out " ++ s))
      with (type_obj ← parse_type s; Ok (set_qualifier type_obj "Out")).
    destruct (parse_type s) as [d|e]; [|reflexivity].
    cbn [mbind result_bind]. rewrite normalize_set_qualifier.
    now destruct (normalize d).
  - change (parse_type ("inout " ++ s))
      with (type_obj ← parse_type s; Ok (set_qualifier type_obj "InOut")).
    destruct (parse_type s) as [d|e]; [|reflexivity].
    cbn [mbind result_bind]. rewrite normalize_set_qualifier.
    now destruct (normalize d).
Qed.

Lemma prefix_split (p s : string) :
  String.prefix p s = true -> s = p ++ slice_from (String.length p) s.
Proof.
  revert s. induction p as [|a p IH]; intros [|b s] H; cbn in *;
    try reflexivity; try discriminate.
  destruct (ascii_dec a b) as [->|]; [|discriminate].
  change (String b s = String b (p ++ slice_from (String.length p) s)).
  now rewrite <- IH.
Qed.

Lemma strip_prefix_app (p s rest : string) :
  strip_prefix p s = Some rest -> s = p ++ rest.
Proof.
  unfold strip_prefix, startswith. intros H.
  destruct (String.prefix p s) eqn:Hp; [|discriminate]. injection H as <-.
  now apply prefix_split.
Qed.

(** A failure of [parse_type] is the failure of the token left once the
    qualifier prefixes are peeled off. *)
Lemma parse_type_error (s : string) (e : error) :
  parse_type s = Err e ->
  exists prefix tok, s = prefix ++ tok /\ parse_unqualified tok = Err e.
Proof.
  remember (String.length s) as n eqn:Hn. revert s Hn.
  induction n as [n IH] using lt_wf_ind. intros s -> H.
  rewrite parse_type_unfold in H.
  assert (Hrec : forall p rest,
             p <> "" -> strip_prefix p s = Some rest ->
             parse_type rest = Err e ->
             exists prefix tok,
               s = prefix ++ tok /\ parse_unqualified tok = Err e).
  { intros p rest Hp Hstrip Hrest.
    pose proof (strip_prefix_shorter _ _ _ Hstrip) as Hlen.
    apply strip_prefix_app in Hstrip.
    destruct (IH (String.length rest)) with (s := rest)
      as (prefix & tok & -> & Htok); auto.
    { destruct p; [congruence|]. cbn in Hlen. lia. }
    exists (p ++ prefix), tok. split; [|exact Htok].
    now rewrite append_assoc. }
  destruct (strip_prefix "out " s) as [rest|] eqn:Hout.
  { apply (Hrec "out " rest); [discriminate|exact Hout|].
    destruct (parse_type rest); [discriminate|]. apply H. }
  destruct (strip_prefix "inout " s) as [rest|] eqn:Hinout.
  { apply (Hrec "inout " rest); [discriminate|exact Hinout|].
    destruct (parse_type rest); [discriminate|]. apply H. }
  exists "", s. split; [reflexivity | exact H].
Qed.

Lemma optional_char_group (cls : list ascii) (s g rest : string) :
  optional_char cls s = (g, rest) ->
  g = "" \/ exists c, In c cls /\ g = String c "".
Proof.
  unfold optional_char. destruct s as [|c s]; [intros [= <- _]; now left|].
  destruct (existsb (Ascii.eqb c) cls) eqn:Hc; intros [= <- _]; [|now left].
  right. apply existsb_exists in Hc as (c' & Hin & Heq).
  apply Ascii.eqb_eq in Heq. subst c'. eauto.
Qed.

Lemma vec_match_group (s g1 : string) (g2 : option Z) :
  vec_match s = Some (g1, g2) ->
  is_ok (key_lookup basic_type_prefix_map g1) = true.
Proof.
  unfold vec_match. intros H.
  destruct (optional_char _ s) as [g rest] eqn:Hopt.
  apply optional_char_group in Hopt.
  assert (g1 = g) as ->.
  { destruct (strip_prefix "vec" rest) as [[|c rest']|]; try discriminate.
    - congruence.
    - destruct (digit234 c); destruct (at_end _); congruence. }
  destruct Hopt as [->|(c & Hin & ->)]; [reflexivity|].
  destruct Hin as [<-|[<-|[<-|[]]]]; reflexivity.
Qed.

Lemma gen_match_group (s g1 : string) :
  gen_match s = Some g1 ->
  is_ok (key_lookup basic_type_prefix_map (string_lower g1)) = true.
Proof.
  unfold gen_match. intros H.
  destruct (strip_prefix "gen" s) as [rest|]; [|discriminate].
  destruct (optional_char _ rest) as [g rest'] eqn:Hopt.
  apply optional_char_group in Hopt.
  assert (g1 = g) as ->.
  { destruct (strip_prefix "Type" rest'); [|discriminate].
    destruct (at_end _); congruence. }
  destruct Hopt as [->|(c & Hin & ->)]; [reflexivity|].
  destruct Hin as [<-|[<-|[<-|[]]]]; reflexivity.
Qed.

Lemma at_end_cases (s : string) : at_end s = true -> s = "" \/ s = nl.
Proof.
  destruct s as [|c [|c' s]]; cbn; auto; [|destruct c as [[|] [|] [|] [|] [|] [|] [|] [|]]; discriminate].
  destruct c as [[|] [|] [|] [|] [|] [|] [|] [|]]; try discriminate. auto.
Qed.

(** The pattern of a matrix token only fails to give a second size on a
    token of four characters, or on one that ends with a newline. *)
Lemma mat_match_newline (s : string) (n1 : Z) :
  mat_match s = Some (n1, None) ->
  String.length s = 4%nat \/ exists head, s = head ++ nl.
Proof.
  rewrite mat_match_unfold. intros H.
  destruct (strip_prefix "mat" s) as [[|c1 rest]|] eqn:Hmat; try discriminate.
  apply strip_prefix_app in Hmat.
  destruct (digit234 c1); [|discriminate].
  assert (Hend : at_end rest = true).
  { destruct (strip_prefix "x" rest) as [[|c3 rest']|].
    - destruct (at_end rest); [reflexivity | discriminate].
    - destruct (digit234 c3); [|discriminate].
      destruct (at_end rest'); discriminate.
    - destruct (at_end rest); [reflexivity | discriminate]. }
  apply at_end_cases in Hend as [->| ->].
  - left. now subst s.
  - right. exists ("mat" ++ String c1 ""). now subst s.
Qed.

Lemma parse_unqualified_error (tok : string) (e : error) :
  parse_unqualified tok = Err e ->
  e = UnrecognizedType tok
  \/ (e = TypeError /\ exists head, tok = head ++ nl).
Proof.
  unfold parse_unqualified. intros H.
  destruct (lookup_table basic_type_map tok); [discriminate|].
  destruct (vec_match tok) as [[g1 g2]|] eqn:Hvec.
  { apply vec_match_group in Hvec.
    destruct (key_lookup basic_type_prefix_map g1); [|discriminate].
    destruct g2; discriminate. }
  destruct (mat_match tok) as [[n1 g3]|] eqn:Hmat.
  { destruct (Nat.eqb_spec (String.length tok) 4) as [|Hlen]; [discriminate|].
    destruct g3; [discriminate|]. injection H as <-. right.
    split; [reflexivity|].
    apply mat_match_newline in Hmat as [Hfour|Hnl]; [contradiction | exact Hnl]. }
  destruct (gen_match tok) as [g1|] eqn:Hgen.
  { apply gen_match_group in Hgen.
    destruct (key_lookup basic_type_prefix_map _); discriminate. }
  destruct (startswith tok "sampler") eqn:Hs.
  { destruct tok; [discriminate Hs | discriminate H]. }
  destruct (startswith tok "gsampler" || startswith tok "gimage")%bool eqn:Hg.
  { destruct tok as [|c [|c' tok]]; [discriminate Hg| |discriminate H].
    exfalso. revert Hg. unfold startswith.
    change (String.prefix "gsampler" (String c ""))
      with (if ascii_dec "g" c then String.prefix "sampler" "" else false).
    change (String.prefix "gimage" (String c ""))
      with (if ascii_dec "g" c then String.prefix "image" "" else false).
    destruct (ascii_dec "g" c); discriminate. }
  destruct (String.eqb tok "gvec4"); [discriminate|].
  destruct (String.eqb tok "gvec3"); [discriminate|].
  injection H as <-. now left.
Qed.

Lemma unqualified_unfold (s : string) :
  unqualified s
  = match strip_prefix "out " s with
    | Some rest => unqualified rest
    | None =>
        match strip_prefix "inout " s with
        | Some rest => unqualified rest
        | None => s
        end
    end.
Proof.
  do 4 next_char s.
  - destruct s; reflexivity.
  - do 2 next_char s. destruct s; reflexivity.
Qed.

(** A failure of [parse_type] is the failure of the text without its
    qualifier prefixes. *)
Lemma parse_type_error_unqualified (s : string) (e : error) :
  parse_type s = Err e -> parse_unqualified (unqualified s) = Err e.
Proof.
  remember (String.length s) as n eqn:Hn. revert s Hn.
  induction n as [n IH] using lt_wf_ind. intros s -> H.
  rewrite parse_type_unfold in H. rewrite unqualified_unfold.
  assert (Hrec : forall p rest,
             p <> "" -> strip_prefix p s = Some rest ->
             parse_type rest = Err e ->
             parse_unqualified (unqualified rest) = Err e).
  { intros p rest Hp Hstrip Hrest.
    pose proof (strip_prefix_shorter _ _ _ Hstrip) as Hlen.
    apply (IH (String.length rest)); auto.
    destruct p; [congruence|]. cbn in Hlen. lia. }
  destruct (strip_prefix "out " s) as [rest|] eqn:Hout.
  { apply (Hrec "out " rest); [discriminate|exact Hout|].
    destruct (parse_type rest); [discriminate|]. apply H. }
  destruct (strip_prefix "inout " s) as [rest|] eqn:Hinout.
  { apply (Hrec "inout " rest); [discriminate|exact Hinout|].
    destruct (parse_type rest); [discriminate|]. apply H. }
  exact H.
Qed.

(** X3: the type parser fails in two ways only: on a text that, once its
    leading [out] and [inout] prefixes are removed, is a token it does not
    recognise, and the exception names exactly that token; or, when what is
    left ends with a newline, with a [TypeError].  It never fails with a
    [KeyError], an [IndexError] or the secondary-size exception of
    [normalize]. *)
Theorem parse_failures (s : string) (e : error) :
  TType_of_string s = Err e ->
  e = UnrecognizedType (unqualified s)
  \/ (e = TypeError /\ exists head, unqualified s = head ++ nl).
Proof.
  unfold TType_of_string. intros H.
  destruct (parse_type s) as [d|e'] eqn:Hparse.
  { apply TType_of_string_normalizes in Hparse. cbn [mbind result_bind] in H.
    rewrite H in Hparse. discriminate. }
  injection H as ->.
  apply parse_type_error_unqualified in Hparse.
  now apply parse_unqualified_error in Hparse.
Qed.

Lemma parse_failures_witness :
  UnrecognizedType "vec5" = UnrecognizedType (unqualified "out inout vec5")
  \/ (UnrecognizedType "vec5" = TypeError
      /\ exists head, unqualified "out inout vec5" = head ++ nl).
Proof.
  apply (parse_failures "out inout vec5" (UnrecognizedType "vec5")).
  by_compute.
Defined.

Example unqualified_texts :
  unqualified "out inout vec5" = "vec5"
  /\ unqualified "float out" = "float out"
  /\ unqualified "inout" = "inout".
Proof. repeat split; reflexivity. Qed.

(** ** Mangled names decode *)

Lemma has_char_app (c : ascii) (a b : string) :
  has_char c (a ++ b) = (has_char c a || has_char c b)%bool.
Proof.
  induction a as [|x a IH]; [reflexivity|].
  change (String x a ++ b) with (String x (a ++ b)). cbn [has_char].
  rewrite IH. now rewrite orb_assoc.
Qed.

(** A string is cut in one way only at the first occurrence of a
    character. *)
Lemma split_at_char (c : ascii) (a a' x x' : string) :
  has_char c a = false -> has_char c a' = false ->
  a ++ String c x = a' ++ String c x' -> a = a' /\ x = x'.
Proof.
  revert a'. induction a as [|y a IH]; intros [|y' a'] Ha Ha' H.
  - injection H as <-. auto.
  - injection H as <- _. cbn in Ha'. now rewrite Ascii.eqb_refl in Ha'.
  - injection H as -> _. cbn in Ha. now rewrite Ascii.eqb_refl in Ha.
  - injection H as <- H. cbn in Ha, Ha'.
    apply orb_false_iff in Ha as [_ Ha]. apply orb_false_iff in Ha' as [_ Ha'].
    destruct (IH a' Ha Ha' H) as [-> ->]. auto.
Qed.

Lemma terminated_cons (c : ascii) (token : string) (tokens : list string) :
  terminated (String c "") (token :: tokens)
  = token ++ String c (terminated (String c "") tokens).
Proof. reflexivity. Qed.

Lemma terminated_inj (c : ascii) (ts ts' : list string) :
  Forall (fun t => has_char c t = false) ts ->
  Forall (fun t => has_char c t = false) ts' ->
  terminated (String c "") ts = terminated (String c "") ts' -> ts = ts'.
Proof.
  intros Hts. revert ts'. induction Hts as [|t ts Ht Hts IH];
    intros ts' Hts' H; destruct Hts' as [|t' ts' Ht' Hts'].
  - reflexivity.
  - rewrite terminated_cons in H. destruct t'; discriminate H.
  - rewrite terminated_cons in H. destruct t; discriminate H.
  - rewrite !terminated_cons in H.
    destruct (split_at_char _ _ _ _ _ Ht Ht' H) as [-> Hrest].
    f_equal. now apply IH.
Qed.

(** Size digits in front of a kind code are read back in one way. *)
Lemma digits_split (d d' code code' : string) :
  size_digits d = true -> size_digits d' = true ->
  opens_with_letter code = true -> opens_with_letter code' = true ->
  d ++ code = d' ++ code' -> d = d' /\ code = code'.
Proof.
  revert d'. induction d as [|y d IH]; intros [|y' d'] Hd Hd' Hc Hc' H.
  - auto.
  - exfalso. change (code = String y' (d' ++ code')) in H. subst code.
    cbn [opens_with_letter] in Hc. cbn [size_digits] in Hd'.
    destruct (size_digit y'); discriminate.
  - exfalso. change (String y (d ++ code) = code') in H. subst code'.
    cbn [opens_with_letter] in Hc'. cbn [size_digits] in Hd.
    destruct (size_digit y); discriminate.
  - injection H as <- H. cbn [size_digits] in Hd, Hd'.
    apply andb_true_iff in Hd as [_ Hd]. apply andb_true_iff in Hd' as [_ Hd'].
    destruct (IH d' Hd Hd' Hc Hc' H) as [-> ->]. auto.
Qed.

Lemma lookup_table_In (table : list (string * string)) (key value : string) :
  lookup_table table key = Some value -> In (key, value) table.
Proof.
  induction table as [|[k v] table IH]; [discriminate|]. cbn.
  destruct (String.eqb_spec k key) as [->|_].
  - intros [= ->]. now left.
  - intros H. right. now apply IH.
Qed.

Lemma codes_decodable : forallb code_decodable basic_mangled_names = true.
Proof. by_compute. Qed.

Lemma kind_code_decodable (b code : string) :
  key_lookup basic_mangled_names b = Ok code ->
  code_decodable (b, code) = true.
Proof.
  unfold key_lookup. intros H.
  destruct (lookup_table basic_mangled_names b) as [v|] eqn:Hv; [|discriminate].
  injection H as ->. apply lookup_table_In in Hv.
  exact (proj1 (forallb_forall _ _) codes_decodable _ Hv).
Qed.

Lemma sized_cases (t : TType) :
  sized t ->
  In (primarySize t) [1; 2; 3; 4] /\ In (secondarySize t) [1; 2; 3; 4].
Proof. unfold sized. cbn. lia. Qed.

Lemma size_prefix_digits (t : TType) :
  sized t ->
  size_digits (size_prefix t) = true
  /\ has_char ";" (size_prefix t) = false
  /\ has_char "_" (size_prefix t) = false.
Proof.
  intros [Hp Hs]%sized_cases. unfold size_prefix, is_matrix.
  cbn in Hp, Hs.
  destruct Hp as [<-|[<-|[<-|[<-|[]]]]], Hs as [<-|[<-|[<-|[<-|[]]]]];
    repeat split; by_compute.
Qed.

Lemma size_prefix_inj (a b : TType) :
  sized a -> sized b -> size_prefix a = size_prefix b ->
  primarySize a = primarySize b /\ secondarySize a = secondarySize b.
Proof.
  intros [Hp Hs]%sized_cases [Hp' Hs']%sized_cases.
  unfold size_prefix, is_matrix. cbn in Hp, Hs, Hp', Hs'.
  destruct Hp as [<-|[<-|[<-|[<-|[]]]]], Hs as [<-|[<-|[<-|[<-|[]]]]];
    destruct Hp' as [<-|[<-|[<-|[<-|[]]]]], Hs' as [<-|[<-|[<-|[<-|[]]]]];
    vm_compute; intros H; try discriminate H; split; reflexivity.
Qed.

Lemma mangled_token_parts (t : TType) (token : string) :
  mangled_token t = Ok token ->
  exists b code,
    basic t = Some b /\ key_lookup basic_mangled_names b = Ok code
    /\ token = size_prefix t ++ code.
Proof.
  unfold mangled_token, get_mangled_name, get_basic. intros H.
  destruct (basic t) as [b|]; [|discriminate]. cbn [mbind result_bind] in H.
  destruct (key_lookup basic_mangled_names b) as [code|] eqn:Hcode;
    [|discriminate].
  injection H as <-. exists b, code. repeat split; auto.
  now rewrite append_empty_r.
Qed.

Lemma mangled_token_separator_free (t : TType) (token : string) :
  sized t -> mangled_token t = Ok token ->
  has_char ";" token = false /\ has_char "_" token = false.
Proof.
  intros Hsized (b & code & _ & Hcode & ->)%mangled_token_parts.
  destruct (size_prefix_digits t Hsized) as (_ & Hsemi & Hunder).
  apply kind_code_decodable in Hcode. unfold code_decodable in Hcode.
  cbn [fst snd] in Hcode.
  apply andb_true_iff in Hcode as [Hcode _].
  apply andb_true_iff in Hcode as [Hcode Hu].
  apply andb_true_iff in Hcode as [_ Hs].
  apply negb_true_iff in Hu, Hs.
  rewrite !has_char_app, Hsemi, Hunder, Hu, Hs. auto.
Qed.

(** A mangled token names the kind and both sizes of its type. *)
Lemma mangled_token_inj (a b : TType) (token : string) :
  sized a -> sized b ->
  mangled_token a = Ok token -> mangled_token b = Ok token ->
  same_kind a b.
Proof.
  intros Ha Hb (ba & ca & Hba & Hca & ->)%mangled_token_parts
         (bb & cb & Hbb & Hcb & Heq)%mangled_token_parts.
  apply kind_code_decodable in Hca, Hcb. unfold code_decodable in Hca, Hcb.
  cbn [fst snd] in Hca, Hcb.
  apply andb_true_iff in Hca as [Hca Hinva], Hcb as [Hcb Hinvb].
  apply andb_true_iff in Hca as [Hca _], Hcb as [Hcb _].
  apply andb_true_iff in Hca as [Hla _], Hcb as [Hlb _].
  apply bool_decide_eq_true in Hinva, Hinvb.
  destruct (digits_split _ _ _ _
              (proj1 (size_prefix_digits a Ha))
              (proj1 (size_prefix_digits b Hb)) Hla Hlb Heq)
    as [Hprefix ->].
  destruct (size_prefix_inj a b Ha Hb Hprefix) as [Hp Hs].
  repeat split; auto. congruence.
Qed.

Lemma mangled_tokens_inj (ps qs : list TType) (tokens : list string) :
  Forall sized ps -> Forall sized qs ->
  mapM mangled_token ps = Ok tokens -> mapM mangled_token qs = Ok tokens ->
  Forall2 same_kind ps qs.
Proof.
  intros Hps. revert qs tokens.
  induction Hps as [|p ps Hp Hps IH]; intros qs tokens Hqs H H';
    destruct Hqs as [|q qs Hq Hqs].
  - constructor.
  - injection H as <-. rewrite mapM_cons in H'.
    destruct (mangled_token q); [|discriminate].
    destruct (mapM mangled_token qs); discriminate.
  - injection H' as <-. rewrite mapM_cons in H.
    destruct (mangled_token p); [|discriminate].
    destruct (mapM mangled_token ps); discriminate.
  - rewrite mapM_cons in H, H'.
    destruct (mangled_token p) as [tp|] eqn:Htp; [|discriminate].
    destruct (mapM mangled_token ps) as [tps|] eqn:Htps; [|discriminate].
    destruct (mangled_token q) as [tq|] eqn:Htq; [|discriminate].
    destruct (mapM mangled_token qs) as [tqs|] eqn:Htqs; [|discriminate].
    cbn in H, H'. injection H as <-. injection H' as -> ->.
    constructor; [eapply mangled_token_inj; eauto | eapply IH; eauto].
Qed.

Lemma mangled_tokens_separator_free (ps : list TType) (tokens : list string) :
  Forall sized ps -> mapM mangled_token ps = Ok tokens ->
  Forall (fun t => has_char ";" t = false) tokens
  /\ Forall (fun t => has_char "_" t = false) tokens.
Proof.
  intros Hps. revert tokens.
  induction Hps as [|p ps Hp Hps IH]; intros tokens H.
  - injection H as <-. split; constructor.
  - rewrite mapM_cons in H.
    destruct (mangled_token p) as [tp|] eqn:Htp; [|discriminate].
    destruct (mapM mangled_token ps) as [tps|] eqn:Htps; [|discriminate].
    cbn in H. injection H as <-.
    destruct (mangled_token_separator_free p tp Hp Htp) as [Hs Hu].
    destruct (IH tps eq_refl) as [IHs IHu].
    split; constructor; auto.
Qed.

Lemma mangled_token_same_kind (a b : TType) :
  same_kind a b -> mangled_token a = mangled_token b.
Proof.
  intros (Hb & Hp & Hs).
  unfold mangled_token, get_mangled_name, size_prefix, is_matrix, get_basic.
  now rewrite Hb, Hp, Hs.
Qed.

Lemma mangled_tokens_same_kind (ps qs : list TType) :
  Forall2 same_kind ps qs -> mapM mangled_token ps = mapM mangled_token qs.
Proof.
  induction 1 as [|a b ps qs Hab _ IH]; [reflexivity|].
  rewrite !mapM_cons, IH. now rewrite (mangled_token_same_kind a b).
Qed.

(** X4: the mangled name of a function stands for its name and the kinds
    and sizes of its parameters, and for nothing else: for names without an
    opening parenthesis and parameters with sizes from 1 to 4, a second call
    of [get_function_mangled_name] returns the same text exactly when it is
    given the same name and parameters of the same kinds and sizes, one by
    one.  Overloads that differ in a kind or a size never share a mangled
    name. *)
Theorem mangled_name_decodes (n1 n2 : string) (ps qs : list TType)
    (mangled : string) :
  has_char "(" n1 = false -> has_char "(" n2 = false ->
  Forall sized ps -> Forall sized qs ->
  get_function_mangled_name n1 ps = Ok mangled ->
  get_function_mangled_name n2 qs = Ok mangled
  <-> n1 = n2 /\ Forall2 same_kind ps qs.
Proof.
  intros Hn1 Hn2 Hps Hqs H1. split.
  - intros H2. rewrite get_function_mangled_name_closed in H1, H2.
    destruct (mapM mangled_token ps) as [tps|] eqn:Htps; [|discriminate].
    destruct (mapM mangled_token qs) as [tqs|] eqn:Htqs; [|discriminate].
    cbn in H1, H2. injection H1 as <-. injection H2 as H.
    destruct (split_at_char "(" n2 n1 _ _ Hn2 Hn1 H) as [-> Hrest].
    split; [reflexivity|].
    destruct (mangled_tokens_separator_free ps tps Hps Htps) as [Hs _].
    destruct (mangled_tokens_separator_free qs tqs Hqs Htqs) as [Hs' _].
    apply (terminated_inj ";"%char) in Hrest; auto. subst tqs.
    eapply mangled_tokens_inj; eauto.
  - intros [<- Hsame]. rewrite get_function_mangled_name_closed in *.
    now rewrite <- (mangled_tokens_same_kind ps qs Hsame).
Qed.

Lemma mangled_name_decodes_witness :
  get_function_mangled_name "mix" [mat3_type; float_type] = Ok "mix(33f;f;"
  <-> "mix" = "mix"
      /\ Forall2 same_kind [mat3_type; out_float_type] [mat3_type; float_type].
Proof.
  apply (mangled_name_decodes "mix" "mix" [mat3_type; out_float_type]
           [mat3_type; float_type] "mix(33f;f;").
  - by_compute.
  - by_compute.
  - repeat constructor; cbn; lia.
  - repeat constructor; cbn; lia.
  - by_compute.
Defined.

Lemma get_unique_identifier_name_inj (function_name : string)
    (ps qs : list TType) (unique_name : string) :
  Forall sized ps -> Forall sized qs ->
  get_unique_identifier_name function_name ps = Ok unique_name ->
  get_unique_identifier_name function_name qs = Ok unique_name ->
  Forall2 same_kind ps qs.
Proof.
  intros Hps Hqs H1 H2.
  rewrite get_unique_identifier_name_closed in H1, H2.
  destruct (mapM mangled_token ps) as [tps|] eqn:Htps; [|discriminate].
  destruct (mapM mangled_token qs) as [tqs|] eqn:Htqs; [|discriminate].
  cbn in H1, H2. injection H1 as <-. injection H2 as H.
  assert (Hrest : terminated "_" tqs = terminated "_" tps).
  { clear -H. induction function_name as [|c n IH]; [now injection H|].
    injection H as H. auto. }
  destruct (mangled_tokens_separator_free ps tps Hps Htps) as [_ Hu].
  destruct (mangled_tokens_separator_free qs tqs Hqs Htqs) as [_ Hu'].
  apply (terminated_inj "_"%char) in Hrest; auto. subst tqs.
  eapply mangled_tokens_inj; eauto.
Qed.

(** X5: under one function name the unique identifier name stands for
    the kinds and sizes of the parameters: for parameter lists with sizes
    from 1 to 4, a second list gets the same identifier name exactly when
    it agrees with the first, one by one, in kind and sizes. *)
Theorem unique_name_decodes (function_name : string) (ps qs : list TType)
    (unique_name : string) :
  Forall sized ps -> Forall sized qs ->
  get_unique_identifier_name function_name ps = Ok unique_name ->
  get_unique_identifier_name function_name qs = Ok unique_name
  <-> Forall2 same_kind ps qs.
Proof.
  intros Hps Hqs H1. split.
  - intros H2. exact (get_unique_identifier_name_inj _ _ _ _ Hps Hqs H1 H2).
  - intros Hsame. rewrite get_unique_identifier_name_closed in *.
    now rewrite <- (mangled_tokens_same_kind ps qs Hsame).
Qed.

Lemma unique_name_decodes_witness :
  get_unique_identifier_name "mix" [mat3_type; float_type] = Ok "mix_33f_f_"
  <-> Forall2 same_kind [mat3_type; out_float_type] [mat3_type; float_type].
Proof.
  apply (unique_name_decodes "mix" [mat3_type; out_float_type]
           [mat3_type; float_type] "mix_33f_f_").
  - repeat constructor; cbn; lia.
  - repeat constructor; cbn; lia.
  - by_compute.
Defined.

(** ** The variants of one declaration *)

Lemma mapM_elem {A B : Type} (f : A -> result B) (xs : list A) (ys : list B)
    (y : B) :
  mapM f xs = Ok ys -> In y ys -> exists x, In x xs /\ f x = Ok y.
Proof.
  intros H%mapM_Ok. induction H as [|x y' xs ys Hy _ IH]; intros Hin.
  - destruct Hin.
  - destruct Hin as [->|Hin]; [exists x; simpl; auto|].
    destruct (IH Hin) as (x' & Hx' & Hfx'). exists x'. simpl. auto.
Qed.

(** A fallible map that sends distinct elements to distinct results keeps a
    list free of duplicates. *)
Lemma mapM_NoDup {A B : Type} (f : A -> result B) (xs : list A) (ys : list B) :
  (forall x x' y, In x xs -> In x' xs -> f x = Ok y -> f x' = Ok y -> x = x') ->
  NoDup xs -> mapM f xs = Ok ys -> NoDup ys.
Proof.
  revert ys. induction xs as [|x xs IH]; intros ys Hinj Hnd H.
  - injection H as <-. constructor.
  - rewrite mapM_cons in H. apply bind_Ok in H as (y & Hy & H).
    apply bind_Ok in H as (ys' & Hys & H). injection H as <-.
    apply NoDup_cons in Hnd as [Hx Hnd]. apply NoDup_cons. split.
    + intros Hin%list_elem_of_In.
      destruct (mapM_elem _ _ _ _ Hys Hin) as (x' & Hx' & Hfx').
      apply Hx, list_elem_of_In.
      rewrite (Hinj x x' y); simpl; auto.
    + apply IH; auto. intros a a' b Ha Ha'. apply Hinj; simpl; auto.
Qed.

Lemma mapM_compose {A B C : Type} (f : A -> result B) (g : B -> result C)
    (xs : list A) (ys : list B) (zs : list C) :
  mapM f xs = Ok ys -> mapM g ys = Ok zs ->
  mapM (fun x => y ← f x; g y) xs = Ok zs.
Proof.
  revert ys zs. induction xs as [|x xs IH]; intros ys zs Hf Hg.
  - injection Hf as <-. exact Hg.
  - rewrite mapM_cons in Hf. apply bind_Ok in Hf as (y & Hy & Hf).
    apply bind_Ok in Hf as (ys' & Hys & Hf). injection Hf as <-.
    rewrite mapM_cons in Hg. apply bind_Ok in Hg as (z & Hz & Hg).
    apply bind_Ok in Hg as (zs' & Hzs & Hg). injection Hg as <-.
    rewrite mapM_cons, Hy. cbn [mbind result_bind]. rewrite Hz.
    cbn [mbind result_bind]. now rewrite (IH ys' zs').
Qed.

(** Two specialisations that disagree on some parameter give parameter
    lists that disagree. *)
Lemma specialisations_differ (f f' : TType -> result TType)
    (ps qs qs' : list TType) :
  Exists (fun p => forall q q',
            f p = Ok q -> f' p = Ok q' -> ~ same_kind q q') ps ->
  mapM f ps = Ok qs -> mapM f' ps = Ok qs' -> ~ Forall2 same_kind qs qs'.
Proof.
  intros Hex. revert qs qs'.
  induction Hex as [p ps Hp|p ps _ IH]; intros qs qs' H H' Hsame;
    rewrite mapM_cons in H, H';
    apply bind_Ok in H as (q & Hq & H); apply bind_Ok in H as (r & Hr & H);
    apply bind_Ok in H' as (q' & Hq' & H');
    apply bind_Ok in H' as (r' & Hr' & H');
    injection H as <-; injection H' as <-;
    apply Forall2_cons in Hsame as [Hhead Htail].
  - exact (Hp q q' Hq Hq' Hhead).
  - exact (IH r r' Hr Hr' Htail).
Qed.

Lemma specific_type_generic (t q : TType) (n : Z) :
  genType t <> None -> specific_type t n = Ok q ->
  primarySize q = n /\ secondarySize q = 1.
Proof.
  unfold specific_type, get_basic. intros Hg H.
  destruct (genType t); [|contradiction].
  destruct (basic t); [|discriminate]. injection H as <-. auto.
Qed.

Lemma specific_type_sized (t q : TType) (n : Z) :
  1 <= n <= 4 -> sized t -> specific_type t n = Ok q -> sized q.
Proof.
  intros Hn Ht H. destruct (genType t) as [g|] eqn:Hg.
  - apply specific_type_generic in H as [Hp Hs]; [|congruence].
    unfold sized. lia.
  - unfold specific_type in H. rewrite Hg in H. congruence.
Qed.

Lemma to_family_sized (prefix : string) (t : TType) :
  sized t -> sized (to_family prefix t).
Proof.
  unfold to_family, sized. intros Ht.
  destruct (genType t); [|exact Ht]. destruct (basic t); cbn; lia.
Qed.

Lemma to_family_differs (prefix prefix' : string) (t : TType) :
  In prefix [""; "I"; "U"] -> In prefix' [""; "I"; "U"] ->
  prefix <> prefix' -> genType t <> None ->
  ~ same_kind (to_family prefix t) (to_family prefix' t).
Proof.
  unfold to_family, same_kind. intros Hp Hp' Hne Hg [Hb _].
  destruct (genType t); [|contradiction].
  destruct Hp as [<-|[<-|[<-|[]]]], Hp' as [<-|[<-|[<-|[]]]];
    try contradiction; destruct (basic t) as [b|]; try discriminate Hb;
    vm_compute in Hb; injection Hb as Hb;
    apply (f_equal String.length) in Hb; cbn in Hb; lia.
Qed.

Lemma size_variant_parameters (decl v : FunctionProps) (n : Z) :
  size_variant decl n = Ok v ->
  mapM (fun p => specific_type p n) (parameters decl) = Ok (parameters v).
Proof.
  unfold size_variant, get_parameters. intros H.
  apply bind_Ok in H as (ps & Hps & H). apply bind_Ok in H as (r & _ & H).
  injection H as <-. exact Hps.
Qed.

Lemma sampler_variant_parameters (decl v : FunctionProps) (prefix : string) :
  In prefix [""; "I"; "U"] ->
  sampler_variant decl prefix = Ok v ->
  parameters v = map (to_family prefix) (parameters decl).
Proof.
  intros Hprefix H. rewrite (sampler_variant_family _ _ Hprefix) in H.
  now injection H as <-.
Qed.

Lemma generic_parameter (params : list TType) :
  generic_tags params <> ∅ -> Exists (fun p => genType p <> None) params.
Proof.
  intros Htags. induction params as [|p params IH]; [now destruct Htags|].
  destruct (genType p) as [g|] eqn:Hg.
  - left. congruence.
  - right. apply IH. rewrite generic_tags_cons, Hg in Htags. exact Htags.
Qed.

Lemma size_variant_names_inj (unique_prefix : string) (decl : FunctionProps)
    (n m : Z) (unique_name : string) :
  Forall sized (parameters decl) ->
  Exists (fun p => genType p <> None) (parameters decl) ->
  1 <= n <= 4 -> 1 <= m <= 4 ->
  (v ← size_variant decl n;
   get_unique_identifier_name unique_prefix (parameters v)) = Ok unique_name ->
  (v ← size_variant decl m;
   get_unique_identifier_name unique_prefix (parameters v)) = Ok unique_name ->
  n = m.
Proof.
  intros Hsized Hgen Hn Hm H H'.
  apply bind_Ok in H as (v & Hv & H). apply bind_Ok in H' as (v' & Hv' & H').
  apply size_variant_parameters in Hv, Hv'.
  destruct (Z.eq_dec n m) as [|Hne]; [assumption|]. exfalso.
  refine (specialisations_differ _ _ _ _ _ _ Hv Hv' _).
  - eapply Exists_impl; [exact Hgen|]. cbn. intros p Hp q q' Hq Hq' [_ [Hsame _]].
    apply specific_type_generic in Hq as [Hq _]; [|exact Hp].
    apply specific_type_generic in Hq' as [Hq' _]; [|exact Hp]. lia.
  - eapply get_unique_identifier_name_inj; eauto.
    + apply mapM_Ok in Hv. clear -Hv Hsized Hn.
      induction Hv as [|p q ps qs Hq _ IH]; constructor;
        apply Forall_cons in Hsized as [Hp Hps]; auto.
      eapply specific_type_sized; eauto.
    + apply mapM_Ok in Hv'. clear -Hv' Hsized Hm.
      induction Hv' as [|p q ps qs Hq _ IH]; constructor;
        apply Forall_cons in Hsized as [Hp Hps]; auto.
      eapply specific_type_sized; eauto.
Qed.

Lemma sampler_variant_names_inj (unique_prefix : string)
    (decl : FunctionProps) (prefix prefix' : string) (unique_name : string) :
  Forall sized (parameters decl) ->
  Exists (fun p => genType p <> None) (parameters decl) ->
  In prefix [""; "I"; "U"] -> In prefix' [""; "I"; "U"] ->
  (v ← sampler_variant decl prefix;
   get_unique_identifier_name unique_prefix (parameters v)) = Ok unique_name ->
  (v ← sampler_variant decl prefix';
   get_unique_identifier_name unique_prefix (parameters v)) = Ok unique_name ->
  prefix = prefix'.
Proof.
  intros Hsized Hgen Hp Hp' H H'.
  apply bind_Ok in H as (v & Hv & H). apply bind_Ok in H' as (v' & Hv' & H').
  apply sampler_variant_parameters in Hv, Hv'; auto.
  rewrite Hv in H. rewrite Hv' in H'.
  destruct (string_dec prefix prefix') as [|Hne]; [assumption|]. exfalso.
  assert (Hsame : Forall2 same_kind
                    (map (to_family prefix) (parameters decl))
                    (map (to_family prefix') (parameters decl))).
  { eapply get_unique_identifier_name_inj; eauto;
      apply Forall_map; (eapply Forall_impl; [exact Hsized|]);
      intros p; apply to_family_sized. }
  clear -Hsame Hgen Hp Hp' Hne.
  induction Hgen as [p ps Hg|p ps _ IH]; cbn in Hsame;
    apply Forall2_cons in Hsame as [Hhead Htail]; [|auto].
  exact (to_family_differs _ _ _ Hp Hp' Hne Hg Hhead).
Qed.

(** X6: the variants of one declaration never collide: when the parameters
    have sizes from 1 to 4 and the expansion succeeds, the unique identifier
    names of the variants, built on any one name, are pairwise distinct, so
    that no variant is skipped as already defined because of a sibling. *)
Theorem variants_have_distinct_names (function_name unique_prefix : string)
    (decl : FunctionProps) (variants : list FunctionProps)
    (names : list string) :
  Forall sized (parameters decl) ->
  gen_function_variants function_name decl = Ok variants ->
  mapM (fun v => get_unique_identifier_name unique_prefix (parameters v))
       variants = Ok names ->
  NoDup names.
Proof.
  intros Hsized Hrun Hnames.
  unfold gen_function_variants, get_parameters in Hrun. cbv zeta in Hrun.
  apply bind_Ok in Hrun as (gen_type & Hscan & Hrun).
  apply scan_params_Ok in Hscan as [-> Hsize].
  destruct (Nat.eqb_spec (size (generic_tags (parameters decl))) 0) as [Hz|Hnz].
  { injection Hrun as <-. cbn in Hnames.
    destruct (get_unique_identifier_name _ _); [|discriminate].
    injection Hnames as <-. apply NoDup_singleton. }
  assert (Hgen : Exists (fun p => genType p <> None) (parameters decl)).
  { apply generic_parameter. intros Hempty. apply Hnz.
    rewrite Hempty. apply size_empty. }
  destruct (bool_decide ("sampler_or_image" ∈ generic_tags (parameters decl))).
  - pose proof (mapM_compose _ _ _ _ _ Hrun Hnames) as Hall.
    eapply mapM_NoDup; [|
      |exact Hall].
    + intros prefix prefix' unique_name Hp Hp'.
      now apply sampler_variant_names_inj.
    + by_decide.
  - pose proof (mapM_compose _ _ _ _ _ Hrun Hnames) as Hall.
    eapply mapM_NoDup; [| |exact Hall].
    + intros n m unique_name Hn Hm.
      apply size_variant_names_inj; auto;
        destruct (bool_decide ("vec" ∈ generic_tags (parameters decl)));
        cbn in Hn, Hm; lia.
    + destruct (bool_decide ("vec" ∈ generic_tags (parameters decl)));
        by_decide.
Qed.

Lemma variants_have_distinct_names_witness :
  NoDup ["sin_f_"; "sin_2f_"; "sin_3f_"; "sin_4f_"].
Proof.
  apply (variants_have_distinct_names "sin" "sin" genType_decl
           (map (dimension_variant genType_decl) [1; 2; 3; 4])
           ["sin_f_"; "sin_2f_"; "sin_3f_"; "sin_4f_"]).
  - repeat constructor; cbn; lia.
  - by_compute.
  - by_compute.
Defined.

Lemma size_variant_keeps (decl v : FunctionProps) (n : Z) :
  size_variant decl n = Ok v ->
  v = with_types decl (parameters v) (returnType v)
  /\ Forall2 (fun p q => genType p = None -> q = p)
             (parameters decl) (parameters v).
Proof.
  unfold size_variant, get_parameters. intros H.
  apply bind_Ok in H as (ps & Hps & H). apply bind_Ok in H as (r & _ & H).
  injection H as <-. split; [reflexivity|]. cbn.
  apply mapM_Ok in Hps. eapply Forall2_impl; [exact Hps|].
  cbn. intros p q Hq Hg. unfold specific_type in Hq. rewrite Hg in Hq.
  congruence.
Qed.

Lemma sampler_variant_keeps (decl v : FunctionProps) (prefix : string) :
  sampler_variant decl prefix = Ok v ->
  v = with_types decl (parameters v) (returnType v)
  /\ Forall2 (fun p q => genType p = None -> q = p)
             (parameters decl) (parameters v).
Proof.
  unfold sampler_variant, get_parameters. intros H.
  apply bind_Ok in H as (ps & Hps & H). apply bind_Ok in H as (r & _ & H).
  injection H as <-. split; [reflexivity|]. cbn.
  apply mapM_Ok in Hps. eapply Forall2_impl; [exact Hps|].
  cbn. intros p q Hq Hg. unfold specific_sampler_or_image_type in Hq.
  rewrite Hg in Hq. congruence.
Qed.

(** X7: a variant is the declaration with its types specialised and
    nothing else changed: every variant of a successful expansion has the
    name, level, extension, operator, side-effect flag and suffix of the
    declaration and as many parameters, and each parameter that is not
    generic is passed on as it is. *)
Theorem variants_keep_metadata (function_name : string)
    (decl : FunctionProps) (variants : list FunctionProps) :
  gen_function_variants function_name decl = Ok variants ->
  Forall (fun v =>
            name v = name decl /\ level v = level decl
            /\ extension v = extension decl /\ op v = op decl
            /\ hasSideEffects v = hasSideEffects decl
            /\ suffix v = suffix decl
            /\ Forall2 (fun p q => genType p = None -> q = p)
                       (parameters decl) (parameters v))
         variants.
Proof.
  intros Hrun.
  unfold gen_function_variants, get_parameters in Hrun. cbv zeta in Hrun.
  apply bind_Ok in Hrun as (gen_type & _ & Hrun).
  destruct (Nat.eqb (size gen_type) 0).
  { injection Hrun as <-. constructor; [|constructor].
    repeat split. apply Forall2_same_length_lookup_2; [reflexivity|].
    intros i p q Hp Hq _. congruence. }
  destruct (bool_decide ("sampler_or_image" ∈ gen_type)).
  - apply mapM_Ok in Hrun. eapply Forall2_Forall_r; [|exact Hrun].
    cbn. intros prefix v [Hv Hparams]%sampler_variant_keeps.
    rewrite Hv. cbn. repeat split. exact Hparams.
  - apply mapM_Ok in Hrun. eapply Forall2_Forall_r; [|exact Hrun].
    cbn. intros n v [Hv Hparams]%size_variant_keeps.
    rewrite Hv. cbn. repeat split. exact Hparams.
Qed.

Lemma variants_keep_metadata_witness :
  Forall (fun v =>
            name v = name sampler_decl /\ level v = level sampler_decl
            /\ extension v = extension sampler_decl /\ op v = op sampler_decl
            /\ hasSideEffects v = hasSideEffects sampler_decl
            /\ suffix v = suffix sampler_decl
            /\ Forall2 (fun p q => genType p = None -> q = p)
                       (parameters sampler_decl) (parameters v))
         (map (family_variant sampler_decl) [""; "I"; "U"]).
Proof.
  apply (variants_keep_metadata "texture" sampler_decl). by_compute.
Defined.

Lemma mapM_Err {A B : Type} (f : A -> result B) (xs : list A) (e : error) :
  mapM f xs = Err e -> exists x, In x xs /\ f x = Err e.
Proof.
  induction xs as [|x xs IH]; [discriminate|]. rewrite mapM_cons.
  destruct (f x) as [y|e'] eqn:Hx.
  - cbn [mbind result_bind]. destruct (mapM f xs) as [ys|e'']; [discriminate|].
    intros [= ->]. destruct (IH eq_refl) as (x' & Hin & Hx').
    exists x'. simpl. auto.
  - intros [= ->]. exists x. simpl. auto.
Qed.

(** A set that grows beyond one element by the addition of [g] held an
    element other than [g]. *)
Lemma second_tag (acc : gset string) (g : string) :
  (1 < size (acc ∪ {[ g ]}))%nat -> exists x, x ∈ acc /\ x <> g.
Proof.
  intros Hsize.
  destruct (decide (Exists (fun x => x <> g) (elements acc))) as [Hex|Hall].
  - apply Exists_exists in Hex as (x & Hx & Hne).
    exists x. split; [now apply elem_of_elements | exact Hne].
  - exfalso. apply not_Exists_Forall in Hall; [|intros x; apply _].
    assert (Hsub : acc ∪ {[ g ]} ⊆ {[ g ]}).
    { intros x [Hx| Hx]%elem_of_union; [|exact Hx].
      apply elem_of_singleton. apply elem_of_elements in Hx.
      rewrite Forall_forall in Hall. specialize (Hall x Hx). cbn in Hall.
      destruct (decide (x = g)); [assumption | contradiction]. }
    apply subseteq_size in Hsub. rewrite size_singleton in Hsub. lia.
Qed.

Lemma scan_param_unknown (acc : gset string) (p : TType) (g : string) :
  genType p = Some g -> existsb (String.eqb g) known_genTypes = false ->
  scan_param acc p = Err (UnexpectedGenType g).
Proof. intros Hg Hunknown. unfold scan_param. now rewrite Hg, Hunknown. Qed.

Lemma scan_params_error (params : list TType) (acc : gset string) (e : error) :
  foldM scan_param params acc = Err e ->
  (exists g, e = UnexpectedGenType g /\ ~ In g known_genTypes
             /\ Exists (fun p => genType p = Some g) params)
  \/ (e = MultipleGenTypes
      /\ exists g1 g2, g1 <> g2 /\ g1 ∈ acc ∪ generic_tags params
                       /\ g2 ∈ acc ∪ generic_tags params).
Proof.
  revert acc. induction params as [|p params IH]; intros acc H; [discriminate|].
  rewrite foldM_cons in H. rewrite generic_tags_cons.
  destruct (genType p) as [g|] eqn:Hg.
  - destruct (existsb (String.eqb g) known_genTypes) eqn:Hknown.
    + assert (Hin : In g known_genTypes).
      { apply existsb_exists in Hknown as (g' & Hin & Heq).
        apply String.eqb_eq in Heq. now subst g'. }
      rewrite (scan_param_generic acc p g Hg Hin) in H.
      destruct (Nat.ltb_spec 1 (size (acc ∪ {[ g ]}))) as [Hsize|_].
      * injection H as <-. right. split; [reflexivity|].
        destruct (second_tag acc g Hsize) as (x & Hx & Hne).
        exists x, g. split; [exact Hne|]. split.
        -- now apply elem_of_union_l.
        -- apply elem_of_union_r, elem_of_union_l, elem_of_singleton.
           reflexivity.
      * cbn [mbind result_bind] in H.
        destruct (IH _ H)
          as [(g' & -> & Hunknown & Hex)|(-> & g1 & g2 & Hne & H1 & H2)].
        -- left. exists g'. auto.
        -- right. split; [reflexivity|]. exists g1, g2.
           rewrite (assoc_L (∪)). auto.
    + rewrite (scan_param_unknown acc p g Hg Hknown) in H.
      injection H as <-. left. exists g.
      split; [reflexivity|]. split; [|now left].
      intros Hin. apply known_genTypes_check in Hin. congruence.
  - rewrite (scan_param_concrete acc p Hg) in H.
    cbn [mbind result_bind] in H.
    destruct (IH _ H)
      as [(g' & -> & Hunknown & Hex)|(-> & g1 & g2 & Hne & H1 & H2)].
    + left. exists g'. auto.
    + right. split; [reflexivity|]. exists g1, g2. auto.
Qed.

Lemma specific_type_error (t : TType) (n : Z) (e : error) :
  specific_type t n = Err e ->
  e = KeyError "basic" /\ genType t <> None /\ basic t = None.
Proof.
  unfold specific_type, get_basic. intros H.
  destruct (genType t); [|discriminate].
  destruct (basic t); [discriminate|]. injection H as <-. auto.
Qed.

Lemma size_variant_error (decl : FunctionProps) (n : Z) (e : error) :
  size_variant decl n = Err e ->
  e = KeyError "basic"
  /\ Exists (fun t => genType t <> None /\ basic t = None)
            (returnType decl :: parameters decl).
Proof.
  unfold size_variant, get_parameters. intros H.
  destruct (mapM _ (parameters decl)) as [ps|e'] eqn:Hps.
  - cbn [mbind result_bind] in H.
    destruct (specific_type (returnType decl) n) as [r|e'] eqn:Hr;
      [discriminate|].
    injection H as ->. apply specific_type_error in Hr as (-> & Hr).
    split; [reflexivity | now left].
  - injection H as ->. apply mapM_Err in Hps as (p & Hin & Hp).
    apply specific_type_error in Hp as (-> & Hp).
    split; [reflexivity|]. right. apply Exists_exists. exists p.
    split; [now apply list_elem_of_In | exact Hp].
Qed.

(** X8: the expander fails in three ways only: on a parameter whose generic
    tag is none of the three known ones, named in the exception; on two
    parameters with different generic tags; and with a [KeyError] for the
    key [basic] when a parameter is generic in its dimension while the
    return type or a parameter is generic without a basic kind. *)
Theorem expansion_failures (function_name : string) (decl : FunctionProps)
    (e : error) :
  gen_function_variants function_name decl = Err e ->
  (exists g, e = UnexpectedGenType g /\ ~ In g known_genTypes
             /\ Exists (fun p => genType p = Some g) (parameters decl))
  \/ (e = MultipleGenTypes
      /\ exists g1 g2,
           g1 <> g2
           /\ Exists (fun p => genType p = Some g1) (parameters decl)
           /\ Exists (fun p => genType p = Some g2) (parameters decl))
  \/ (e = KeyError "basic"
      /\ Exists (fun p => genType p = Some "yes" \/ genType p = Some "vec")
                (parameters decl)
      /\ Exists (fun t => genType t <> None /\ basic t = None)
                (returnType decl :: parameters decl)).
Proof.
  intros Hrun.
  unfold gen_function_variants, get_parameters in Hrun. cbv zeta in Hrun.
  destruct (foldM scan_param (parameters decl) ∅) as [gen_type|e'] eqn:Hscan.
  - right. right. cbn [mbind result_bind] in Hrun.
    pose proof (scan_params_known _ _ _ Hscan) as Hknown.
    apply scan_params_Ok in Hscan as [-> Hsize].
    destruct (Nat.eqb_spec (size (generic_tags (parameters decl))) 0)
      as [Hz|Hnz]; [discriminate|].
    destruct (bool_decide_reflect
                ("sampler_or_image" ∈ generic_tags (parameters decl)))
      as [Hsampler|Hdimension].
    { exfalso. rewrite (mapM_pure _ (family_variant decl)) in Hrun;
        [discriminate|].
      apply Forall_forall. intros prefix Hin.
      apply sampler_variant_family, list_elem_of_In, Hin. }
    apply mapM_Err in Hrun as (n & _ & Hn).
    apply size_variant_error in Hn as [-> Hbasic].
    split; [reflexivity|]. split; [|exact Hbasic].
    assert (Hgen : Exists (fun p => genType p <> None) (parameters decl)).
    { apply generic_parameter. intros Hempty. apply Hnz.
      rewrite Hempty. apply size_empty. }
    apply Exists_exists in Hgen as (p & Hin & Hp).
    apply Exists_exists. exists p. split; [exact Hin|].
    rewrite Forall_forall in Hknown. specialize (Hknown p Hin).
    unfold tag_known in Hknown.
    destruct (genType p) as [g|] eqn:Hg; [|contradiction].
    destruct Hknown as [<-|[<-|[<-|[]]]]; auto.
    exfalso. apply Hdimension, generic_tags_elem, Exists_exists. eauto.
  - injection Hrun as ->.
    apply scan_params_error in Hscan
      as [Hunknown|(-> & g1 & g2 & Hne & H1 & H2)]; [now left|].
    right. left. split; [reflexivity|]. exists g1, g2.
    rewrite (left_id_L ∅ (∪)) in H1, H2.
    apply generic_tags_elem in H1, H2. auto.
Qed.

Lemma expansion_failures_witness :
  (exists g, KeyError "basic" = UnexpectedGenType g /\ ~ In g known_genTypes
             /\ Exists (fun p => genType p = Some g)
                       (parameters sampler_return_dimension_params))
  \/ (KeyError "basic" = MultipleGenTypes
      /\ exists g1 g2,
           g1 <> g2
           /\ Exists (fun p => genType p = Some g1)
                     (parameters sampler_return_dimension_params)
           /\ Exists (fun p => genType p = Some g2)
                     (parameters sampler_return_dimension_params))
  \/ (KeyError "basic" = KeyError "basic"
      /\ Exists (fun p => genType p = Some "yes" \/ genType p = Some "vec")
                (parameters sampler_return_dimension_params)
      /\ Exists (fun t => genType t <> None /\ basic t = None)
                (returnType sampler_return_dimension_params
                   :: parameters sampler_return_dimension_params)).
Proof.
  apply (expansion_failures "f" sampler_return_dimension_params).
  by_compute.
Defined.

(** ** Ordered dictionaries keep their keys in insertion order *)

Lemma keys_set {V : Type} (d : OrderedDict.t V) (k : string) (v : V) :
  keys (OrderedDict.set d k v)
  = if OrderedDict.mem d k then keys d else (keys d ++ [k])%list.
Proof.
  unfold keys, OrderedDict.mem.
  induction d as [|[k' v'] d IH]; [reflexivity|]. cbn.
  destruct (String.eqb k' k) eqn:E; [reflexivity|]. cbn. rewrite IH.
  now destruct (OrderedDict.get d k).
Qed.

Lemma get_key {V : Type} (d : OrderedDict.t V) (k : string) :
  In k (keys d) <-> OrderedDict.mem d k = true.
Proof.
  unfold keys, OrderedDict.mem.
  induction d as [|[k' v'] d IH]; cbn; [split; [tauto | discriminate]|].
  destruct (String.eqb_spec k' k) as [->|Hne]; [tauto|].
  rewrite <- IH. split; [intros [?|?]; [contradiction | assumption] | auto].
Qed.

Lemma keys_NoDup_set {V : Type} (d : OrderedDict.t V) (k : string) (v : V) :
  NoDup (keys d) -> NoDup (keys (OrderedDict.set d k v)).
Proof.
  intros Hnd. rewrite keys_set.
  destruct (OrderedDict.mem d k) eqn:Hmem; [exact Hnd|].
  apply NoDup_app. split; [exact Hnd|]. split; [|apply NoDup_singleton].
  intros x Hx ->%list_elem_of_singleton.
  apply list_elem_of_In, get_key in Hx. congruence.
Qed.

(** ** GroupedList: what is added is found *)

Lemma check_level_In (level : string) :
  In level levels -> GroupedList.check_level level = Ok tt.
Proof.
  intros Hin. unfold GroupedList.check_level.
  replace (existsb (String.eqb level) levels) with true; [reflexivity|].
  symmetry. apply existsb_exists. exists level.
  split; [exact Hin | apply String.eqb_refl].
Qed.

Lemma check_level_not_In (level : string) :
  ~ In level levels ->
  GroupedList.check_level level = Err (UnexpectedLevel level).
Proof.
  intros Hin. unfold GroupedList.check_level.
  destruct (existsb (String.eqb level) levels) eqn:E; [|reflexivity].
  exfalso. apply existsb_exists in E as (l & Hl & Heq).
  apply String.eqb_eq in Heq. now subst l.
Qed.

(** At a level that is present, [get] reads the three nested
    dictionaries. *)
Lemma get_stored (self : GroupedList.t) (level condition name : string) :
  In level levels -> In level (keys self) ->
  GroupedList.get self level condition name
  = Ok (stored_record self level condition name).
Proof.
  intros Hlevel Hkey. apply get_key, OrderedDictFacts.mem_true in Hkey
    as [by_condition Hget].
  unfold GroupedList.get, GroupedList.has_key, GroupedList.at_level,
    stored_record, OrderedDict.mem.
  rewrite (check_level_In level Hlevel), Hget.
  cbn [mbind result_bind option_bind].
  destruct (OrderedDict.get by_condition condition) as [by_name|];
    cbn [mbind result_bind option_bind]; [|reflexivity].
  destruct (OrderedDict.get by_name name); reflexivity.
Qed.

Lemma has_key_stored (self : GroupedList.t) (level condition name : string) :
  In level levels -> In level (keys self) ->
  GroupedList.has_key self level condition name
  = Ok (bool_decide (stored_record self level condition name <> None)).
Proof.
  intros Hlevel Hkey. apply get_key, OrderedDictFacts.mem_true in Hkey
    as [by_condition Hget].
  unfold GroupedList.has_key, GroupedList.at_level, stored_record,
    OrderedDict.mem.
  rewrite (check_level_In level Hlevel), Hget.
  cbn [mbind result_bind option_bind].
  destruct (OrderedDict.get by_condition condition) as [by_name|];
    cbn [mbind result_bind option_bind]; [|reflexivity].
  destruct (OrderedDict.get by_name name); reflexivity.
Qed.

Lemma add_obj_keys (self self' : GroupedList.t)
    (level condition name : string) (obj : UnmangledCase) :
  GroupedList.add_obj self level condition name obj = Ok self' ->
  keys self' = keys self.
Proof.
  unfold GroupedList.add_obj, GroupedList.at_level. intros H.
  apply bind_Ok in H as ([] & _ & H).
  destruct (OrderedDict.get self level) as [by_condition|] eqn:Hlevel;
    [|discriminate].
  cbn [mbind result_bind] in H. injection H as <-.
  rewrite keys_set. unfold OrderedDict.mem. now rewrite Hlevel.
Qed.

Lemma add_obj_succeeds (self : GroupedList.t)
    (level condition name : string) (obj : UnmangledCase) :
  In level levels -> In level (keys self) ->
  is_ok (GroupedList.add_obj self level condition name obj) = true.
Proof.
  intros Hlevel Hkey. apply get_key, OrderedDictFacts.mem_true in Hkey
    as [by_condition Hget].
  unfold GroupedList.add_obj, GroupedList.at_level.
  now rewrite (check_level_In level Hlevel), Hget.
Qed.

(** X9: a grouped list whose keys are the four levels, in their order,
    takes an object at any of these levels and keeps its keys; the object is
    then found by [has_key] and returned by [get] at its level, condition
    and name, and every other slot reads as before.  At any other level
    [add_obj], [has_key] and [get] all raise the unexpected-level
    exception. *)
Theorem grouped_list_add_get (self : GroupedList.t)
    (level condition name : string) (obj : UnmangledCase) :
  keys self = levels ->
  (In level levels ->
   exists self',
     GroupedList.add_obj self level condition name obj = Ok self'
     /\ keys self' = levels
     /\ GroupedList.has_key self' level condition name = Ok true
     /\ GroupedList.get self' level condition name = Ok (Some obj)
     /\ forall level' condition' name',
          In level' levels ->
          ~ (level' = level /\ condition' = condition /\ name' = name) ->
          GroupedList.get self' level' condition' name'
          = GroupedList.get self level' condition' name')
  /\ (~ In level levels ->
      GroupedList.add_obj self level condition name obj
      = Err (UnexpectedLevel level)
      /\ GroupedList.has_key self level condition name
         = Err (UnexpectedLevel level)
      /\ GroupedList.get self level condition name
         = Err (UnexpectedLevel level)).
Proof.
  intros Hkeys. split.
  - intros Hlevel.
    assert (Hkey : In level (keys self)) by now rewrite Hkeys.
    pose proof (add_obj_succeeds self level condition name obj Hlevel Hkey)
      as Hok.
    destruct (GroupedList.add_obj self level condition name obj)
      as [self'|] eqn:Hadd; [|discriminate].
    exists self'. split; [reflexivity|].
    assert (Hkeys' : keys self' = levels).
    { now rewrite (add_obj_keys _ _ _ _ _ _ Hadd). }
    pose proof (GroupedListFacts.stored_add_obj _ _ _ _ _ _ Hadd) as Hstored.
    split; [exact Hkeys'|]. split; [|split].
    + rewrite has_key_stored; [|exact Hlevel|now rewrite Hkeys'].
      rewrite Hstored. rewrite (bool_decide_eq_true_2 (_ /\ _)) by auto.
      now rewrite bool_decide_eq_true_2.
    + rewrite get_stored; [|exact Hlevel|now rewrite Hkeys'].
      now rewrite Hstored, bool_decide_eq_true_2.
    + intros level' condition' name' Hlevel' Hother.
      rewrite !get_stored; try assumption;
        [|now rewrite Hkeys|now rewrite Hkeys'].
      now rewrite Hstored, bool_decide_eq_false_2.
  - intros Hlevel. pose proof (check_level_not_In level Hlevel) as Hcheck.
    unfold GroupedList.get, GroupedList.has_key, GroupedList.add_obj.
    rewrite Hcheck. auto.
Qed.

Lemma grouped_list_add_get_witness :
  (In "COMMON_BUILTINS" levels ->
   exists self',
     GroupedList.add_obj GroupedList.init "COMMON_BUILTINS" "NO_CONDITION"
       "sin" sample_case = Ok self'
     /\ keys self' = levels
     /\ GroupedList.has_key self' "COMMON_BUILTINS" "NO_CONDITION" "sin"
        = Ok true
     /\ GroupedList.get self' "COMMON_BUILTINS" "NO_CONDITION" "sin"
        = Ok (Some sample_case)
     /\ forall level' condition' name',
          In level' levels ->
          ~ (level' = "COMMON_BUILTINS" /\ condition' = "NO_CONDITION"
             /\ name' = "sin") ->
          GroupedList.get self' level' condition' name'
          = GroupedList.get GroupedList.init level' condition' name')
  /\ (~ In "COMMON_BUILTINS" levels ->
      GroupedList.add_obj GroupedList.init "COMMON_BUILTINS" "NO_CONDITION"
        "sin" sample_case = Err (UnexpectedLevel "COMMON_BUILTINS")
      /\ GroupedList.has_key GroupedList.init "COMMON_BUILTINS"
           "NO_CONDITION" "sin" = Err (UnexpectedLevel "COMMON_BUILTINS")
      /\ GroupedList.get GroupedList.init "COMMON_BUILTINS" "NO_CONDITION"
           "sin" = Err (UnexpectedLevel "COMMON_BUILTINS")).
Proof.
  apply (grouped_list_add_get GroupedList.init "COMMON_BUILTINS"
           "NO_CONDITION" "sin" sample_case).
  reflexivity.
Defined.

(** ** The generated declarations refer to declared things *)

Lemma record_unmangled_outputs cond ta g g' :
  record_unmangled cond ta g = Ok g' ->
  g' = g
  \/ exists statements,
       GroupedList.add_obj (unmangled_function_if_statements g) (ta_level ta)
         cond (ta_name ta)
         (mkUnmangledCase (unmangled_if ta) (ta_extension ta))
       = Ok statements
       /\ g' = mkGlobals (builtin_id_declarations g) (name_declarations g)
                 (parameter_declarations g) (function_declarations g)
                 (insert_functions_by_condition g)
                 (unmangled_builtin_declarations g
                    ∪ {[ unmangled_builtin_declaration ta ]})
                 statements (id_counter g) (defined_function_variants g).
Proof.
  unfold record_unmangled. cbv zeta. intros H.
  apply bind_Ok in H as (r & _ & H).
  destruct (match r with
            | Some obj => String.eqb (case_extension obj) "UNDEFINED"
            | None => false
            end).
  { injection H as <-. now left. }
  apply bind_Ok in H as (present & _ & H).
  destruct (negb present || String.eqb (ta_extension ta) "UNDEFINED")%bool.
  - apply bind_Ok in H as (statements & Hadd & H). injection H as <-.
    right. eauto.
  - injection H as <-. now left.
Qed.

Lemma materialize_variant_outputs cond ta g v g' :
  materialize_variant cond ta g v = Ok g' ->
  g' = g
  \/ exists key mangled_name parameters_var_name return_type parameters_list
            inserts,
       builtin_id_declarations g'
       = (builtin_id_declarations g ++ [(key, id_counter g)])%list
       /\ name_declarations g'
          = name_declarations g ∪ {[ name_declaration key mangled_name ]}
       /\ parameter_declarations g'
          = parameter_declarations g
              ∪ {[ parameter_list_declaration parameters_var_name
                     (length (parameters v)) parameters_list ]}
       /\ function_declarations g'
          = (function_declarations g
               ++ [function_declaration ta key parameters_var_name return_type
                     (length (parameters v))])%list
       /\ OrderedDict.get (insert_functions_by_condition g) cond = Some inserts
       /\ insert_functions_by_condition g'
          = OrderedDict.set (insert_functions_by_condition g) cond
              (inserts ++ [insert_function ta key])%list
       /\ unmangled_builtin_declarations g' = unmangled_builtin_declarations g
       /\ unmangled_function_if_statements g'
          = unmangled_function_if_statements g.
Proof.
  unfold materialize_variant, get_parameters. cbv zeta. intros H.
  apply bind_Ok in H as (key & Hkey & H).
  destruct (bool_decide (key ∈ defined_function_variants g)).
  - left. congruence.
  - right.
    apply bind_Ok in H as (return_type & _ & H).
    apply bind_Ok in H as (mangled_name & _ & H).
    apply bind_Ok in H as (parameters_list & _ & H).
    apply bind_Ok in H as (parameters_var_name & _ & H).
    destruct (OrderedDict.get (insert_functions_by_condition g) cond)
      as [inserts|] eqn:Hget; [|discriminate].
    injection H as <-.
    exists key, mangled_name, parameters_var_name, return_type,
      parameters_list, inserts.
    cbn. repeat split; reflexivity.
Qed.

Lemma record_unmangled_names cond ta g g' :
  record_unmangled cond ta g = Ok g' ->
  name_declarations g' = name_declarations g.
Proof.
  intros [->|(statements & _ & ->)]%record_unmangled_outputs; reflexivity.
Qed.

Lemma materialize_variant_names cond ta g v g' :
  materialize_variant cond ta g v = Ok g' ->
  name_declarations g ⊆ name_declarations g'.
Proof.
  intros [->|(key & mangled & pv & rt & plist & inserts & _ & -> & _)]
           %materialize_variant_outputs; [reflexivity|].
  apply union_subseteq_l.
Qed.

(** Invariants of the run that may rely on the name string of the
    declaration at hand having been declared (line 593) before its lookup
    record and its variants are dealt with. *)
Section DeclaredNames.
Context {order : DictOrder}.
Variable Inv : Globals -> Prop.
Hypothesis Inv_ensure_condition :
  forall cond g, Inv g -> Inv (ensure_condition cond g).
Hypothesis Inv_add_name_declaration :
  forall decl g, Inv g -> Inv (add_name_declaration decl g).
Hypothesis Inv_record_unmangled :
  forall cond ta g g',
    Inv g -> name_declared ta g -> record_unmangled cond ta g = Ok g' -> Inv g'.
Hypothesis Inv_materialize_variant :
  forall cond ta g v g',
    Inv g -> name_declared ta g -> materialize_variant cond ta g v = Ok g' ->
    Inv g'.

Lemma process_function_declared cond g function_props g' :
  Inv g -> process_function cond g function_props = Ok g' -> Inv g'.
Proof.
  intros HI H. unfold process_function in H. cbv zeta in H.
  apply bind_Ok in H as (level & _ & H).
  apply bind_Ok in H as (op & _ & H).
  apply bind_Ok in H as (variants & _ & H).
  apply bind_Ok in H as (g1 & Hrec & H).
  match type of Hrec with
  | record_unmangled _ ?args (add_name_declaration ?decl _) = _ =>
      set (ta := args) in *; set (g0 := add_name_declaration decl g) in *
  end.
  assert (Hdeclared : name_declared ta g0).
  { unfold name_declared, g0, add_name_declaration. cbn.
    apply elem_of_union_r, elem_of_singleton. reflexivity. }
  assert (Hboth : Inv g1 /\ name_declared ta g1).
  { split.
    - eapply Inv_record_unmangled; [|exact Hdeclared|exact Hrec].
      apply Inv_add_name_declaration, HI.
    - unfold name_declared.
      now rewrite (record_unmangled_names _ _ _ _ Hrec). }
  apply (foldM_invariant (fun g => Inv g /\ name_declared ta g)
           (materialize_variant cond ta)) in H; [tauto| |exact Hboth].
  intros st v st' [HIst Hst] Hstep. split.
  - eapply Inv_materialize_variant; eauto.
  - unfold name_declared.
    apply (materialize_variant_names _ _ _ _ _ Hstep), Hst.
Qed.

Lemma process_function_group_declared group_name group g g' :
  Inv g -> process_function_group group_name group g = Ok g' -> Inv g'.
Proof.
  revert group_name g g'.
  induction group as [n fs subs c IHsubs] using Group_induction.
  intros group_name g g' HI H. rewrite process_function_group_unfold in H.
  cbv zeta in H. apply bind_Ok in H as (g1 & Hfuns & H).
  assert (HI1 : Inv g1).
  { unfold process_single_function_group in Hfuns.
    eapply foldM_invariant; [| |exact Hfuns].
    - intros st x st'. apply process_function_declared.
    - apply Inv_ensure_condition, HI. }
  clear Hfuns HI. revert g1 HI1 H. apply Forall_dict_items in IHsubs.
  induction IHsubs as [|[k sub] subs' Hsub _ IH]; intros g1 HI1 H.
  - injection H as <-. exact HI1.
  - rewrite foldM_cons in H. apply bind_Ok in H as (g2 & Hsubrun & H).
    eapply IH; [|exact H]. eapply Hsub; [exact HI1|exact Hsubrun].
Qed.

Lemma process_all_declared parsed g :
  Inv initial_globals -> process_all parsed = Ok g -> Inv g.
Proof.
  unfold process_all. intros HI H.
  eapply foldM_invariant; [|exact HI|exact H].
  intros st entry st'. apply process_function_group_declared.
Qed.
End DeclaredNames.

(** Writing one entry of an ordered dictionary changes the list of all
    values at the place of that entry only. *)
Lemma concat_set_old {A : Type} (d : OrderedDict.t (list A)) (k : string)
    (old new : list A) :
  OrderedDict.get d k = Some old ->
  exists before after,
    concat (map snd d) = (before ++ old ++ after)%list
    /\ concat (map snd (OrderedDict.set d k new))
       = (before ++ new ++ after)%list.
Proof.
  induction d as [|[k' v'] d IH]; [discriminate|]. cbn.
  destruct (String.eqb k' k).
  - intros [= ->]. exists [], (concat (map snd d)). auto.
  - intros (before & after & Hold & Hnew)%IH.
    exists (v' ++ before)%list, after. cbn. rewrite Hold, Hnew.
    now rewrite <- !app_assoc.
Qed.

Lemma concat_set_new {A : Type} (d : OrderedDict.t (list A)) (k : string)
    (new : list A) :
  OrderedDict.get d k = None ->
  concat (map snd (OrderedDict.set d k new))
  = (concat (map snd d) ++ new)%list.
Proof.
  induction d as [|[k' v'] d IH]; cbn.
  - intros _. now rewrite app_nil_r.
  - destruct (String.eqb k' k); [discriminate|].
    intros H. cbn. rewrite (IH H). now rewrite app_assoc.
Qed.

Lemma all_insert_functions_ensure_condition cond g :
  all_insert_functions (ensure_condition cond g) = all_insert_functions g.
Proof.
  unfold ensure_condition, all_insert_functions.
  destruct (OrderedDict.mem (insert_functions_by_condition g) cond) eqn:Hmem;
    [reflexivity|].
  cbn. apply OrderedDictFacts.mem_false in Hmem.
  rewrite (concat_set_new _ _ _ Hmem). apply app_nil_r.
Qed.

Lemma function_refers_declared_mono (g g' : Globals) (entry : string * Z)
    (decl : string) :
  name_declarations g ⊆ name_declarations g' ->
  parameter_declarations g ⊆ parameter_declarations g' ->
  function_refers_declared g entry decl ->
  function_refers_declared g' entry decl.
Proof.
  intros Hnames Hparams
    (ta & pv & rt & n & plist & mangled & -> & Hta & Hkey & Hpv).
  exists ta, pv, rt, n, plist, mangled. unfold name_declared in *. auto.
Qed.

Lemma functions_refer_declared_frame (g g' : Globals) :
  builtin_id_declarations g' = builtin_id_declarations g ->
  function_declarations g' = function_declarations g ->
  all_insert_functions g' = all_insert_functions g ->
  name_declarations g ⊆ name_declarations g' ->
  parameter_declarations g ⊆ parameter_declarations g' ->
  functions_refer_declared g -> functions_refer_declared g'.
Proof.
  unfold functions_refer_declared.
  intros -> -> -> Hnames Hparams (Hdecls & Hinserts & Hcount).
  split; [|auto]. eapply Forall2_impl; [exact Hdecls|].
  intros entry decl. now apply function_refers_declared_mono.
Qed.

Lemma functions_refer_declared_materialize_variant cond ta g v g' :
  functions_refer_declared g -> name_declared ta g ->
  materialize_variant cond ta g v = Ok g' ->
  functions_refer_declared g'.
Proof.
  intros Hinv Hta Hrun.
  apply materialize_variant_outputs in Hrun
    as [->|(key & mangled & pv & rt & plist & inserts & Hids & Hnames
            & Hparams & Hdecls & Hget & Hinserts & _)]; [exact Hinv|].
  destruct Hinv as (Hold & Hlines & Hcount).
  destruct (concat_set_old _ _ _ (inserts ++ [insert_function ta key])%list
              Hget) as (before & after & Hbefore & Hafter).
  unfold functions_refer_declared, all_insert_functions in *.
  rewrite Hids, Hdecls, Hinserts, Hafter. rewrite Hbefore in Hlines, Hcount.
  assert (Hnames' : name_declarations g ⊆ name_declarations g').
  { rewrite Hnames. apply union_subseteq_l. }
  assert (Hparams' : parameter_declarations g ⊆ parameter_declarations g').
  { rewrite Hparams. apply union_subseteq_l. }
  split; [|split].
  - apply Forall2_app.
    + eapply Forall2_impl; [exact Hold|].
      intros entry decl. now apply function_refers_declared_mono.
    + constructor; [|constructor].
      exists ta, pv, rt, (length (parameters v)), plist, mangled.
      split; [reflexivity|]. split; [apply Hnames', Hta|].
      split.
      * rewrite Hnames. apply elem_of_union_r, elem_of_singleton. reflexivity.
      * rewrite Hparams. apply elem_of_union_r, elem_of_singleton.
        reflexivity.
  - rewrite !Forall_app in Hlines. destruct Hlines as (Hb & Hi & Ha).
    assert (Hgrow : forall line,
               (exists ta0 key0,
                  line = insert_function ta0 key0
                  /\ In key0 (map fst (builtin_id_declarations g))) ->
               exists ta0 key0,
                 line = insert_function ta0 key0
                 /\ In key0 (map fst (builtin_id_declarations g
                                        ++ [(key, id_counter g)]))).
    { intros line (ta0 & key0 & -> & Hin). exists ta0, key0.
      split; [reflexivity|]. rewrite map_app. apply in_or_app. now left. }
    rewrite !Forall_app. repeat split.
    + eapply Forall_impl; [exact Hb | exact Hgrow].
    + eapply Forall_impl; [exact Hi | exact Hgrow].
    + constructor; [|constructor]. exists ta, key. split; [reflexivity|].
      rewrite map_app. apply in_or_app. right. now left.
    + eapply Forall_impl; [exact Ha | exact Hgrow].
  - rewrite !length_app in *. cbn. lia.
Qed.

Lemma functions_refer_declared_process_all {order : DictOrder} parsed g :
  process_all parsed = Ok g -> functions_refer_declared g.
Proof.
  apply process_all_declared.
  - intros cond g0. apply functions_refer_declared_frame;
      try (unfold ensure_condition; destruct (negb _); reflexivity).
    apply all_insert_functions_ensure_condition.
  - intros decl g0. apply functions_refer_declared_frame;
      try reflexivity. apply union_subseteq_l.
  - intros cond ta g0 g1 H _ Hrec. revert H.
    apply record_unmangled_outputs in Hrec as [->|(statements & _ & ->)];
      [auto|].
    now apply functions_refer_declared_frame.
  - apply functions_refer_declared_materialize_variant.
  - repeat split; constructor.
Qed.

(** X10: after a successful run every identity has its function
    declaration, at the same position, and that declaration only refers to
    things the run has declared: the identity itself, the name string of the
    function, the string of the mangled name and the parameter array.  There
    are as many insert statements, over all conditions, as identities, and
    each inserts a function that has one. *)
Theorem functions_are_declared {order : DictOrder} (parsed_functions : OrderedDict.t Group)
    (g : Globals) :
  process_all parsed_functions = Ok g ->
  Forall2 (function_refers_declared g) (builtin_id_declarations g)
          (function_declarations g)
  /\ Forall (fun line =>
               exists ta key,
                 line = insert_function ta key
                 /\ In key (map fst (builtin_id_declarations g)))
            (all_insert_functions g)
  /\ Z.of_nat (length (all_insert_functions g)) = id_counter g
  /\ Z.of_nat (length (function_declarations g)) = id_counter g.
Proof.
  intros Hrun.
  destruct (functions_refer_declared_process_all _ _ Hrun)
    as (Hdecls & Hlines & Hcount).
  destruct (ids_dense_process_all _ _ Hrun) as (_ & Hcounter & _).
  split; [exact Hdecls|]. split; [exact Hlines|].
  rewrite Hcount, <- (Forall2_length _ _ _ Hdecls). auto.
Qed.

Lemma functions_are_declared_witness :
  Forall2 (function_refers_declared sample_run)
          (builtin_id_declarations sample_run)
          (function_declarations sample_run)
  /\ Forall (fun line =>
               exists ta key,
                 line = insert_function ta key
                 /\ In key (map fst (builtin_id_declarations sample_run)))
            (all_insert_functions sample_run)
  /\ Z.of_nat (length (all_insert_functions sample_run))
     = id_counter sample_run
  /\ Z.of_nat (length (function_declarations sample_run))
     = id_counter sample_run.
Proof.
  apply (functions_are_declared (order := insertion_order) sample_registry sample_run).
  apply ok_value_of. by_compute.
Defined.

Lemma lookups_refer_declared_mono (g g' : Globals) :
  unmangled_function_if_statements g' = unmangled_function_if_statements g ->
  unmangled_builtin_declarations g ⊆ unmangled_builtin_declarations g' ->
  name_declarations g ⊆ name_declarations g' ->
  lookups_refer_declared g -> lookups_refer_declared g'.
Proof.
  unfold lookups_refer_declared, name_declared.
  intros -> Hdecls Hnames Hinv level cond name obj Hstored.
  destruct (Hinv _ _ _ _ Hstored) as (ta & -> & <- & <- & Hdecl & Hname).
  exists ta. auto 10.
Qed.

Lemma lookups_refer_declared_record_unmangled cond ta g g' :
  lookups_refer_declared g -> name_declared ta g ->
  record_unmangled cond ta g = Ok g' -> lookups_refer_declared g'.
Proof.
  intros Hinv Hta Hrec.
  apply record_unmangled_outputs in Hrec as [->|(statements & Hadd & ->)];
    [exact Hinv|].
  intros level cond' name obj. unfold name_declared in *.
  cbn [unmangled_function_if_statements unmangled_builtin_declarations
       name_declarations].
  rewrite (GroupedListFacts.stored_add_obj _ _ _ _ _ _ Hadd).
  destruct (bool_decide_reflect
              (level = ta_level ta /\ cond' = cond /\ name = ta_name ta))
    as [(-> & -> & ->)|_].
  - intros [= <-]. exists ta. repeat split; [|exact Hta].
    apply elem_of_union_r, elem_of_singleton. reflexivity.
  - intros Hstored.
    destruct (Hinv _ _ _ _ Hstored) as (ta0 & -> & <- & <- & Hdecl & Hname).
    exists ta0. repeat split; [|exact Hname].
    now apply elem_of_union_l.
Qed.

Lemma stored_record_init (level condition name : string) :
  stored_record GroupedList.init level condition name = None.
Proof.
  unfold stored_record, GroupedList.init.
  induction levels as [|l ls IH]; [reflexivity|]. cbn [map OrderedDict.get].
  destruct (String.eqb l level); [reflexivity | exact IH].
Qed.



(** ** The emitter: the switch over name hashes *)

Lemma add_switch_case_lookup (st : OrderedDict.t unit * gmap Z (list string))
    (entry : string * UnmangledCase) (h : Z) :
  (add_switch_case st entry).2 !! h
  = if decide (hash32_value entry.1 = h)
    then Some (default [] (st.2 !! h) ++ [case_code entry.2])%list
    else st.2 !! h.
Proof.
  unfold add_switch_case, hash32. cbn [snd].
  destruct (decide (hash32_value entry.1 = h)) as [<-|Hne].
  - rewrite lookup_insert_eq. f_equal. f_equal.
    destruct (st.2 !! hash32_value entry.1) as [cases|] eqn:Hcases.
    + rewrite bool_decide_eq_false_2 by discriminate. now rewrite Hcases.
    + rewrite bool_decide_eq_true_2 by reflexivity.
      now rewrite lookup_insert_eq.
  - rewrite lookup_insert_ne by exact Hne.
    destruct (bool_decide (st.2 !! hash32_value entry.1 = None));
      [|reflexivity].
    now rewrite lookup_insert_ne by exact Hne.
Qed.

Lemma codes_with_hash_cons (h : Z) (entry : string * UnmangledCase)
    (functions : OrderedDict.t UnmangledCase) :
  codes_with_hash h (entry :: functions)
  = if decide (hash32_value entry.1 = h)
    then case_code entry.2 :: codes_with_hash h functions
    else codes_with_hash h functions.
Proof.
  unfold codes_with_hash. rewrite filter_cons.
  now destruct (decide (hash32_value entry.1 = h)).
Qed.

(** The bucket of a hash holds the codes of the names with that hash, in
    the order of the dictionary; hashes no name has get no bucket. *)
Lemma build_switch_lookup (functions : OrderedDict.t UnmangledCase)
    (st : OrderedDict.t unit * gmap Z (list string)) (h : Z) :
  (fold_left add_switch_case functions st).2 !! h
  = match codes_with_hash h functions with
    | [] => st.2 !! h
    | codes => Some (default [] (st.2 !! h) ++ codes)%list
    end.
Proof.
  revert st. induction functions as [|entry functions IH]; intros st;
    [reflexivity|].
  cbn [fold_left]. rewrite IH, add_switch_case_lookup, codes_with_hash_cons.
  destruct (decide (hash32_value entry.1 = h)) as [_|_]; [|reflexivity].
  cbn [default from_option id].
  destruct (codes_with_hash h functions) as [|code codes]; [reflexivity|].
  now rewrite <- app_assoc.
Qed.

#[local] Instance by_hash_total : Total by_hash.
Proof. intros a b. unfold by_hash. lia. Qed.

#[local] Instance by_hash_transitive : Transitive by_hash.
Proof. intros a b c. unfold by_hash. lia. Qed.

(** A list sorted by hash whose hashes are all different is strictly
    ascending. *)
Lemma strictly_sorted (items : list (Z * list string)) :
  StronglySorted by_hash items -> NoDup (map fst items) ->
  StronglySorted Z.lt (map fst items).
Proof.
  induction 1 as [|item items _ IH Hall]; intros Hnd; cbn; [constructor|].
  cbn in Hnd. apply NoDup_cons in Hnd as [Hnotin Hnd].
  constructor; [now apply IH|].
  apply Forall_forall. intros h Hh.
  apply list_elem_of_In, in_map_iff in Hh as (other & <- & Hother).
  rewrite Forall_forall in Hall.
  pose proof (Hall other (proj2 (list_elem_of_In _ _) Hother)) as Hle.
  unfold by_hash in Hle.
  assert (item.1 <> other.1); [|lia].
  intros Heq. apply Hnotin. rewrite Heq.
  apply list_elem_of_In, in_map, Hother.
Qed.


(** ** The emitter: hash tests *)

Lemma tests_extend_refl (tests : OrderedDict.t unit) : tests_extend tests tests.
Proof. split; auto. Qed.

Lemma tests_extend_trans (t1 t2 t3 : OrderedDict.t unit) :
  tests_extend t1 t2 -> tests_extend t2 t3 -> tests_extend t1 t3.
Proof. intros [H1 H1'] [H2 H2']. split; auto. Qed.

Lemma hash32_tests (tests : OrderedDict.t unit) (function_name : string) :
  tests_extend tests (hash32 tests function_name).2
  /\ In (hash_test function_name) (keys (hash32 tests function_name).2).
Proof.
  unfold hash32, hash_test. cbn [snd]. split; [split|].
  - apply keys_NoDup_set.
  - intros line Hline. rewrite keys_set.
    destruct (OrderedDict.mem tests _); [exact Hline|].
    apply in_or_app. now left.
  - apply get_key. unfold OrderedDict.mem.
    now rewrite OrderedDictFacts.get_set_eq.
Qed.

Lemma add_switch_case_tests (st : OrderedDict.t unit * gmap Z (list string))
    (entry : string * UnmangledCase) :
  (add_switch_case st entry).1 = (hash32 st.1 entry.1).2.
Proof. reflexivity. Qed.

Lemma build_switch_tests (functions : OrderedDict.t UnmangledCase)
    (st : OrderedDict.t unit * gmap Z (list string)) :
  tests_extend st.1 (fold_left add_switch_case functions st).1
  /\ forall entry,
       In entry functions ->
       In (hash_test entry.1) (keys (fold_left add_switch_case functions st).1).
Proof.
  revert st. induction functions as [|entry functions IH]; intros st.
  - split; [apply tests_extend_refl | intros entry []].
  - cbn [fold_left]. destruct (IH (add_switch_case st entry)) as [Hext Hin].
    rewrite add_switch_case_tests in Hext.
    destruct (hash32_tests st.1 entry.1) as [Hstep Hline].
    split; [eapply tests_extend_trans; eauto|].
    intros entry' [<-|Hentry']; [|now apply Hin].
    apply Hext, Hline.
Qed.

Lemma emit_condition_tests (st : OrderedDict.t unit * list string)
    (entry : string * OrderedDict.t UnmangledCase) :
  tests_extend st.1 (emit_condition st entry).1
  /\ forall function,
       In function entry.2 ->
       In (hash_test function.1) (keys (emit_condition st entry).1).
Proof.
  unfold emit_condition.
  destruct entry.2 as [|function functions] eqn:Hfunctions.
  { split; [apply tests_extend_refl | intros function []]. }
  cbn [length Nat.ltb Nat.leb]. rewrite <- Hfunctions.
  pose proof (build_switch_tests entry.2 (st.1, ∅)) as Hbuild.
  unfold build_switch.
  destruct (fold_left add_switch_case entry.2 (st.1, ∅)) as [tests switch].
  exact Hbuild.
Qed.

Lemma emit_conditions_tests
    (conditions : OrderedDict.t (OrderedDict.t UnmangledCase))
    (st : OrderedDict.t unit * list string) :
  tests_extend st.1 (fold_left emit_condition conditions st).1
  /\ forall entry function,
       In entry conditions -> In function entry.2 ->
       In (hash_test function.1)
          (keys (fold_left emit_condition conditions st).1).
Proof.
  revert st. induction conditions as [|entry conditions IH]; intros st.
  - split; [apply tests_extend_refl | intros entry function []].
  - cbn [fold_left]. destruct (IH (emit_condition st entry)) as [Hext Hin].
    destruct (emit_condition_tests st entry) as [Hstep Hlines].
    split; [eapply tests_extend_trans; eauto|].
    intros entry' function [<-|Hentry'] Hfunction; [|eapply Hin; eauto].
    apply Hext, Hlines, Hfunction.
Qed.

Lemma emit_level_tests (statements : GroupedList.t)
    (st st' : OrderedDict.t unit * list string) (level : string) :
  emit_level statements st level = Emitted st' ->
  tests_extend st.1 st'.1
  /\ forall conditions entry function,
       iter_conditions statements level = Ok conditions ->
       In entry conditions -> In function entry.2 ->
       In (hash_test function.1) (keys st'.1).
Proof.
  unfold emit_level.
  destruct (get_shader_version_condition_for_level level)
    as [level_condition| |]; try discriminate.
  destruct (iter_conditions statements level) as [conditions|];
    [|discriminate].
  pose proof (emit_conditions_tests conditions
                (st.1, if negb (String.eqb level_condition "")
                       then (st.2 ++ [level_header level_condition])%list
                       else st.2)) as Hfold.
  destruct (fold_left emit_condition conditions _) as [tests lines].
  intros [= <-]. cbn [fst] in *. destruct Hfold as [Hext Hin].
  split; [exact Hext|].
  intros conditions' entry function [= <-]. apply Hin.
Qed.

Lemma emit_levels_tests (statements : GroupedList.t) (ls : list string)
    (st st' : OrderedDict.t unit * list string) :
  emit_levels statements ls st = Emitted st' ->
  tests_extend st.1 st'.1
  /\ forall level conditions entry function,
       In level ls ->
       iter_conditions statements level = Ok conditions ->
       In entry conditions -> In function entry.2 ->
       In (hash_test function.1) (keys st'.1).
Proof.
  revert st. induction ls as [|level ls IH]; intros st.
  - intros [= <-]. split; [apply tests_extend_refl|].
    intros level conditions entry function [].
  - cbn [emit_levels].
    destruct (emit_level statements st level) as [st1| |] eqn:Hlevel;
      try discriminate.
    intros Hrest. destruct (IH _ Hrest) as [Hext Hin].
    destruct (emit_level_tests _ _ _ _ Hlevel) as [Hstep Hlines].
    split; [eapply tests_extend_trans; eauto|].
    intros level' conditions entry function [<-|Hlevel'] Hiter Hentry Hfun.
    + eapply Hext, Hlines; eauto.
    + eapply Hin; eauto.
Qed.

Lemma get_In {V : Type} (d : OrderedDict.t V) (k : string) (v : V) :
  OrderedDict.get d k = Some v -> In (k, v) d.
Proof.
  induction d as [|[k' v'] d IH]; [discriminate|]. cbn.
  destruct (String.eqb_spec k' k) as [->|_].
  - intros [= ->]. now left.
  - intros H. right. now apply IH.
Qed.

(** X13: when the emitter has gone through all levels, the hash tests hold
    no assertion twice, and they hold the assertion of every name that has
    a lookup record at one of the levels. *)
Theorem hash_tests_cover_names (statements : GroupedList.t)
    (script_generated_hash_tests : OrderedDict.t unit)
    (get_unmangled_builtin : list string) :
  emit_get_unmangled_builtin statements
  = Emitted (script_generated_hash_tests, get_unmangled_builtin) ->
  NoDup (keys script_generated_hash_tests)
  /\ forall level condition function_name obj,
       In level levels ->
       stored_record statements level condition function_name = Some obj ->
       In (sanity_check (hash32_value function_name) function_name)
          (keys script_generated_hash_tests).
Proof.
  unfold emit_get_unmangled_builtin.
  destruct (emit_levels statements levels ([], [])) as [st| |] eqn:Hrun;
    try discriminate.
  intros [= <- _]. apply emit_levels_tests in Hrun as [[Hnodup _] Hin].
  split; [apply Hnodup; constructor|].
  intros level condition function_name obj Hlevel Hstored.
  unfold stored_record in Hstored.
  destruct (OrderedDict.get statements level) as [conditions|] eqn:Hconds;
    [|discriminate].
  cbn [mbind option_bind] in Hstored.
  destruct (OrderedDict.get conditions condition) as [functions|] eqn:Hfuns;
    [|discriminate].
  cbn [mbind option_bind] in Hstored.
  apply (Hin level conditions (condition, functions) (function_name, obj));
    [exact Hlevel| |now apply get_In|now apply get_In].
  unfold iter_conditions, GroupedList.at_level. now rewrite Hconds.
Qed.

Lemma emit_levels_succeed (statements : GroupedList.t) (ls : list string)
    (st : OrderedDict.t unit * list string) :
  Forall (fun level => In level levels /\ In level (keys statements)) ls ->
  exists st', emit_levels statements ls st = Emitted st'.
Proof.
  intros Hls. revert st. induction Hls as [|level ls [Hlevel Hkey] _ IH];
    intros st; [now exists st|].
  cbn [emit_levels]. unfold emit_level at 1.
  assert (Hcondition : exists level_condition,
             get_shader_version_condition_for_level level
             = Emitted level_condition).
  { destruct Hlevel as [<-|[<-|[<-|[<-|[]]]]]; eexists; reflexivity. }
  destruct Hcondition as [level_condition ->].
  apply get_key, OrderedDictFacts.mem_true in Hkey as [conditions Hget].
  unfold iter_conditions, GroupedList.at_level. rewrite Hget.
  destruct (fold_left emit_condition conditions _) as [tests lines].
  apply IH.
Qed.

Lemma statements_keys_process_all {order : DictOrder} parsed g :
  process_all parsed = Ok g ->
  keys (unmangled_function_if_statements g) = levels.
Proof.
  apply (process_all_invariant
           (fun g => keys (unmangled_function_if_statements g) = levels));
    [| | | |reflexivity].
  - intros cond g0 H. unfold ensure_condition. destruct (negb _); exact H.
  - intros decl g0 H. exact H.
  - intros cond ta g0 g1 H Hrec.
    apply record_unmangled_outputs in Hrec as [->|(statements & Hadd & ->)];
      [exact H|].
    cbn [unmangled_function_if_statements].
    now rewrite (add_obj_keys _ _ _ _ _ _ Hadd).
  - intros cond ta g0 v g1 H Hrun.
    rewrite (materialize_variant_statements _ _ _ _ _ Hrun). exact H.
Qed.

Lemma hash_tests_cover_names_witness :
  NoDup (keys sample_emitted.1)
  /\ forall level condition function_name obj,
       In level levels ->
       stored_record (unmangled_function_if_statements sample_run) level
         condition function_name = Some obj ->
       In (sanity_check (hash32_value function_name) function_name)
          (keys sample_emitted.1).
Proof.
  apply (hash_tests_cover_names (unmangled_function_if_statements sample_run)
           sample_emitted.1 sample_emitted.2).
  by_compute.
Defined.

(** X14: the emitter cannot fail after a successful run: the four levels
    are exactly the levels that have a shader version condition, the lookup
    records still have these four levels as keys, and the lines emitted end
    with the statement that returns the null pointer. *)
Theorem emitter_succeeds {order : DictOrder} (parsed_functions : OrderedDict.t Group)
    (g : Globals) :
  process_all parsed_functions = Ok g ->
  (forall level,
     In level levels
     <-> exists level_condition,
           get_shader_version_condition_for_level level
           = Emitted level_condition)
  /\ keys (unmangled_function_if_statements g) = levels
  /\ exists script_generated_hash_tests get_unmangled_builtin,
       emit_get_unmangled_builtin (unmangled_function_if_statements g)
       = Emitted (script_generated_hash_tests,
                  (get_unmangled_builtin ++ ["return nullptr;"])%list).
Proof.
  intros Hrun. pose proof (statements_keys_process_all _ _ Hrun) as Hkeys.
  split; [|split; [exact Hkeys|]].
  - intros level. split.
    + intros [<-|[<-|[<-|[<-|[]]]]]; eexists; reflexivity.
    + intros [level_condition Hcondition].
      unfold get_shader_version_condition_for_level in Hcondition.
      unfold levels. cbn [In].
      destruct (String.eqb_spec level "ESSL3_1_BUILTINS") as [->|_]; [auto|].
      destruct (String.eqb_spec level "ESSL3_BUILTINS") as [->|_]; [auto|].
      destruct (String.eqb_spec level "ESSL1_BUILTINS") as [->|_]; [auto|].
      destruct (String.eqb_spec level "COMMON_BUILTINS") as [->|_];
        [auto 6 | discriminate].
  - unfold emit_get_unmangled_builtin.
    destruct (emit_levels_succeed (unmangled_function_if_statements g) levels
                ([], [])) as [[tests lines] ->]; [|eauto].
    rewrite Hkeys. apply Forall_forall. intros level Hlevel.
    apply list_elem_of_In in Hlevel. auto.
Qed.

Lemma emitter_succeeds_witness :
  (forall level,
     In level levels
     <-> exists level_condition,
           get_shader_version_condition_for_level level
           = Emitted level_condition)
  /\ keys (unmangled_function_if_statements sample_run) = levels
  /\ exists script_generated_hash_tests get_unmangled_builtin,
       emit_get_unmangled_builtin (unmangled_function_if_statements sample_run)
       = Emitted (script_generated_hash_tests,
                  (get_unmangled_builtin ++ ["return nullptr;"])%list).
Proof.
  apply (emitter_succeeds (order := insertion_order) sample_registry sample_run).
  apply ok_value_of. by_compute.
Defined.

(** ** The emitter: insert statements *)

Lemma emit_insert_block_app (acc : list string) (entry : string * list string) :
  emit_insert_block acc entry = (acc ++ emit_insert_block [] entry)%list.
Proof.
  unfold emit_insert_block.
  destruct (negb (String.eqb entry.1 "NO_CONDITION")); cbn [app].
  - now rewrite <- !app_assoc.
  - reflexivity.
Qed.

Lemma emit_insert_functions_blocks (by_condition : OrderedDict.t (list string))
    (acc : list string) :
  fold_left emit_insert_block by_condition acc
  = (acc ++ concat (map (emit_insert_block []) by_condition))%list.
Proof.
  revert acc. induction by_condition as [|entry d IH]; intros acc; cbn.
  - now rewrite app_nil_r.
  - rewrite IH, (emit_insert_block_app acc). now rewrite <- app_assoc.
Qed.

Lemma prefix_app (p s : string) : String.prefix p (p ++ s) = true.
Proof.
  induction p as [|c p IH]; [now destruct s|].
  change (String c p ++ s) with (String c (p ++ s)). cbn [String.prefix].
  destruct (ascii_dec c c); [exact IH | contradiction].
Qed.

Lemma insert_statement_is_insert (entry : TemplateArgs * string) :
  is_insert (insert_statement entry) = true.
Proof. apply prefix_app. Qed.

Lemma filter_insert_block (entry : string * list string) :
  Forall (fun line => is_insert line = true) entry.2 ->
  List.filter is_insert (emit_insert_block [] entry) = entry.2.
Proof.
  intros Hlines.
  assert (Hkeep : List.filter is_insert entry.2 = entry.2).
  { induction Hlines as [|line lines Hline _ IH]; [reflexivity|].
    cbn. now rewrite Hline, IH. }
  unfold emit_insert_block.
  destruct (negb (String.eqb entry.1 "NO_CONDITION")); cbn [app].
  - change (List.filter is_insert (condition_header entry.1
                                     :: entry.2 ++ ["}"]))
      with (List.filter is_insert (entry.2 ++ ["}"])).
    rewrite List.filter_app, Hkeep. apply app_nil_r.
  - exact Hkeep.
Qed.

Lemma filter_insert_blocks (by_condition : OrderedDict.t (list string)) :
  Forall (fun line => is_insert line = true) (concat (map snd by_condition)) ->
  List.filter is_insert (concat (map (emit_insert_block []) by_condition))
  = concat (map snd by_condition).
Proof.
  induction by_condition as [|entry d IH]; [reflexivity|]. cbn.
  intros [Hentry Hd]%Forall_app.
  now rewrite List.filter_app, filter_insert_block, IH.
Qed.

Lemma inserts_match_ids_materialize_variant cond ta g v g' :
  inserts_match_ids g -> materialize_variant cond ta g v = Ok g' ->
  inserts_match_ids g'.
Proof.
  intros Hinv Hrun.
  apply materialize_variant_outputs in Hrun
    as [->|(key & mangled & pv & rt & plist & inserts & Hids & _ & _ & _
            & Hget & Hinserts & _)]; [exact Hinv|].
  destruct Hinv as (inserted & Hlines & Hperm).
  destruct (concat_set_old _ _ _ (inserts ++ [insert_function ta key])%list
              Hget) as (before & after & Hbefore & Hafter).
  unfold inserts_match_ids, all_insert_functions in *.
  rewrite Hids, Hinserts, Hafter. rewrite Hbefore in Hlines.
  symmetry in Hlines.
  apply map_eq_app in Hlines as (lb & rest & -> & Hlb & Hrest).
  apply map_eq_app in Hrest as (li & la & -> & Hli & Hla).
  exists (lb ++ (li ++ [(ta, key)]) ++ la)%list. split.
  - rewrite !map_app, Hlb, Hli, Hla. reflexivity.
  - rewrite !map_app in *. cbn [map fst snd]. rewrite <- Hperm.
    rewrite <- !app_assoc. do 2 f_equiv. apply Permutation_app_comm.
Qed.

Lemma inserts_match_ids_process_all {order : DictOrder} parsed g :
  process_all parsed = Ok g -> inserts_match_ids g.
Proof.
  apply (process_all_invariant inserts_match_ids).
  - intros cond g0 (inserted & Hlines & Hperm). exists inserted.
    rewrite all_insert_functions_ensure_condition. split; [exact Hlines|].
    unfold ensure_condition. destruct (negb _); exact Hperm.
  - intros decl g0 H. exact H.
  - intros cond ta g0 g1 H Hrec.
    apply record_unmangled_outputs in Hrec as [->|(statements & _ & ->)];
      exact H.
  - apply inserts_match_ids_materialize_variant.
  - exists []. split; [reflexivity | constructor].
Qed.

(** X15: the lines emitted for [insertBuiltInFunctions] hold, between the
    headers and closing braces of the conditions, the insert statements of
    the identities assigned by the run: one for each unique name, and no
    other. *)
Theorem inserts_cover_identities {order : DictOrder} (parsed_functions : OrderedDict.t Group)
    (g : Globals) :
  process_all parsed_functions = Ok g ->
  exists inserted : list (TemplateArgs * string),
    List.filter is_insert
      (emit_insert_functions (insert_functions_by_condition g))
    = map insert_statement inserted
    /\ map snd inserted ≡ₚ map fst (builtin_id_declarations g)
    /\ NoDup (map snd inserted).
Proof.
  intros Hrun.
  destruct (inserts_match_ids_process_all _ _ Hrun)
    as (inserted & Hlines & Hperm).
  destruct (ids_dense_process_all _ _ Hrun) as (_ & _ & Hnodup & _).
  exists inserted. split; [|split; [exact Hperm | now rewrite Hperm]].
  unfold emit_insert_functions. rewrite emit_insert_functions_blocks.
  cbn [app]. unfold all_insert_functions in Hlines.
  rewrite filter_insert_blocks; [exact Hlines|].
  rewrite Hlines. apply Forall_forall. intros line Hline.
  apply list_elem_of_In, in_map_iff in Hline as (entry & <- & _).
  apply insert_statement_is_insert.
Qed.

Lemma inserts_cover_identities_witness :
  exists inserted : list (TemplateArgs * string),
    List.filter is_insert
      (emit_insert_functions (insert_functions_by_condition sample_run))
    = map insert_statement inserted
    /\ map snd inserted ≡ₚ map fst (builtin_id_declarations sample_run)
    /\ NoDup (map snd inserted).
Proof.
  apply (inserts_cover_identities (order := insertion_order) sample_registry sample_run).
  apply ok_value_of. by_compute.
Defined.

(** ** The parser: what it returns is well formed *)

Lemma TType_of_string_sized (s : string) (t : TType) :
  TType_of_string s = Ok t -> sized t.
Proof.
  unfold TType_of_string, normalize. intros H.
  apply bind_Ok in H as (d & Hd & H).
  apply parse_type_bounds in Hd as (Hp & Hs & _).
  apply bind_Ok in H as (primary & Hprimary & H). injection H as <-.
  unfold sized. cbn.
  destruct (d_primarySize d) as [p|], (d_secondarySize d) as [s2|];
    try discriminate; injection Hprimary as <-; cbn; lia.
Qed.

Lemma word_is_no_parenthesis (c : ascii) :
  is_word c = true -> Ascii.eqb c "(" = false.
Proof.
  destruct (Ascii.eqb_spec c "(") as [->|_]; [discriminate | reflexivity].
Qed.

Lemma span_word_no_parenthesis (s : string) :
  has_char "(" (span_word s).1 = false.
Proof.
  induction s as [|c s IH]; [reflexivity|]. cbn [span_word].
  destruct (is_word c) eqn:Hc; [|reflexivity].
  destruct (span_word s) as [w rest]. cbn [fst has_char] in *.
  now rewrite (word_is_no_parenthesis c Hc), IH.
Qed.

Lemma fun_match_name (line return_type function_name parameters : string) :
  fun_match line = Some (return_type, function_name, parameters) ->
  function_name <> "" /\ has_char "(" function_name = false.
Proof.
  unfold fun_match. destruct (span_word line) as [rt rest].
  destruct rt as [|c rt]; [discriminate|].
  destruct rest as [|c' rest]; [discriminate|].
  destruct (Ascii.eqb_spec c' " ") as [->|Hne].
  2: { destruct c' as [[|] [|] [|] [|] [|] [|] [|] [|]];
         try discriminate; now contradiction Hne. }
  pose proof (span_word_no_parenthesis rest) as Hword.
  destruct (span_word rest) as [n rest']. cbn [fst] in Hword.
  destruct n as [|c0 n]; [discriminate|].
  destruct rest' as [|c1 rest']; [discriminate|].
  destruct (Ascii.eqb_spec c1 "(") as [->|Hne].
  2: { destruct c1 as [[|] [|] [|] [|] [|] [|] [|] [|]];
         try discriminate; now contradiction Hne. }
  destruct (match_args rest'); [|discriminate].
  intros [= _ <- _]. split; [discriminate | exact Hword].
Qed.

Lemma parse_function_parameters_sized (text : string) (ps : list TType) :
  parse_function_parameters text = Ok ps ->
  Forall sized ps /\ Forall tag_known ps.
Proof.
  unfold parse_function_parameters.
  destruct (String.eqb text ""); [intros [= <-]; split; constructor|].
  intros H%mapM_Ok. split.
  - eapply Forall2_Forall_r; [|exact H].
    intros token t Ht. cbn in Ht. now apply TType_of_string_sized in Ht.
  - eapply Forall2_Forall_r; [|exact H].
    intros token t Ht. cbn in Ht. now apply TType_of_string_shape in Ht.
Qed.

Lemma well_formed_add_function (group : Group) (function_props : FunctionProps) :
  well_formed_group group -> well_formed_function function_props ->
  well_formed_group (add_function group function_props).
Proof.
  unfold well_formed_group. destruct group as [n fs subs c]. cbn.
  rewrite !Forall_app. intros [Hfs Hsubs] Hf.
  repeat split; auto.
Qed.

Lemma Forall_concat_set {V A : Type} (P : A -> Prop)
    (F : string * V -> list A) (d : OrderedDict.t V) (k : string) (v : V) :
  Forall P (concat (map F d)) -> Forall P (F (k, v)) ->
  Forall P (concat (map F (OrderedDict.set d k v))).
Proof.
  intros Hd Hv. induction d as [|[k' v'] d IH]; cbn in *.
  - rewrite app_nil_r. exact Hv.
  - apply Forall_app in Hd as [Hhead Htail].
    destruct (String.eqb_spec k' k) as [->|_]; cbn; apply Forall_app; auto.
Qed.

Lemma well_formed_add_subgroup (super_group sub : Group) :
  well_formed_group super_group -> well_formed_group sub ->
  well_formed_group (add_subgroup super_group sub).
Proof.
  unfold well_formed_group. destruct super_group as [n fs subs c]. cbn.
  rewrite !Forall_app. intros [Hfs Hsubs] Hsub. split; [exact Hfs|].
  now apply Forall_concat_set.
Qed.

Lemma Forall_set {V : Type} (P : string * V -> Prop) (d : OrderedDict.t V)
    (k : string) (v : V) :
  Forall P d -> P (k, v) -> Forall P (OrderedDict.set d k v).
Proof.
  intros Hd Hv. induction Hd as [|[k' v'] d Hhead Htail IH]; cbn.
  - constructor; [exact Hv | constructor].
  - destruct (String.eqb_spec k' k) as [->|_]; constructor; auto.
Qed.

Section ParserInvariant.
Variable json_loads : string -> result Metadata.
Hypothesis json_plain :
  forall text metadata, json_loads text = Ok metadata -> plain_metadata metadata.

Lemma parse_line_well_formed (st st' : ParserState) (line : string) :
  parser_well_formed st ->
  parse_line json_loads st line = Ok st' ->
  parser_well_formed st'.
Proof.
  intros (Hparsed & Hstack & Hdefault) H. unfold parse_line in H.
  unfold parser_well_formed.
  destruct (startswith line "GROUP BEGIN ").
  { destruct (split_first_space _) as [group_name metadata_text].
    apply bind_Ok in H as (current_group & Hgroup & H). injection H as <-.
    cbn. split; [exact Hparsed|]. split; [|exact Hdefault].
    constructor; [|exact Hstack].
    destruct metadata_text as [text|].
    - apply bind_Ok in Hgroup as (metadata & Hloads & Hgroup).
      apply bind_Ok in Hgroup as (checked & _ & Hgroup).
      apply json_plain in Hloads as (_ & _ & Hfunctions & Hsubgroups & _).
      injection Hgroup as <-. rewrite Hfunctions, Hsubgroups. constructor.
    - injection Hgroup as <-. constructor. }
  destruct (startswith line "GROUP END ").
  { destruct (group_stack st) as [|current_group stack]; [discriminate|].
    destruct (negb _); [discriminate|].
    apply Forall_cons in Hstack as [Hcurrent Hstack].
    destruct stack as [|super_group outer]; injection H as <-; cbn.
    - split; [now apply Forall_set|]. split; [constructor|].
      unfold plain_metadata. cbn. auto.
    - apply Forall_cons in Hstack as [Hsuper Houter].
      split; [exact Hparsed|]. split; [|exact Hdefault].
      constructor; [|exact Houter].
      now apply well_formed_add_subgroup. }
  destruct (startswith line "DEFAULT METADATA").
  { apply bind_Ok in H as (metadata & Hloads & H). injection H as <-. cbn.
    apply json_plain in Hloads. auto. }
  destruct (fun_match line) as [[[return_type function_name] parameters]|]
    eqn:Hmatch; [|discriminate].
  apply bind_Ok in H as (rt & Hrt & H). apply bind_Ok in H as (ps & Hps & H).
  apply bind_Ok in H as (checked & _ & H).
  destruct (group_stack st) as [|current_group stack]; [discriminate|].
  injection H as <-. cbn. split; [exact Hparsed|]. split; [|exact Hdefault].
  apply Forall_cons in Hstack as [Hcurrent Hstack].
  constructor; [|exact Hstack].
  apply well_formed_add_function; [exact Hcurrent|].
  apply fun_match_name in Hmatch as [Hname Hparen].
  apply parse_function_parameters_sized in Hps as [Hsized Hknown].
  destruct Hdefault as (Hn & Hp & _).
  unfold well_formed_function. cbn. rewrite Hn, Hp. cbn.
  repeat split; try assumption.
  - constructor; [|exact Hsized]. now apply TType_of_string_sized in Hrt.
  - constructor; [|exact Hknown]. now apply TType_of_string_shape in Hrt.
Qed.

Lemma parse_lines_well_formed (lines : list string) (st : ParserState) :
  parse_lines json_loads lines initial_parser_state = Ok st ->
  parser_well_formed st.
Proof.
  apply (foldM_invariant parser_well_formed (parse_line json_loads)).
  - intros st0 line st1. apply parse_line_well_formed.
  - unfold parser_well_formed, plain_metadata. cbn.
    repeat split; constructor.
Qed.
End ParserInvariant.



(** ** The parser: groups are well bracketed *)

Section ParserDepth.
Variable json_loads : string -> result Metadata.

Lemma parse_line_depth (st st' : ParserState) (line : string) :
  parse_line json_loads st line = Ok st' ->
  (length (group_stack st') + (if is_end line then 1 else 0)
   = length (group_stack st) + (if is_begin line then 1 else 0))%nat
  /\ (is_begin line = false -> is_default_metadata line = false ->
      group_stack st <> []).
Proof.
  unfold parse_line, is_default_metadata, is_end, is_begin. intros H.
  destruct (startswith line "GROUP BEGIN ").
  { destruct (split_first_space _) as [group_name metadata_text].
    apply bind_Ok in H as (current_group & _ & H). injection H as <-.
    cbn. split; [lia | discriminate]. }
  destruct (startswith line "GROUP END ").
  { destruct (group_stack st) as [|current_group stack]; [discriminate|].
    destruct (negb (String.eqb _ _)); [discriminate|].
    destruct stack as [|super_group outer]; injection H as <-; cbn;
      (split; [lia | discriminate]). }
  destruct (startswith line "DEFAULT METADATA").
  { apply bind_Ok in H as (metadata & _ & H). injection H as <-.
    cbn. split; [lia | discriminate]. }
  destruct (fun_match line) as [[[return_type function_name] parameters]|];
    [|discriminate].
  apply bind_Ok in H as (rt & _ & H). apply bind_Ok in H as (ps & _ & H).
  apply bind_Ok in H as (checked & _ & H).
  destruct (group_stack st) as [|current_group stack]; [discriminate|].
  injection H as <-. cbn. split; [lia | discriminate].
Qed.

Lemma parse_lines_depth (lines : list string) (st st' : ParserState) :
  parse_lines json_loads lines st = Ok st' ->
  (length (group_stack st') + count_lines is_end lines
   = length (group_stack st) + count_lines is_begin lines)%nat.
Proof.
  unfold parse_lines, count_lines. revert st.
  induction lines as [|line lines IH]; intros st H.
  - injection H as <-. reflexivity.
  - rewrite foldM_cons in H. apply bind_Ok in H as (st1 & Hline & H).
    apply IH in H. apply parse_line_depth in Hline as [Hline _].
    cbn [List.filter].
    destruct (is_end line), (is_begin line); cbn [length]; lia.
Qed.
End ParserDepth.

(** X17: in an input the parser accepts, the groups are well bracketed up
    to any point: as many groups are open as [GROUP BEGIN] lines outnumber
    [GROUP END] lines, and a line that is neither a [GROUP BEGIN] nor a
    [DEFAULT METADATA] line, that is a [GROUP END] or a declaration, only
    comes while a group is open. *)
Theorem groups_well_bracketed (json_loads : string -> result Metadata)
    (before after : list string) (st : ParserState) :
  parse_lines json_loads (before ++ after) initial_parser_state = Ok st ->
  exists st1,
    parse_lines json_loads before initial_parser_state = Ok st1
    /\ (length (group_stack st1) + count_lines is_end before
        = count_lines is_begin before)%nat
    /\ forall line rest,
         after = line :: rest ->
         is_begin line = false -> is_default_metadata line = false ->
         (count_lines is_end before < count_lines is_begin before)%nat.
Proof.
  unfold parse_lines. rewrite foldM_app. intros H.
  apply bind_Ok in H as (st1 & Hbefore & Hafter).
  exists st1. split; [exact Hbefore|].
  pose proof (parse_lines_depth _ _ _ _ Hbefore) as Hdepth.
  cbn [group_stack initial_parser_state length] in Hdepth.
  split; [exact Hdepth|].
  intros line rest -> Hbegin Hdefault.
  rewrite foldM_cons in Hafter. apply bind_Ok in Hafter as (st2 & Hline & _).
  apply parse_line_depth in Hline as [_ Hopen].
  specialize (Hopen Hbegin Hdefault).
  destruct (group_stack st1); [contradiction|]. cbn [length] in Hdepth. lia.
Qed.

Lemma groups_well_bracketed_witness :
  exists st1,
    parse_lines sample_json_loads (firstn 2 (significant_lines sample_source))
      initial_parser_state = Ok st1
    /\ (length (group_stack st1)
        + count_lines is_end (firstn 2 (significant_lines sample_source))
        = count_lines is_begin (firstn 2 (significant_lines sample_source)))%nat
    /\ forall line rest,
         skipn 2 (significant_lines sample_source) = line :: rest ->
         is_begin line = false -> is_default_metadata line = false ->
         (count_lines is_end (firstn 2 (significant_lines sample_source))
          < count_lines is_begin
              (firstn 2 (significant_lines sample_source)))%nat.
Proof.
  apply (groups_well_bracketed sample_json_loads
           (firstn 2 (significant_lines sample_source))
           (skipn 2 (significant_lines sample_source))
           (value_of initial_parser_state
              (parse_lines sample_json_loads (significant_lines sample_source)
                 initial_parser_state))).
  apply ok_value_of. by_compute.
Defined.

(** ** Parameter arrays with the same name have the same contents *)

Lemma codes_are_no_markers :
  forallb code_is_no_marker basic_mangled_names = true.
Proof. by_compute. Qed.

Lemma mangled_token_is_no_marker (t : TType) (token : string) :
  sized t -> mangled_token t = Ok token -> token <> "o" /\ token <> "io".
Proof.
  intros Hsized (b & code & _ & Hcode & ->)%mangled_token_parts.
  destruct (size_prefix_digits t Hsized) as (Hdigits & _).
  unfold key_lookup in Hcode.
  destruct (lookup_table basic_mangled_names b) as [v|] eqn:Hv;
    [|discriminate].
  injection Hcode as ->. apply lookup_table_In in Hv.
  pose proof (proj1 (forallb_forall _ _) codes_are_no_markers _ Hv) as Hno.
  unfold code_is_no_marker in Hno. cbn [snd] in Hno.
  apply andb_true_iff in Hno as [Ho Hio].
  apply negb_true_iff in Ho, Hio.
  apply String.eqb_neq in Ho, Hio.
  destruct (size_prefix t) as [|c d]; [now split|].
  cbn [size_digits] in Hdigits. apply andb_true_iff in Hdigits as [Hc _].
  change (String c d ++ code) with (String c (d ++ code)).
  split; intros [= -> _]; discriminate Hc.
Qed.

Lemma qualifier_marker_cases (t : TType) :
  In (qualifier t) ["Global"; "Out"; "InOut"] ->
  (qualifier t = "Global" /\ qualifier_marker t = "")
  \/ (qualifier t = "Out" /\ qualifier_marker t = "o_")
  \/ (qualifier t = "InOut" /\ qualifier_marker t = "io_").
Proof.
  unfold qualifier_marker.
  intros [H|[H|[H|[]]]]; rewrite <- H; cbn; auto.
Qed.

Lemma marked_tokens_cons (p : TType) (ps : list TType) (token : string)
    (tokens : list string) :
  terminated "_" (marked_tokens (p :: ps) (token :: tokens))
  = qualifier_marker p ++ token
      ++ String "_" (terminated "_" (marked_tokens ps tokens)).
Proof.
  cbn [marked_tokens zip_with terminated]. now rewrite append_assoc.
Qed.

Lemma append_separator_nonempty (a b : string) (c : ascii) (d : string) :
  a ++ b ++ String c d <> "".
Proof. destruct a, b; discriminate. Qed.

(** Marked tokens are read back in one way. *)
Lemma marked_tokens_inj (ps qs : list TType) (tps tqs : list string) :
  Forall plain ps -> Forall plain qs ->
  mapM mangled_token ps = Ok tps -> mapM mangled_token qs = Ok tqs ->
  terminated "_" (marked_tokens ps tps) = terminated "_" (marked_tokens qs tqs) ->
  Forall2 (fun p q => same_kind p q /\ qualifier p = qualifier q) ps qs.
Proof.
  intros Hps. revert qs tps tqs.
  induction Hps as [|p ps Hp Hps IH]; intros qs tps tqs Hqs Htps Htqs Heq;
    destruct Hqs as [|q qs Hq Hqs].
  - constructor.
  - exfalso. injection Htps as <-. rewrite mapM_cons in Htqs.
    apply bind_Ok in Htqs as (tq & _ & Htqs).
    apply bind_Ok in Htqs as (tqs' & _ & Htqs). injection Htqs as <-.
    rewrite marked_tokens_cons in Heq. symmetry in Heq.
    now apply append_separator_nonempty in Heq.
  - exfalso. injection Htqs as <-. rewrite mapM_cons in Htps.
    apply bind_Ok in Htps as (tp & _ & Htps).
    apply bind_Ok in Htps as (tps' & _ & Htps). injection Htps as <-.
    rewrite marked_tokens_cons in Heq.
    now apply append_separator_nonempty in Heq.
  - rewrite mapM_cons in Htps, Htqs.
    apply bind_Ok in Htps as (tp & Htp & Htps).
    apply bind_Ok in Htps as (tps' & Htps' & Htps). injection Htps as <-.
    apply bind_Ok in Htqs as (tq & Htq & Htqs).
    apply bind_Ok in Htqs as (tqs' & Htqs' & Htqs). injection Htqs as <-.
    rewrite !marked_tokens_cons in Heq.
    destruct Hp as (Hsp & _ & Hqp), Hq as (Hsq & _ & Hqq).
    destruct (mangled_token_separator_free p tp Hsp Htp) as [_ Hup].
    destruct (mangled_token_separator_free q tq Hsq Htq) as [_ Huq].
    destruct (mangled_token_is_no_marker p tp Hsp Htp) as [Hpo Hpio].
    destruct (mangled_token_is_no_marker q tq Hsq Htq) as [Hqo Hqio].
    assert (Hsame : tp = tq
                    /\ qualifier p = qualifier q
                    /\ terminated "_" (marked_tokens ps tps')
                       = terminated "_" (marked_tokens qs tqs')).
    { destruct (qualifier_marker_cases p Hqp)
        as [[Hp1 Hp2]|[[Hp1 Hp2]|[Hp1 Hp2]]];
        destruct (qualifier_marker_cases q Hqq)
          as [[Hq1 Hq2]|[[Hq1 Hq2]|[Hq1 Hq2]]];
        rewrite Hp1, Hq1, Hp2, Hq2 in *.
      - destruct (split_at_char "_" tp tq _ _ Hup Huq Heq) as [-> ?]. auto.
      - exfalso.
        change (tp ++ String "_" (terminated "_" (marked_tokens ps tps'))
                = "o" ++ String "_" (tq ++ String "_"
                    (terminated "_" (marked_tokens qs tqs')))) in Heq.
        now destruct (split_at_char "_" tp "o" _ _ Hup eq_refl Heq).
      - exfalso.
        change (tp ++ String "_" (terminated "_" (marked_tokens ps tps'))
                = "io" ++ String "_" (tq ++ String "_"
                    (terminated "_" (marked_tokens qs tqs')))) in Heq.
        now destruct (split_at_char "_" tp "io" _ _ Hup eq_refl Heq).
      - exfalso.
        change ("o" ++ String "_" (tp ++ String "_"
                  (terminated "_" (marked_tokens ps tps')))
                = tq ++ String "_" (terminated "_" (marked_tokens qs tqs')))
          in Heq.
        destruct (split_at_char "_" "o" tq _ _ eq_refl Huq Heq) as [Ho _].
        now apply Hqo.
      - injection Heq as Heq.
        destruct (split_at_char "_" tp tq _ _ Hup Huq Heq) as [-> ?]. auto.
      - exfalso. discriminate Heq.
      - exfalso.
        change ("io" ++ String "_" (tp ++ String "_"
                  (terminated "_" (marked_tokens ps tps')))
                = tq ++ String "_" (terminated "_" (marked_tokens qs tqs')))
          in Heq.
        destruct (split_at_char "_" "io" tq _ _ eq_refl Huq Heq) as [Hio _].
        now apply Hqio.
      - exfalso. discriminate Heq.
      - injection Heq as Heq.
        destruct (split_at_char "_" tp tq _ _ Hup Huq Heq) as [-> ?]. auto. }
    destruct Hsame as (-> & Hqual & Hrest).
    constructor; [|eapply IH; eauto].
    split; [|exact Hqual]. eapply mangled_token_inj; eauto.
Qed.

Lemma parameter_text_same (p q : TType) :
  same_kind p q -> qualifier p = qualifier q -> precision p = precision q ->
  parameter_text p = parameter_text q.
Proof.
  intros (Hb & Hp & Hs) Hq Hprec.
  unfold parameter_text, get_statictype_string, get_basic.
  now rewrite Hb, Hp, Hs, Hq, Hprec.
Qed.

(** X18: parameter arrays with the same name have the same contents: for
    parameter lists whose types have sizes from 1 to 4, no precision and one
    of the qualifiers [Global], [Out] and [InOut], the same variable name
    from [get_variable_name_to_store_parameters] means the same number of
    parameters, which agree one by one in kind, sizes and qualifier, and
    the same parameter texts in the array declaration. *)
Theorem parameter_names_decode (ps qs : list TType) (var_name : string) :
  Forall plain ps -> Forall plain qs ->
  get_variable_name_to_store_parameters ps = Ok var_name ->
  get_variable_name_to_store_parameters qs = Ok var_name ->
  Forall2 (fun p q => same_kind p q /\ qualifier p = qualifier q) ps qs
  /\ mapM parameter_text ps = mapM parameter_text qs.
Proof.
  intros Hps Hqs H1 H2.
  assert (Hsame : Forall2 (fun p q => same_kind p q
                                      /\ qualifier p = qualifier q) ps qs).
  { rewrite get_variable_name_to_store_parameters_closed in H1, H2.
    destruct ps as [|p ps], qs as [|q qs].
    - constructor.
    - exfalso. injection H1 as <-.
      destruct (mapM mangled_token (q :: qs)); discriminate.
    - exfalso. injection H2 as <-.
      destruct (mapM mangled_token (p :: ps)); discriminate.
    - destruct (mapM mangled_token (p :: ps)) as [tps|] eqn:Htps;
        [|discriminate].
      destruct (mapM mangled_token (q :: qs)) as [tqs|] eqn:Htqs;
        [|discriminate].
      cbn [mbind result_bind] in H1, H2.
      injection H1 as <-. injection H2 as H2.
      eapply marked_tokens_inj; eauto. }
  split; [exact Hsame|].
  clear H1 H2. induction Hsame as [|p q ps qs [Hkind Hqual] _ IH];
    [reflexivity|].
  apply Forall_cons in Hps as [(_ & Hprec & _) Hps].
  apply Forall_cons in Hqs as [(_ & Hprec' & _) Hqs].
  rewrite !mapM_cons, (IH Hps Hqs).
  rewrite (parameter_text_same p q Hkind Hqual); [reflexivity | congruence].
Qed.

Lemma parameter_names_decode_witness :
  Forall2 (fun p q => same_kind p q /\ qualifier p = qualifier q)
          [float_type; out_float_type] [float_type; out_float_type]
  /\ mapM parameter_text [float_type; out_float_type]
     = mapM parameter_text [float_type; out_float_type].
Proof.
  apply (parameter_names_decode [float_type; out_float_type]
           [float_type; out_float_type] "p_f_o_f_").
  - repeat constructor; cbn; auto; lia.
  - repeat constructor; cbn; auto; lia.
  - by_compute.
  - by_compute.
Defined.

(** ** Every variant of every declaration gets its identity *)

Lemma covered_mono (defined defined' : gset string)
    (function_props : FunctionProps) :
  defined ⊆ defined' -> covered defined function_props ->
  covered defined' function_props.
Proof.
  intros Hsub (Hlevel & Hop & variants & Hvariants & Hkeys).
  split; [exact Hlevel|]. split; [exact Hop|].
  exists variants. split; [exact Hvariants|].
  eapply Forall_impl; [exact Hkeys|].
  intros v (key & Hkey & Hdefined). exists key. auto.
Qed.

(** A loop over the state that only adds defined names, each step
    establishing something that more defined names do not undo. *)
Lemma foldM_covers {A : Type} (step : Globals -> A -> result Globals)
    (Q : gset string -> A -> Prop) (xs : list A) :
  (forall defined defined' a, defined ⊆ defined' -> Q defined a -> Q defined' a) ->
  Forall (fun a =>
            forall g g',
              step g a = Ok g' ->
              Q (defined_function_variants g') a
              /\ defined_function_variants g ⊆ defined_function_variants g')
         xs ->
  forall g g',
    foldM step xs g = Ok g' ->
    Forall (Q (defined_function_variants g')) xs
    /\ defined_function_variants g ⊆ defined_function_variants g'.
Proof.
  intros Hmono Hsteps. induction Hsteps as [|a xs Hstep _ IH]; intros g g' H.
  - injection H as <-. split; [constructor | reflexivity].
  - rewrite foldM_cons in H. apply bind_Ok in H as (g1 & Ha & H).
    destruct (Hstep _ _ Ha) as [HQ Hsub].
    destruct (IH _ _ H) as [Hrest Hsub'].
    split; [|etransitivity; eauto].
    constructor; [|exact Hrest]. eapply Hmono; eauto.
Qed.

Lemma get_level_valid (self : GroupedList.t) (level condition name : string)
    (r : option UnmangledCase) :
  GroupedList.get self level condition name = Ok r -> In level levels.
Proof.
  unfold GroupedList.get, GroupedList.has_key, GroupedList.check_level.
  destruct (existsb (String.eqb level) levels) eqn:Hlevel; [|discriminate].
  intros _. apply existsb_exists in Hlevel as (l & Hl & Heq).
  apply String.eqb_eq in Heq. now subst l.
Qed.

Lemma process_function_covers cond g function_props g' :
  process_function cond g function_props = Ok g' ->
  covered (defined_function_variants g') function_props
  /\ defined_function_variants g ⊆ defined_function_variants g'.
Proof.
  intros H. unfold process_function in H. cbv zeta in H.
  apply bind_Ok in H as (l & Hlevel & H).
  apply bind_Ok in H as (o & Hop & H).
  apply bind_Ok in H as (variants & Hvariants & H).
  apply bind_Ok in H as (g1 & Hrec & H).
  assert (Hvalid : In l levels).
  { unfold record_unmangled in Hrec. cbv zeta in Hrec.
    apply bind_Ok in Hrec as (r & Hget & _).
    now apply get_level_valid in Hget. }
  apply record_unmangled_frame in Hrec as (_ & _ & Hdefined).
  apply (foldM_covers _
           (fun defined v =>
              exists key,
                get_unique_identifier_name
                  (name function_props ++ get_suffix function_props)
                  (parameters v) = Ok key
                /\ key ∈ defined)) in H.
  - destruct H as [Hkeys Hsub]. split.
    + split.
      * exists l. split; [|exact Hvalid].
        destruct (level function_props); [congruence | discriminate].
      * split; [|eauto].
        unfold get_op in Hop. now destruct (op function_props).
    + rewrite <- Hsub, Hdefined. reflexivity.
  - intros defined defined' v Hsub (key & Hkey & Hin). exists key. auto.
  - apply Forall_forall. intros v _ g0 g0' Hrun.
    apply materialize_variant_inv in Hrun as (key & Hkey & Hcase).
    cbn [ta_name_with_suffix] in Hkey.
    destruct Hcase as [[Hin ->]|(_ & Hdef & _)].
    + split; [eauto | reflexivity].
    + rewrite Hdef. split; [|apply union_subseteq_l].
      exists key. split; [exact Hkey|].
      apply elem_of_union_r, elem_of_singleton. reflexivity.
Qed.

Lemma process_function_group_covers {order : DictOrder} group_name group g g' :
  process_function_group group_name group g = Ok g' ->
  Forall (covered (defined_function_variants g')) (all_functions group)
  /\ defined_function_variants g ⊆ defined_function_variants g'.
Proof.
  revert group_name g g'.
  induction group as [n fs subs c IHsubs] using Group_induction.
  intros group_name g g' H. rewrite process_function_group_unfold in H.
  cbv zeta in H. apply bind_Ok in H as (g1 & Hfuns & H).
  unfold process_single_function_group in Hfuns. cbn [functions] in Hfuns.
  apply (foldM_covers _ covered) in Hfuns.
  2: { apply covered_mono. }
  2: { apply Forall_forall. intros f _ g0 g0'.
       apply process_function_covers. }
  apply (foldM_covers _
           (fun defined (entry : string * Group) =>
              Forall (covered defined) (all_functions entry.2))) in H.
  2: { intros defined defined' entry Hsub Hall.
       eapply Forall_impl; [exact Hall|]. intros f. now apply covered_mono. }
  2: { apply Forall_dict_items in IHsubs.
       eapply Forall_impl; [exact IHsubs|].
       intros [k sub] IH g0 g0'. cbn [fst snd]. apply IH. }
  destruct Hfuns as [Hfs Hsub1]. destruct H as [Hsubs Hsub2].
  split.
  - cbn [all_functions]. apply Forall_app. split.
    + eapply Forall_impl; [exact Hfs|]. intros f. now apply covered_mono.
    + apply Forall_dict_items in Hsubs. clear -Hsubs.
      induction Hsubs as [|entry subs Hentry _ IH]; cbn; [constructor|].
      apply Forall_app. auto.
  - etransitivity; [|exact Hsub2]. etransitivity; [|exact Hsub1].
    unfold ensure_condition. now destruct (negb _).
Qed.

(** X19: no variant is lost: after a successful run every declaration, in
    a group or in a subgroup at any depth, has one of the four levels and
    an operator, its expansion has succeeded, and the unique name of each
    of its variants has an identity. *)
Theorem variants_have_identities {order : DictOrder} (parsed_functions : OrderedDict.t Group)
    (g : Globals) (group_name : string) (group : Group)
    (function_props : FunctionProps) :
  process_all parsed_functions = Ok g ->
  In (group_name, group) parsed_functions ->
  In function_props (all_functions group) ->
  (exists l, level function_props = Some l /\ In l levels)
  /\ op function_props <> None
  /\ exists variants,
       gen_function_variants (name function_props) function_props
       = Ok variants
       /\ Forall (fun v =>
                    exists key,
                      get_unique_identifier_name
                        (name function_props ++ get_suffix function_props)
                        (parameters v) = Ok key
                      /\ In key (map fst (builtin_id_declarations g)))
                 variants.
Proof.
  intros Hrun Hgroup Hfunction.
  destruct (ids_dense_process_all _ _ Hrun) as (_ & _ & _ & Hdefined).
  unfold process_all in Hrun.
  apply (foldM_covers _
           (fun defined (entry : string * Group) =>
              Forall (covered defined) (all_functions entry.2))) in Hrun.
  2: { intros defined defined' entry Hsub Hall.
       eapply Forall_impl; [exact Hall|]. intros f. now apply covered_mono. }
  2: { apply Forall_forall. intros [k sub] _ g0 g0'. cbn [fst snd].
       apply process_function_group_covers. }
  destruct Hrun as [Hall _]. rewrite Forall_forall in Hall.
  specialize (Hall _ (proj2 (list_elem_of_In _ _) Hgroup)).
  cbn [snd] in Hall. rewrite Forall_forall in Hall.
  destruct (Hall _ (proj2 (list_elem_of_In _ _) Hfunction))
    as (Hlevel & Hop & variants & Hvariants & Hkeys).
  split; [exact Hlevel|]. split; [exact Hop|].
  exists variants. split; [exact Hvariants|].
  eapply Forall_impl; [exact Hkeys|].
  intros v (key & Hkey & Hin). exists key. split; [exact Hkey|].
  rewrite Hdefined in Hin. apply elem_of_list_to_set in Hin.
  now apply list_elem_of_In.
Qed.

Lemma variants_have_identities_witness :
  (exists l, level genType_decl = Some l /\ In l levels)
  /\ op genType_decl <> None
  /\ exists variants,
       gen_function_variants (name genType_decl) genType_decl = Ok variants
       /\ Forall (fun v =>
                    exists key,
                      get_unique_identifier_name
                        (name genType_decl ++ get_suffix genType_decl)
                        (parameters v) = Ok key
                      /\ In key (map fst (builtin_id_declarations sample_run)))
                 variants.
Proof.
  apply (variants_have_identities (order := insertion_order) sample_registry sample_run "Math"
           (mkGroup "Math"
              [genType_decl; sin_float; cos_void; modf_in; modf_out]
              [("Texture",
                mkGroup "Texture" [sampler_decl] []
                        (Some "shaderType == GL_FRAGMENT_SHADER"))]
              None)
           genType_decl).
  - apply ok_value_of. by_compute.
  - left. reflexivity.
  - left. reflexivity.
Defined.

(** ** Lookup records: core replaces an extension, an extension nothing *)

(** X20: where no unconditioned core record shadows the name, a
    declaration writes its lookup record exactly when the name has none yet
    under its level and condition, or when the declaration is a core one
    (extension [UNDEFINED]), which then replaces the record of an extension;
    the record of an extension never replaces a record that is there.  No
    other slot changes. *)
Theorem core_replaces_extension (cond : string) (ta : TemplateArgs)
    (g : Globals) :
  let statements := unmangled_function_if_statements g in
  let written := mkUnmangledCase (unmangled_if ta) (ta_extension ta) in
  keys statements = levels ->
  In (ta_level ta) levels ->
  (forall obj,
     stored_record statements (ta_level ta) "NO_CONDITION" (ta_name ta)
     = Some obj ->
     case_extension obj <> "UNDEFINED") ->
  exists g',
    record_unmangled cond ta g = Ok g'
    /\ stored_record (unmangled_function_if_statements g') (ta_level ta) cond
         (ta_name ta)
       = match stored_record statements (ta_level ta) cond (ta_name ta) with
         | Some old =>
             if String.eqb (ta_extension ta) "UNDEFINED" then Some written
             else Some old
         | None => Some written
         end
    /\ forall level' cond' name',
         ~ (level' = ta_level ta /\ cond' = cond /\ name' = ta_name ta) ->
         stored_record (unmangled_function_if_statements g') level' cond' name'
         = stored_record statements level' cond' name'.
Proof.
  intros statements written Hkeys Hlevel Hunshadowed.
  assert (Hkey : In (ta_level ta) (keys statements)) by now rewrite Hkeys.
  unfold record_unmangled. cbv zeta. fold statements written.
  rewrite (get_stored statements _ _ _ Hlevel Hkey).
  cbn [mbind result_bind].
  assert (Hshadow :
            match stored_record statements (ta_level ta) "NO_CONDITION"
                    (ta_name ta) with
            | Some obj => String.eqb (case_extension obj) "UNDEFINED"
            | None => false
            end = false).
  { destruct (stored_record statements (ta_level ta) "NO_CONDITION"
                (ta_name ta)) as [obj|] eqn:Hobj; [|reflexivity].
    apply String.eqb_neq. now apply Hunshadowed. }
  rewrite Hshadow, (has_key_stored statements _ _ _ Hlevel Hkey).
  cbn [mbind result_bind].
  pose proof (add_obj_succeeds statements (ta_level ta) cond (ta_name ta)
                written Hlevel Hkey) as Hadd.
  destruct (GroupedList.add_obj statements (ta_level ta) cond (ta_name ta)
              written) as [statements'|] eqn:Hadd'; [|discriminate].
  pose proof (GroupedListFacts.stored_add_obj _ _ _ _ _ _ Hadd') as Hstored.
  destruct (stored_record statements (ta_level ta) cond (ta_name ta))
    as [old|] eqn:Hold.
  - rewrite bool_decide_eq_true_2 by discriminate. cbn [negb orb].
    destruct (String.eqb (ta_extension ta) "UNDEFINED").
    + eexists. split; [reflexivity|].
      cbn [unmangled_function_if_statements]. split.
      * rewrite Hstored. now rewrite bool_decide_eq_true_2.
      * intros level' cond' name' Hother.
        rewrite Hstored. now rewrite bool_decide_eq_false_2.
    + exists g. split; [reflexivity|]. fold statements. rewrite Hold. auto.
  - rewrite bool_decide_eq_false_2 by (intros H; now apply H).
    cbn [negb orb]. eexists. split; [reflexivity|].
    cbn [unmangled_function_if_statements]. split.
    + rewrite Hstored. now rewrite bool_decide_eq_true_2.
    + intros level' cond' name' Hother.
      rewrite Hstored. now rewrite bool_decide_eq_false_2.
Qed.

Lemma core_replaces_extension_witness :
  exists g',
    record_unmangled "NO_CONDITION" (sample_args "sin") initial_globals = Ok g'
    /\ stored_record (unmangled_function_if_statements g') "COMMON_BUILTINS"
         "NO_CONDITION" "sin"
       = match
           stored_record (unmangled_function_if_statements initial_globals)
             "COMMON_BUILTINS" "NO_CONDITION" "sin"
         with
         | Some old =>
             if String.eqb "UNDEFINED" "UNDEFINED" then Some sample_case
             else Some old
         | None => Some sample_case
         end
    /\ forall level' cond' name',
         ~ (level' = "COMMON_BUILTINS" /\ cond' = "NO_CONDITION"
            /\ name' = "sin") ->
         stored_record (unmangled_function_if_statements g') level' cond' name'
         = stored_record (unmangled_function_if_statements initial_globals)
             level' cond' name'.
Proof.
  apply (core_replaces_extension "NO_CONDITION" (sample_args "sin")
           initial_globals).
  - reflexivity.
  - vm_compute. auto.
  - intros obj H. vm_compute in H. discriminate H.
Defined.

(** ** Output parameters and the side-effect flag *)

Lemma parse_unqualified_qualifier (s : string) (d : TypeDict) :
  parse_unqualified s = Ok d -> d_qualifier d = None.
Proof.
  unfold parse_unqualified, key_lookup, upper_at. intros H.
  destruct (lookup_table basic_type_map s).
  { now injection H as <-. }
  destruct (vec_match s) as [[g1 [n|]]|].
  { destruct (lookup_table basic_type_prefix_map g1); [|discriminate].
    now injection H as <-. }
  { destruct (lookup_table basic_type_prefix_map g1); [|discriminate].
    now injection H as <-. }
  destruct (mat_match s) as [[n1 g3]|].
  { destruct (Nat.eqb _ 4); [now injection H as <-|].
    destruct g3 as [n3|]; [|discriminate]. now injection H as <-. }
  destruct (gen_match s) as [g1|].
  { destruct (lookup_table basic_type_prefix_map _); [|discriminate].
    now injection H as <-. }
  destruct (startswith s "sampler").
  { destruct (slice_from 0 s); [discriminate|]. now injection H as <-. }
  destruct (startswith s "gsampler" || startswith s "gimage")%bool.
  { destruct (slice_from 1 s); [discriminate|]. now injection H as <-. }
  destruct (String.eqb s "gvec4"); [now injection H as <-|].
  destruct (String.eqb s "gvec3"); [|discriminate].
  now injection H as <-.
Qed.

(** The qualifier of a parsed type is decided by the first word of its
    text. *)
Lemma TType_of_string_qualifier (token : string) (t : TType) :
  TType_of_string token = Ok t ->
  qualifier t
  = if startswith token "out " then "Out"
    else if startswith token "inout " then "InOut" else "Global".
Proof.
  unfold TType_of_string. intros H. apply bind_Ok in H as (d & Hd & H).
  assert (Hq : d_qualifier d
               = if startswith token "out " then Some "Out"
                 else if startswith token "inout " then Some "InOut"
                 else None).
  { rewrite parse_type_unfold in Hd. unfold strip_prefix in Hd.
    destruct (startswith token "out ").
    - apply bind_Ok in Hd as (d0 & _ & Hd). now injection Hd as <-.
    - destruct (startswith token "inout ").
      + apply bind_Ok in Hd as (d0 & _ & Hd). now injection Hd as <-.
      + exact (parse_unqualified_qualifier _ _ Hd). }
  unfold normalize in H. apply bind_Ok in H as (primary & _ & H).
  injection H as <-. cbn [qualifier]. rewrite Hq.
  destruct (startswith token "out "); [reflexivity|].
  destruct (startswith token "inout "); reflexivity.
Qed.

Lemma output_parameters (tokens : list string) (params : list TType) :
  mapM TType_of_string tokens = Ok params ->
  existsb (fun param =>
             String.eqb (qualifier param) "Out"
             || String.eqb (qualifier param) "InOut") params
  = existsb has_out_prefix tokens.
Proof.
  intros H%mapM_Ok. induction H as [|token p tokens ps Hp _ IH];
    [reflexivity|].
  cbn [existsb]. rewrite IH. f_equal.
  apply TType_of_string_qualifier in Hp. rewrite Hp. unfold has_out_prefix.
  destruct (startswith token "out "); [reflexivity|].
  destruct (startswith token "inout "); reflexivity.
Qed.

(** X21: a declaration is marked as known to have no side effects exactly
    when its operator is given and is not [CallBuiltInFunction], its
    metadata has no [hasSideEffects] key, and none of its parameter texts
    opens with [out] or [inout]; in every other case the flag is [false]. *)
Theorem side_effect_flag (decl : FunctionProps) (tokens : list string) :
  mapM TType_of_string tokens = Ok (parameters decl) ->
  (get_known_to_not_have_side_effects decl = "true"
   <-> (exists o, op decl = Some o /\ o <> "CallBuiltInFunction")
       /\ hasSideEffects decl = false
       /\ Forall (fun token => has_out_prefix token = false) tokens)
  /\ (get_known_to_not_have_side_effects decl <> "true" ->
      get_known_to_not_have_side_effects decl = "false").
Proof.
  intros Hparse. apply output_parameters in Hparse.
  unfold get_known_to_not_have_side_effects, get_parameters.
  rewrite Hparse. clear Hparse.
  assert (Hall : existsb has_out_prefix tokens = false
                 <-> Forall (fun token => has_out_prefix token = false) tokens).
  { induction tokens as [|token tokens IH]; cbn [existsb].
    - split; [constructor | reflexivity].
    - rewrite Forall_cons, orb_false_iff, IH. reflexivity. }
  destruct (op decl) as [o|].
  2: { split; [|reflexivity].
       split; [discriminate | intros [(o & Ho & _) _]; discriminate]. }
  destruct (String.eqb_spec o "CallBuiltInFunction") as [->|Hne]; cbn [negb].
  { split; [|reflexivity].
    split; [discriminate|]. intros [(o & [= <-] & Ho) _]. now contradiction Ho. }
  destruct (hasSideEffects decl).
  { split; [|reflexivity].
    split; [discriminate | intros (_ & H & _); discriminate]. }
  destruct (existsb has_out_prefix tokens).
  - split; [|reflexivity].
    split; [discriminate|]. intros (_ & _ & H). apply Hall in H. discriminate.
  - split; [|intros H; now contradiction H].
    split; [|reflexivity]. intros _.
    split; [exists o; auto|]. split; [reflexivity|]. now apply Hall.
Qed.

Lemma side_effect_flag_witness :
  (get_known_to_not_have_side_effects modf_out = "true"
   <-> (exists o, op modf_out = Some o /\ o <> "CallBuiltInFunction")
       /\ hasSideEffects modf_out = false
       /\ Forall (fun token => has_out_prefix token = false)
                 ["float"; "out float"])
  /\ (get_known_to_not_have_side_effects modf_out <> "true" ->
      get_known_to_not_have_side_effects modf_out = "false").
Proof.
  apply (side_effect_flag modf_out ["float"; "out float"]). by_compute.
Defined.
